(** * TaskManager (tskm): tasks, the TaskQueue scheduler and workers

    A shallow embedding of [Task.hpp], [TaskScheduler.hpp],
    [TaskScheduler.cpp] and [Worker.cpp]: the typed result of a task and
    the promise that receives it, [PackagedTask] and [Task]; the
    [TaskQueue] and its scheduler; the state and the loop of
    [SyncedWorker], which [AsyncWorker] runs on a thread of its own; and
    the threads of a program made of one [TaskQueue] and its workers.
    Further down: the type-erased view of a result and the message of a
    failure ([Task.cpp]), what [Task::create] stores, [DelayedStart], and
    the tests of the loops of the blocking [wait] functions.  Left out:
    the thread object of [AsyncWorker], the future classes that only pass
    calls on, and the ownership of the scheduler (the [shared_ptr]s that
    the [TaskQueue] and the workers hold).

    Conventions of the embedding.
    - A mutex-protected block of the source is one atomic function on the
      protected data; the places where a lock is released ([detail::Unlock],
      [condition_variable::wait]) are the boundaries between such functions.
    - [assert] is kept: every function that contains one takes the build
      flavour [debug] ([true] when [NDEBUG] is not defined) and aborts when
      the asserted condition is false in a debug build.
    - An exception that leaves a [noexcept] function calls [std::terminate].
    - A notification of a condition variable is an [Event] appended to the
      log a function returns. *)

From Stdlib Require Import NArith Lia.
From stdpp Require Import numbers option list gmap strings.

Set Default Proof Using "Type".

(** ** Results of running a block of the source *)

Inductive Crash : Type :=
| AssertionFailed   (* an [assert] failed in a debug build *)
| StdTerminate      (* an exception escaped a [noexcept] function *)
| NullDereference.  (* [base->...] on a moved-from Task in a release build *)

Inductive Res (A : Type) : Type :=
| Ret (a : A)
| Abort (c : Crash).
Arguments Ret {A} a.
Arguments Abort {A} c.

#[global] Instance Res_ret : MRet Res := λ A a, Ret a.
#[global] Instance Res_bind : MBind Res := λ A B k m,
  match m with
  | Ret a => k a
  | Abort c => Abort c
  end.

(** [assert(c)]: checked in debug builds only. *)
Definition assert (debug c : bool) : Res unit :=
  if debug && negb c then Abort AssertionFailed else Ret tt.

(** ** Condition variables and notifications *)

Inductive CondVar : Type :=
| base_variable    (* TaskSchedulerBase::variable, waited on by wait() *)
| impl_variable    (* TaskQueue::Scheduler::Impl::variable *)
| waitVariable.    (* SyncedWorker::waitVariable *)

Inductive Event : Type :=
| notify_one (cv : CondVar)
| notify_all (cv : CondVar).

#[global] Instance CondVar_eq_dec : EqDecision CondVar.
Proof. solve_decision. Defined.
#[global] Instance Event_eq_dec : EqDecision Event.
Proof. solve_decision. Defined.

(** ** Task.hpp: task results, promises and tasks *)

Module Task.
Section Task.

(** [R]: the callable's return type ([unit] for a void callable);
    [Args]: the tuple of captured arguments; [E]: the exception objects
    user code throws (other than [TaskCancellation]). *)
Context {R Args E : Type}.

(** What a [throw] can carry here: the designated cancellation signal,
    the [std::future_error] of a promise that cannot take a value, or a
    user exception. *)
Inductive Exception : Type :=
| TaskCancellation
| future_error
| user_exception (e : E).

(** Running the callable on its arguments: it returns or it throws. *)
Inductive Call : Type :=
| Returns (r : R)
| Throws (e : Exception).

(** [TypedTaskResult<R>]:
    [std::variant<R, TaskCancellation, std::exception_ptr>]. *)
Inductive TypedTaskResult : Type :=
| ReturnValue (r : R)                (* index 0 *)
| Cancellation                       (* index 1 *)
| ExceptionPtr (e : Exception).      (* index 2 *)

Definition success (r : TypedTaskResult) : bool :=
  match r with ReturnValue _ => true | _ => false end.

Definition getReturnValue (r : TypedTaskResult) : option R :=
  match r with ReturnValue v => Some v | _ => None end.

Definition getCancellation (r : TypedTaskResult) : option unit :=
  match r with Cancellation => Some tt | _ => None end.

Definition getException (r : TypedTaskResult) : option Exception :=
  match r with ExceptionPtr e => Some e | _ => None end.

(** The shared states of the [std::promise]/[std::shared_future] pairs,
    by address.  [st !! p = Some None]: the state exists and holds no
    value yet; [st !! p = Some (Some v)]: it holds [v].  A promise, the
    future made from it and every copy of that future name the same
    address. *)
Local Abbreviation Store := (gmap nat (option TypedTaskResult)).

(** [promise.set_value(v)]: throws [std::future_error] when the shared
    state already holds a value (or does not exist). *)
Definition set_value (st : Store) (p : nat) (v : TypedTaskResult)
  : Store + Exception :=
  match st !! p with
  | Some None => inl (<[p := Some v]> st)
  | _ => inr future_error
  end.

(** [future.get()] once the value is there; [None] while a caller would
    still block. *)
Definition future_get (st : Store) (p : nat) : option TypedTaskResult :=
  mjoin (st !! p).

(** [Task::PackagedTask<R, Args...>].  [future] shares [promise]'s state,
    so it is the same address; [ended] exists in debug builds only and
    is never written in a release build. *)
Record PackagedTask : Type := mkPackagedTask {
  promise : nat;
  function : Args → Call;
  args : Args;
  ended : bool;
  started : bool
}.

Definition future (t : PackagedTask) : nat := promise t.

Definition set_started (t : PackagedTask) : PackagedTask :=
  {| promise := promise t; function := function t; args := args t;
     ended := ended t; started := true |}.

Definition set_ended (t : PackagedTask) : PackagedTask :=
  {| promise := promise t; function := function t; args := args t;
     ended := true; started := started t |}.

(** [PackagedTask::cancel() noexcept] *)
Definition cancel (t : PackagedTask) (st : Store)
  : Res (PackagedTask * Store) :=
  if negb (started t) then
    match set_value st (promise t) Cancellation with
    | inl st' => Ret (set_started t, st')
    | inr _ => Abort StdTerminate
    end
  else Ret (t, st).

(** [PackagedTask::assertInactive()], compiled in debug builds only. *)
Definition assertInactive (t : PackagedTask) : Res unit :=
  assert true (bool_decide (started t = ended t)).

(** [PackagedTask::launch() noexcept].  The [try] block either stores
    the returned value or leaves with the exception thrown by the
    callable or by [set_value]; the handlers store the cancellation or
    the exception; an exception thrown inside a handler leaves the
    [noexcept] function. *)
Definition launch (debug : bool) (t : PackagedTask) (st : Store)
  : Res (PackagedTask * Store) :=
  _ ← assert debug (negb (started t));
  let t := set_started t in
  let tried :=
    match function t (args t) with
    | Returns r => set_value st (promise t) (ReturnValue r)
    | Throws e => inr e
    end in
  let handled :=
    match tried with
    | inl st' => inl st'
    | inr TaskCancellation => set_value st (promise t) Cancellation
    | inr e => set_value st (promise t) (ExceptionPtr e)
    end in
  match handled with
  | inl st' => Ret (if debug then set_ended t else t, st')
  | inr _ => Abort StdTerminate
  end.

(** [class Task]: [std::unique_ptr<Base> base], null once moved from. *)
Record Task : Type := mkTask { base : option PackagedTask }.

(** [Task::create(functor, args...)]: a new [PackagedTask] (whose promise
    gets a new shared state) and the future of that promise.  Here [f] is
    a functor that can be called and [a] is what the call of the task gets
    as arguments; the assertion of the constructor on an empty functor and
    arguments that the tuple holds by reference are in
    [Forwarding.create] below. *)
Definition create (f : Args → Call) (a : Args) (st : Store)
  : Task * nat * Store :=
  let p := fresh (dom st) in
  let pointer := {| promise := p; function := f; args := a;
                    ended := false; started := false |} in
  ({| base := Some pointer |}, future pointer, <[p := None]> st).

(** [Task::~Task()] *)
Definition destroy (debug : bool) (t : Task) (st : Store) : Res Store :=
  match base t with
  | Some b =>
      _ ← (if debug then assertInactive b else Ret tt);
      '(_, st') ← cancel b st;
      Ret st'
  | None => Ret st
  end.

(** [Task::operator()() noexcept] *)
Definition call (debug : bool) (t : Task) (st : Store)
  : Res (Task * Store) :=
  match base t with
  | Some b =>
      '(b', st') ← launch debug b st;
      Ret ({| base := Some b' |}, st')
  | None => Abort (if debug then AssertionFailed else NullDereference)
  end.

(** [Task::getFuture()] *)
Definition getFuture (debug : bool) (t : Task) : Res nat :=
  match base t with
  | Some b => Ret (future b)
  | None => Abort (if debug then AssertionFailed else NullDereference)
  end.

(** A task that neither [launch] nor [cancel] has touched: the flags are
    clear and the shared state of its promise holds no value. *)
Definition untouched (t : PackagedTask) (st : Store) : Prop :=
  started t = false ∧ ended t = false ∧ st !! promise t = Some None.

(** The same for the owner of the task. *)
Definition pending (task : Task) (st : Store) : Prop :=
  ∃ t, base task = Some t ∧ untouched t st.

(** The promises of the tasks of a container, in its order. *)
Definition promises (ts : list Task) : list nat :=
  omap (λ task, promise <$> base task) ts.

(** Tasks waiting in a container: each one untouched, each with a
    promise of its own. *)
Definition all_pending (ts : list Task) (st : Store) : Prop :=
  Forall (λ task, pending task st) ts ∧ NoDup (promises ts).

(** Destroying the elements of a container of tasks, first to last. *)
Fixpoint destroy_all (debug : bool) (ts : list Task) (st : Store)
  : Res Store :=
  match ts with
  | [] => Ret st
  | t :: ts' => st' ← destroy debug t st; destroy_all debug ts' st'
  end.

End Task.

Arguments Exception : clear implicits.
Arguments Call : clear implicits.
Arguments TypedTaskResult : clear implicits.
Arguments PackagedTask : clear implicits.
Arguments Task : clear implicits.

Abbreviation Store R E := (gmap nat (option (TypedTaskResult R E))).

End Task.

(** ** TaskScheduler.hpp / TaskScheduler.cpp: the TaskQueue scheduler *)

(** [unsigned] arithmetic: [working] is an [unsigned], 32 bits wide on the
    platforms the library builds on; [++] and [--] wrap around. *)
Definition UINT_WIDTH : N := 32.
Definition unsigned_incr (n : N) : N := ((n + 1) mod 2 ^ UINT_WIDTH)%N.
Definition unsigned_decr (n : N) : N :=
  ((n + 2 ^ UINT_WIDTH - 1) mod 2 ^ UINT_WIDTH)%N.

Module TaskQueue.
Section TaskQueue.

Context {R Args E : Type}.
Local Abbreviation Task := (Task.Task R Args E).
Local Abbreviation Store := (Task.Store R E).

(** What [TaskSchedulerBase::mutex] protects: the base class's
    [completed] and the fields of [TaskQueue::Scheduler::Impl]. *)
Record Scheduler : Type := mkScheduler {
  completed : bool;
  queue : list Task;
  queueActive : bool;   (* whether additional tasks can be added *)
  working : N           (* number of current workers *)
}.

(** Member initialisers of [TaskSchedulerBase] and [Impl]. *)
Definition init : Scheduler :=
  {| completed := false; queue := []; queueActive := true; working := 0 |}.

Definition set_completed (b : bool) (s : Scheduler) : Scheduler :=
  {| completed := b; queue := queue s; queueActive := queueActive s;
     working := working s |}.
Definition set_queue (q : list Task) (s : Scheduler) : Scheduler :=
  {| completed := completed s; queue := q; queueActive := queueActive s;
     working := working s |}.
Definition set_queueActive (b : bool) (s : Scheduler) : Scheduler :=
  {| completed := completed s; queue := queue s; queueActive := b;
     working := working s |}.
Definition set_working (n : N) (s : Scheduler) : Scheduler :=
  {| completed := completed s; queue := queue s;
     queueActive := queueActive s; working := n |}.

(** [TaskSchedulerBase::setCompleted] *)
Definition setCompleted (s : Scheduler) : Scheduler * list Event :=
  (set_completed true s, [notify_all base_variable]).

(** [TaskSchedulerBase::isCompleted] (both overloads) *)
Definition isCompleted (s : Scheduler) : bool := completed s.

(** [TaskQueue::Scheduler::checkWaitingPredicates] *)
Definition checkWaitingPredicates : list Event := [notify_all impl_variable].

(** [std::queue::empty] *)
Definition empty (q : list Task) : bool :=
  match q with [] => true | _ :: _ => false end.

(** [TaskQueue::Scheduler::checkCompleted] *)
Definition checkCompleted (s : Scheduler) : Scheduler * list Event :=
  if bool_decide (working s = 0%N) && empty (queue s)
     && negb (queueActive s)
  then
    let '(s', ev) := setCompleted s in
    (s', ev ++ checkWaitingPredicates)
  else (s, []).

(** [TaskQueue::addTask(Task task)].  In the open branch [task] is moved
    into the queue and the parameter left behind is empty; in the closed
    branch the parameter still owns the task when it is destroyed. *)
Definition addTask (debug : bool) (s : Scheduler) (task : Task) (st : Store)
  : Res (Scheduler * Store * list Event) :=
  if queueActive s then
    Ret (set_queue (queue s ++ [task]) s, st, [notify_one impl_variable])
  else
    st' ← Task.destroy debug task st;
    Ret (s, st', []).

(** [TaskQueue::addTask(Functor functor, Args &&...args)]: returns the
    future of the task it creates. *)
Definition addTask_functor (debug : bool) (s : Scheduler)
    (f : Args → Task.Call R E) (a : Args) (st : Store)
  : Res (Scheduler * nat * Store * list Event) :=
  let '(task, fut, st1) := Task.create f a st in
  '(s', st2, ev) ← addTask debug s task st1;
  Ret (s', fut, st2, ev).

(** [TaskQueue::cancel]: the temporary that received the old contents
    is destroyed, with the tasks in it, before [checkCompleted] runs. *)
Definition cancel (debug : bool) (s : Scheduler) (st : Store)
  : Res (Scheduler * Store * list Event) :=
  let dropped := queue s in
  let s1 := set_queue [] s in
  st' ← Task.destroy_all debug dropped st;
  let '(s2, ev) := checkCompleted s1 in
  Ret (s2, st', ev).

(** [TaskQueue::close] *)
Definition close (s : Scheduler) : Scheduler * list Event :=
  checkCompleted (set_queueActive false s).

(** [TaskQueue::~TaskQueue]: the body of the destructor.  The member
    [consumer] is released after it, which is not part of this function:
    the scheduler and the tasks in its queue live on as long as a worker
    holds the scheduler. *)
Definition destructor (s : Scheduler) : Scheduler * list Event :=
  checkCompleted (set_queueActive false s).

(** The condition [checkCompleted] tests, as a proposition. *)
Definition drained (s : Scheduler) : Prop :=
  queueActive s = false ∧ queue s = [] ∧ working s = 0%N.

(** [TaskQueue::isClosed] *)
Definition isClosed (s : Scheduler) : bool := negb (queueActive s).

(** One pass through the body of the loop of
    [TaskQueue::Scheduler::startScheduledWork], from the top of the loop
    to the place where the scheduler's lock is released. *)
Inductive Iteration : Type :=
| Break                                  (* [break]: the call returns *)
| Block                                  (* [impl->variable.wait(lock)] *)
| RunTask (task : Task) (s : Scheduler). (* [Unlock] in [runNextTask] *)

(** [queue.front()] then [queue.pop()], the first two statements of
    [runNextTask]; undefined on an empty queue. *)
Definition front_pop (s : Scheduler) : option (Task * Scheduler) :=
  match queue s with
  | task :: rest => Some (task, set_queue rest s)
  | [] => None
  end.

Definition startScheduledWork_iter (predicate : bool → bool)
    (s : Scheduler) : option Iteration :=
  let workReady := negb (empty (queue s)) in
  if isCompleted s || negb (predicate workReady) then Some Break
  else if workReady then
    let s := set_working (unsigned_incr (working s)) s in
    '(task, s') ← front_pop s;
    Some (RunTask task s')
  else Some Block.

(** The rest of [runNextTask], once [task()] has returned and the lock is
    held again: [checkCompleted(lock)], then the local [task] goes out
    of scope. *)
Definition runNextTask_rest (debug : bool) (task : Task) (s : Scheduler)
    (st : Store) : Res (Scheduler * Store * list Event) :=
  let '(s1, ev) := checkCompleted s in
  st' ← Task.destroy debug task st;
  Ret (s1, st', ev).

(** The rest of the loop body after [task()]: the rest of [runNextTask],
    [impl->working--], [checkCompleted(lock)]. *)
Definition startScheduledWork_rest (debug : bool) (task : Task)
    (s : Scheduler) (st : Store) : Res (Scheduler * Store * list Event) :=
  '(s1, st1, ev1) ← runNextTask_rest debug task s st;
  let s2 := set_working (unsigned_decr (working s1)) s1 in
  let '(s3, ev2) := checkCompleted s2 in
  Ret (s3, st1, ev1 ++ ev2).

End TaskQueue.

Arguments Scheduler : clear implicits.
Arguments Iteration : clear implicits.

End TaskQueue.

(** ** The protocol of [start_scheduled_work], in the words of the
    specification

    These definitions follow the numbered steps of the specification, not
    the source; [startScheduledWork_iter] and [startScheduledWork_rest]
    above are the source. *)

Module Protocol.
Section Protocol.

Import TaskQueue.
Context {R Args E : Type}.
Local Abbreviation Scheduler := (TaskQueue.Scheduler R Args E).

(** "completed <- !open /\ queue empty /\ working == 0.  Latched once
    set.  Setting completion wakes all waiters and all predicate-blocked
    workers." *)
Definition evaluate_completion (s : Scheduler) : Scheduler * list Event :=
  if negb (queueActive s) && empty (queue s) && bool_decide (working s = 0%N)
  then (set_completed true s,
        [notify_all base_variable; notify_all impl_variable])
  else (s, []).

(** Steps 1 to 5, up to the release of the scheduler's lock. *)
Definition iteration (predicate : bool → bool) (s : Scheduler)
  : Iteration R Args E :=
  let work_available := negb (empty (queue s)) in
  if completed s then Break
  else if negb (predicate work_available) then Break
  else match queue s with
       | front :: rest =>
           RunTask front (set_queue rest (set_working (working s + 1) s))
       | [] => Block
       end.

(** Step 4 from "reacquire the lock" on. *)
Definition after_task (s : Scheduler) : Scheduler * list Event :=
  evaluate_completion (set_working (working s - 1) s).

End Protocol.
End Protocol.

(** ** Worker.hpp / Worker.cpp: the worker state machine *)

Module Worker.

(** [enum class State { TERMINATE, WAIT, WORK }] *)
Inductive State : Type := TERMINATE | WAIT | WORK.

#[global] Instance State_eq_dec : EqDecision State.
Proof. solve_decision. Defined.

(** The fields of [SyncedWorker] that its mutex protects. *)
Record SyncedWorker : Type := mkWorker {
  currentState : State;
  requestedState : State
}.

(** Field initialisers: [currentState = WAIT], [requestedState = WORK]. *)
Definition init : SyncedWorker :=
  {| currentState := WAIT; requestedState := WORK |}.

(** [SyncedWorker::requestState].  The asserted expression is
    [requestedState == TERMINATE || state != TERMINATE && "..."]; the
    string literal is a non-null pointer, so the condition is
    [requestedState == TERMINATE || state != TERMINATE]. *)
Definition requestState (debug : bool) (w : SyncedWorker) (state : State)
  : Res (SyncedWorker * list Event) :=
  _ ← assert debug (bool_decide (requestedState w = TERMINATE)
                    || bool_decide (state ≠ TERMINATE));
  let '(w', notifyWait) :=
    if bool_decide (requestedState w ≠ state) then
      ({| currentState := currentState w; requestedState := state |},
       bool_decide (requestedState w = WAIT))
    else (w, false) in
  Ret (w', if notifyWait : bool then [notify_all waitVariable] else []).

Definition getState (w : SyncedWorker) : State := currentState w.
Definition getRequestedState (w : SyncedWorker) : State := requestedState w.

(** The lambda [[&](bool) { ...; return requestedState == State::WORK; }]
    that [runLoop] hands to [startScheduledWork].  [AsyncWorker] inherits
    [runLoop] from [SyncedWorker] and only overrides [start], so both
    kinds of worker pass this predicate. *)
Definition predicate (w : SyncedWorker) (workAvailable : bool) : bool :=
  bool_decide (requestedState w = WORK).

(** Where [runLoop] goes after a block that holds the worker's lock. *)
Inductive Next : Type :=
| Return_           (* [return] *)
| Wait              (* [waitVariable.wait(lock)] *)
| EnterScheduler    (* [Unlock l(lock)], [startScheduledWork] *)
| Again.            (* the next round of [while (true)] *)

(** [runLoop] from the test of [while (requestedState == State::WAIT)]
    on; [isCompleted] is what [scheduler->isCompleted()] returns.  This
    is also where a thread woken from [waitVariable.wait] resumes. *)
Definition runLoop_inner (w : SyncedWorker) (isCompleted : bool) : Next :=
  if bool_decide (requestedState w = WAIT) then
    if isCompleted then Return_ else Wait
  else if bool_decide (requestedState w = WORK) then
    if isCompleted then Return_ else EnterScheduler
  else Again.

(** One round of [while (true)] in [runLoop], from its first statement. *)
Definition runLoop_top (w : SyncedWorker) (isCompleted : bool)
  : SyncedWorker * Next :=
  let w := {| currentState := requestedState w;
              requestedState := requestedState w |} in
  if bool_decide (requestedState w = TERMINATE) then (w, Return_)
  else (w, runLoop_inner w isCompleted).

(** [SyncedWorker::start] once [runLoop] has returned. *)
Definition start_rest (w : SyncedWorker) : SyncedWorker * list Event :=
  ({| currentState := TERMINATE; requestedState := requestedState w |},
   [notify_all waitVariable]).

End Worker.

(** ** The threads of a program: one TaskQueue and its workers

    A state of the whole program and the atomic steps its threads take:
    the calls of client code to the queue and to the workers, and the
    blocks of the workers' own threads.  Client code submits with
    [addTask(functor, args...)]; a program that hands a task it made
    itself to [addTask(Task)] is not among these.  A thread that waits on a
    condition variable may resume at any time (condition variables wake
    spuriously, and every [wait] of the source sits in a loop that tests
    again), so notifications do not appear in the steps: the wake-up of a
    thread is a step that is always possible, never one that has to
    happen, and what is said of a sleeping thread that goes on is said
    under the hypothesis of its wake-up. *)

Module System.
Section System.

Context {R Args E : Type}.
Local Abbreviation Task := (Task.Task R Args E).
Local Abbreviation Store := (Task.Store R E).
Local Abbreviation Scheduler := (TaskQueue.Scheduler R Args E).

(** Where a worker's thread is. *)
Inductive PC : Type :=
| unstarted                 (* constructed; [start] not called yet *)
| at_top                    (* [runLoop]: before a round of [while (true)] *)
| waiting                   (* [runLoop]: in [waitVariable.wait(lock)] *)
| in_scheduler              (* [startScheduledWork]: top of its loop *)
| blocked                   (* [startScheduledWork]: in [variable.wait] *)
| unlocked (task : Task)    (* [runNextTask]: before [task()] *)
| executed (task : Task)    (* [runNextTask]: after [task()] *)
| terminated.               (* [start] has set [currentState] *)

Record System : Type := mkSystem {
  store : Store;
  scheduler : Scheduler;
  frontend : bool;          (* the [TaskQueue] object still exists *)
  threads : list (Worker.SyncedWorker * PC)
}.

(** A [TaskQueue] and [n] workers made for it, none started. *)
Definition init (n : nat) : System :=
  {| store := ∅; scheduler := TaskQueue.init; frontend := true;
     threads := replicate n (Worker.init, unstarted) |}.

Inductive Label : Type :=
| l_addTask (future : nat)          (* [queue.addTask(functor, args...)] *)
| l_close
| l_cancel
| l_destructor
| l_requestState (i : nat) (state : Worker.State)
| l_start (i : nat)
| l_runLoop (i : nat)
| l_wake (i : nat)
| l_iter (i : nat)
| l_launch (i : nat) (future : nat) (* [task()] in [runNextTask] *)
| l_rest (i : nat).

#[global] Instance Label_eq_dec : EqDecision Label.
Proof. solve_decision. Defined.

Definition set_thread (i : nat) (t : Worker.SyncedWorker * PC)
    (sys : System) : System :=
  {| store := store sys; scheduler := scheduler sys;
     frontend := frontend sys; threads := <[i := t]> (threads sys) |}.

(** Where [runLoop] is after a block. *)
Definition pc_of_next (n : Worker.Next) : PC :=
  match n with
  | Worker.Return_ => terminated
  | Worker.Wait => waiting
  | Worker.EnterScheduler => in_scheduler
  | Worker.Again => at_top
  end.

(** [start] finishes the worker when [runLoop] returns. *)
Definition after_block (w : Worker.SyncedWorker) (n : Worker.Next)
  : Worker.SyncedWorker * PC :=
  match n with
  | Worker.Return_ => ((Worker.start_rest w).1, terminated)
  | _ => (w, pc_of_next n)
  end.

Definition pc_of_iteration (it : TaskQueue.Iteration R Args E) : PC :=
  match it with
  | TaskQueue.Break => at_top
  | TaskQueue.Block => blocked
  | TaskQueue.RunTask task _ => unlocked task
  end.

Definition scheduler_of_iteration (it : TaskQueue.Iteration R Args E)
    (s : Scheduler) : Scheduler :=
  match it with
  | TaskQueue.RunTask _ s' => s'
  | _ => s
  end.

Inductive step (debug : bool) : System → Label → System → Prop :=
| step_addTask sys f a s' fut st' ev :
    frontend sys = true →
    TaskQueue.addTask_functor debug (scheduler sys) f a (store sys)
      = Ret (s', fut, st', ev) →
    step debug sys (l_addTask fut)
      {| store := st'; scheduler := s'; frontend := true;
         threads := threads sys |}
| step_close sys :
    frontend sys = true →
    step debug sys l_close
      {| store := store sys;
         scheduler := (TaskQueue.close (scheduler sys)).1;
         frontend := true; threads := threads sys |}
| step_cancel sys s' st' ev :
    frontend sys = true →
    TaskQueue.cancel debug (scheduler sys) (store sys) = Ret (s', st', ev) →
    step debug sys l_cancel
      {| store := st'; scheduler := s'; frontend := true;
         threads := threads sys |}
| step_destructor sys :
    frontend sys = true →
    step debug sys l_destructor
      {| store := store sys;
         scheduler := (TaskQueue.destructor (scheduler sys)).1;
         frontend := false; threads := threads sys |}
| step_requestState sys i w pc state w' ev :
    threads sys !! i = Some (w, pc) →
    Worker.requestState debug w state = Ret (w', ev) →
    step debug sys (l_requestState i state) (set_thread i (w', pc) sys)
| step_start sys i w :
    threads sys !! i = Some (w, unstarted) →
    step debug sys (l_start i) (set_thread i (w, at_top) sys)
| step_runLoop sys i w w' n :
    threads sys !! i = Some (w, at_top) →
    Worker.runLoop_top w (TaskQueue.isCompleted (scheduler sys)) = (w', n) →
    step debug sys (l_runLoop i) (set_thread i (after_block w' n) sys)
| step_wake_waiting sys i w :
    threads sys !! i = Some (w, waiting) →
    step debug sys (l_wake i)
      (set_thread i
         (after_block w
            (Worker.runLoop_inner w (TaskQueue.isCompleted (scheduler sys))))
         sys)
| step_wake_blocked sys i w :
    threads sys !! i = Some (w, blocked) →
    step debug sys (l_wake i) (set_thread i (w, in_scheduler) sys)
| step_iter sys i w it :
    threads sys !! i = Some (w, in_scheduler) →
    TaskQueue.startScheduledWork_iter (Worker.predicate w) (scheduler sys)
      = Some it →
    step debug sys (l_iter i)
      {| store := store sys;
         scheduler := scheduler_of_iteration it (scheduler sys);
         frontend := frontend sys;
         threads := <[i := (w, pc_of_iteration it)]> (threads sys) |}
| step_launch sys i w task fut task' st' :
    threads sys !! i = Some (w, unlocked task) →
    Task.getFuture debug task = Ret fut →
    Task.call debug task (store sys) = Ret (task', st') →
    step debug sys (l_launch i fut)
      {| store := st'; scheduler := scheduler sys;
         frontend := frontend sys;
         threads := <[i := (w, executed task')]> (threads sys) |}
| step_rest sys i w task s' st' ev :
    threads sys !! i = Some (w, executed task) →
    TaskQueue.startScheduledWork_rest debug task (scheduler sys) (store sys)
      = Ret (s', st', ev) →
    step debug sys (l_rest i)
      {| store := st'; scheduler := s'; frontend := frontend sys;
         threads := <[i := (w, in_scheduler)]> (threads sys) |}.

(** Executions, with the labels of their steps in order. *)
Inductive exec (debug : bool) : System → list Label → System → Prop :=
| exec_nil sys : exec debug sys [] sys
| exec_snoc sys tr sys' l sys'' :
    exec debug sys tr sys' →
    step debug sys' l sys'' →
    exec debug sys (tr ++ [l]) sys''.

(** The futures of the tasks handed to [addTask], in order. *)
Definition submitted (tr : list Label) : list nat :=
  omap (λ l, match l with l_addTask fut => Some fut | _ => None end) tr.

(** The futures of the tasks whose execution began, in order. *)
Definition launched (tr : list Label) : list nat :=
  omap (λ l, match l with l_launch _ fut => Some fut | _ => None end) tr.

(** Reading a trace from its start: whether the queue is still open, and
    the futures of the tasks handed to [addTask] while it was. *)
Definition intake (acc : bool * list nat) (l : Label) : bool * list nat :=
  match l with
  | l_addTask fut => (acc.1, if acc.1 then acc.2 ++ [fut] else acc.2)
  | l_close | l_destructor => (false, acc.2)
  | _ => acc
  end.

Definition still_open (tr : list Label) : bool :=
  (foldl intake (true, []) tr).1.

Definition admitted (tr : list Label) : list nat :=
  (foldl intake (true, []) tr).2.

(** The steps of worker [i]'s own thread, from the start of [runLoop]
    on. *)
Definition own_label (i : nat) (l : Label) : bool :=
  match l with
  | l_runLoop j | l_wake j | l_iter j | l_launch j _ | l_rest j =>
      bool_decide (j = i)
  | _ => false
  end.

(** A thread between the [impl->working++] and the [impl->working--] of
    [startScheduledWork]. *)
Definition running (pc : PC) : bool :=
  match pc with unlocked _ | executed _ => true | _ => false end.

Fixpoint count_running (ths : list (Worker.SyncedWorker * PC)) : nat :=
  match ths with
  | [] => 0
  | th :: ths' => (if running th.2 then 1 else 0) + count_running ths'
  end.

(** The promises of the tasks taken from the queue and not yet called,
    by thread. *)
Definition held_of (pc : PC) : option nat :=
  match pc with
  | unlocked task => Task.promise <$> Task.base task
  | _ => None
  end.

Fixpoint held (ths : list (Worker.SyncedWorker * PC)) : list nat :=
  match ths with
  | [] => []
  | th :: ths' => option_list (held_of th.2) ++ held ths'
  end.

(** [x] occurs before [y] in [l]. *)
Definition before (x y : nat) (l : list nat) : Prop :=
  ∃ l1 l2 l3, l = l1 ++ x :: l2 ++ y :: l3.

(** What holds of the scheduler in every state of a program with [n]
    workers. *)
Record Inv (debug : bool) (n : nat) (sys : System) : Prop := mkInv {
  inv_threads : length (threads sys) = n;
  inv_working :
    TaskQueue.working (scheduler sys)
    = N.of_nat (count_running (threads sys));
  inv_completed :
    TaskQueue.completed (scheduler sys) = true
    ↔ TaskQueue.drained (scheduler sys);
  inv_executed :
    ∀ i w task, threads sys !! i = Some (w, executed task) →
      ∃ t, Task.base task = Some t ∧ Task.started t = true
           ∧ (debug = true → Task.ended t = true)
}.

(** What holds of the tasks after the steps [tr]. *)
Record TraceInv (tr : list Label) (sys : System) : Prop := mkTraceInv {
  tinv_dom : ∀ p, p ∈ submitted tr → p ∈ dom (store sys);
  tinv_nodup : NoDup (submitted tr);
  tinv_order :
    length (threads sys) = 1 →
    sublist (launched tr ++ held (threads sys)
             ++ Task.promises (TaskQueue.queue (scheduler sys)))
            (submitted tr)
}.

(** With one worker and no [cancel], the tasks the queue took are the
    tasks called, the task about to be called, and the tasks that wait, in
    this order. *)
Record FifoInv (tr : list Label) (sys : System) : Prop := mkFifoInv {
  finv_open : TaskQueue.queueActive (scheduler sys) = still_open tr;
  finv_exact :
    length (threads sys) = 1 → l_cancel ∉ tr →
    launched tr ++ held (threads sys)
      ++ Task.promises (TaskQueue.queue (scheduler sys))
    = admitted tr
}.

(** What holds of the tasks that wait in the queue. *)
Record QueueInv (sys : System) : Prop := mkQueueInv {
  qinv_pending :
    Forall (λ task, Task.pending task (store sys))
      (TaskQueue.queue (scheduler sys));
  qinv_nodup :
    NoDup (held (threads sys)
           ++ Task.promises (TaskQueue.queue (scheduler sys)));
  qinv_dom : ∀ p, p ∈ held (threads sys) → p ∈ dom (store sys)
}.

(** The task a thread has taken from the queue and not yet called is
    untouched as well. *)
Definition HeldInv (sys : System) : Prop :=
  ∀ i w task, threads sys !! i = Some (w, unlocked task) →
    Task.pending task (store sys).

End System.

Arguments PC : clear implicits.
Arguments System : clear implicits.

End System.

(** ** A small program

    One worker; two tasks are submitted, the queue is closed, the worker is
    started and runs both.  Return values, arguments and user exceptions
    are numbers. *)

Module Example.

Import Task TaskQueue System.

Definition increment : nat → Call nat nat := λ x, Returns (x + 1).
Definition boom : nat → Call nat nat := λ x, Throws (user_exception x).
Definition self_cancel : nat → Call nat nat := λ _, Throws TaskCancellation.

(** Two tasks as [Task::create] makes them, and the shared states of
    their promises. *)
Definition task0 : PackagedTask nat nat nat :=
  {| promise := 0; function := increment; args := 41;
     ended := false; started := false |}.
Definition task1 : PackagedTask nat nat nat :=
  {| promise := 1; function := boom; args := 7;
     ended := false; started := false |}.
Definition task2 : PackagedTask nat nat nat :=
  {| promise := 2; function := self_cancel; args := 0;
     ended := false; started := false |}.
Definition two_promises : Store nat nat := <[1 := None]> (<[0 := None]> ∅).
Definition three_promises : Store nat nat := <[2 := None]> two_promises.

(** An open queue in which the two tasks wait. *)
Definition open_queue : Scheduler nat nat nat :=
  {| completed := false;
     queue := [mkTask (Some task0); mkTask (Some task1)];
     queueActive := true; working := 0 |}.

(** The steps of the program. *)
Definition run : list Label :=
  [ l_addTask 0; l_addTask 1; l_close; l_start 0; l_runLoop 0;
    l_iter 0; l_launch 0 0; l_rest 0;
    l_iter 0; l_launch 0 1; l_rest 0 ].

(** The state after [run]. *)
Definition after_run : System nat nat nat :=
  {| store := <[1 := Some (ExceptionPtr (user_exception 7))]>
                (<[0 := Some (ReturnValue 42)]> ∅);
     scheduler := {| completed := true; queue := [];
                     queueActive := false; working := 0 |};
     frontend := true;
     threads := [(Worker.mkWorker Worker.WORK Worker.WORK, in_scheduler)] |}.

(** The steps up to the return of the first task, and the state then. *)
Definition run_to_first_return : list Label :=
  [ l_addTask 0; l_addTask 1; l_close; l_start 0; l_runLoop 0;
    l_iter 0; l_launch 0 0 ].

Definition after_first_return : System nat nat nat :=
  {| store := <[0 := Some (ReturnValue 42)]> two_promises;
     scheduler := {| completed := false; queue := [mkTask (Some task1)];
                     queueActive := false; working := 1 |};
     frontend := true;
     threads := [(Worker.mkWorker Worker.WORK Worker.WORK,
                  executed (mkTask (Some (set_ended (set_started task0)))))]
  |}.

(** A worker told to wait and to work again: started on an empty queue it
    blocks in the scheduler; asked to wait, it leaves the scheduler when
    the next task arrives and parks without running it; asked to work, it
    runs the task; after [close] it terminates. *)
Definition wait_and_work : list Label :=
  [ l_start 0; l_runLoop 0; l_iter 0;
    l_requestState 0 Worker.WAIT; l_addTask 0; l_wake 0; l_iter 0;
    l_runLoop 0;
    l_requestState 0 Worker.WORK; l_wake 0; l_iter 0; l_launch 0 0;
    l_rest 0;
    l_close; l_iter 0; l_runLoop 0 ].

(** The state when the worker has parked: the task still waits. *)
Definition parked : System nat nat nat :=
  {| store := <[0 := None]> ∅;
     scheduler := {| completed := false; queue := [mkTask (Some task0)];
                     queueActive := true; working := 0 |};
     frontend := true;
     threads := [(Worker.mkWorker Worker.WAIT Worker.WAIT, waiting)] |}.

Definition after_wait_and_work : System nat nat nat :=
  {| store := <[0 := Some (ReturnValue 42)]> ∅;
     scheduler := {| completed := true; queue := [];
                     queueActive := false; working := 0 |};
     frontend := true;
     threads := [(Worker.mkWorker Worker.TERMINATE Worker.WORK, terminated)]
  |}.

(** The state of a program that has only closed its queue. *)
Definition closed_at_once : System nat nat nat :=
  {| store := ∅;
     scheduler := {| completed := true; queue := [];
                     queueActive := false; working := 0 |};
     frontend := true;
     threads := [(Worker.init, unstarted)] |}.

End Example.

(** ** Task.hpp / Task.cpp: the untyped view of a result, the message of a
    failure *)

Module Untyped.
Section Untyped.

Import Task.
Context {R E : Type}.

(** What the handlers of [detail::getExceptionMessage] see of an exception
    object: [what u] is [Some m] when the user exception [u] is a
    [std::exception] whose [what()] is [m]; [future_error_what] is the
    [what()] of [std::future_error]. *)
Variable what : E → option string.
Variable future_error_what : string.

(** The text [catch (const std::exception &ex)] gets, if that handler
    takes the exception.  [TaskCancellation] is a class of its own, not a
    [std::exception]. *)
Definition exception_what (e : Exception E) : option string :=
  match e with
  | TaskCancellation => None
  | future_error => Some future_error_what
  | user_exception u => what u
  end.

(** [detail::getExceptionMessage(const std::exception_ptr *exception)] *)
Definition detail_getExceptionMessage (exception : option (Exception E))
  : option string :=
  match exception with
  | Some e =>
      match exception_what e with
      | Some message => Some message
      | None => Some "unknown exception"%string
      end
  | None => None
  end.

(** [TypedTaskResult<R>::getExceptionMessage] *)
Definition getExceptionMessage (r : TypedTaskResult R E) : option string :=
  detail_getExceptionMessage (getException r).

(** What the [const void *] of the untyped view points to: the returned
    value, or [TypedTaskResult<void>::SUCCESS]. *)
Inductive VoidPtr : Type :=
| to_value (r : R)
| to_SUCCESS.

(** [TypedTaskResult<IndeterminateReturnType>]: its [base] is a
    [TaskResult<R>] around a typed result, compiled with one branch of
    [if constexpr (std::is_same_v<R, void>)] or the other. *)
Inductive TaskResult : Type :=
| TaskResult_of (result : TypedTaskResult R E)
| TaskResult_of_void (result : TypedTaskResult unit E).

(** [TaskResult<R>::getReturnValue] *)
Definition getReturnValue (u : TaskResult) : option VoidPtr :=
  match u with
  | TaskResult_of result => to_value <$> Task.getReturnValue result
  | TaskResult_of_void result =>
      if Task.success result then Some to_SUCCESS else None
  end.

(** [TypedTaskResult<IndeterminateReturnType>::success]: the pointer
    [base->getReturnValue()] converted to [bool]. *)
Definition success (u : TaskResult) : bool :=
  match getReturnValue u with Some _ => true | None => false end.

(** [TaskResult<R>::getException] *)
Definition getException (u : TaskResult) : option (Exception E) :=
  match u with
  | TaskResult_of result => Task.getException result
  | TaskResult_of_void result => Task.getException result
  end.

(** [TaskResult<R>::getCancellation] *)
Definition getCancellation (u : TaskResult) : option unit :=
  match u with
  | TaskResult_of result => Task.getCancellation result
  | TaskResult_of_void result => Task.getCancellation result
  end.

(** [TypedTaskResult<IndeterminateReturnType>::getExceptionMessage] *)
Definition getExceptionMessage_untyped (u : TaskResult) : option string :=
  detail_getExceptionMessage (getException u).

(** [success()] of the typed result inside. *)
Definition typed_success (u : TaskResult) : bool :=
  match u with
  | TaskResult_of result => Task.success result
  | TaskResult_of_void result => Task.success result
  end.

End Untyped.

Arguments VoidPtr : clear implicits.
Arguments TaskResult : clear implicits.

End Untyped.

(** ** Task.hpp: what [Task::create] stores *)

Module Forwarding.
Section Forwarding.

Import Task.

(** [A]: the arguments of the functor; [Mem]: the variables of the code
    that creates the task. *)
Context {R A E Mem : Type}.

(** The [std::bad_function_call] that the call of an empty
    [std::function] throws. *)
Variable bad_function_call : E.

(** [Function function]: the [std::function<R(Args...)>] made from the
    functor given to [create]; empty when that is a null function pointer
    or an empty [std::function]. *)
Definition Function : Type := option (A → Call R E).

(** [std::tuple<Args...> args].  [Args] are deduced from the forwarding
    references [Args &&...args] of [create]: an argument given as an rvalue
    is moved into the tuple, an argument given as an lvalue is held by
    reference, and the tuple then refers to the caller's variable, which
    is taken to be alive when the task is called. *)
Inductive Tuple : Type :=
| by_value (a : A)
| by_reference (read : Mem → A).

(** What the tuple gives when the caller's variables are as in [m]. *)
Definition contents (args : Tuple) (m : Mem) : A :=
  match args with
  | by_value a => a
  | by_reference read => read m
  end.

(** [std::apply(std::move(function), std::move(args))], the call in
    [launch], when the caller's variables are as in [m]. *)
Definition apply (function : Function) (args : Tuple) (m : Mem)
  : Call R E :=
  match function with
  | Some f => f (contents args m)
  | None => Throws (user_exception bad_function_call)
  end.

(** The constructor of [PackagedTask]:
    [assert(this->function && "function must not be nullptr")]. *)
Definition PackagedTask_constructor (debug : bool) (function : Function)
  : Res unit :=
  assert debug (match function with Some _ => true | None => false end).

(** The [PackagedTask] as [launch] finds it when the caller's variables
    are as in [m]. *)
Definition packaged (p : nat) (function : Function) (args : Tuple)
    (m : Mem) : PackagedTask R A E :=
  {| promise := p;
     function := λ a, match function with
                      | Some f => f a
                      | None => Throws (user_exception bad_function_call)
                      end;
     args := contents args m;
     ended := false; started := false |}.

(** [Task::create(functor, args...)]: the task (by the state of the
    variables its tuple refers to), the future of its promise, and the
    store with the new shared state. *)
Definition create (debug : bool) (functor : Function) (args : Tuple)
    (st : Store R E) : Res ((Mem → Task R A E) * nat * Store R E) :=
  let p := fresh (dom st) in
  _ ← PackagedTask_constructor debug functor;
  Ret (λ m, {| base := Some (packaged p functor args m) |},
       p, <[p := None]> st).

End Forwarding.

Arguments Function : clear implicits.
Arguments Tuple : clear implicits.

End Forwarding.

(** ** Worker.cpp: DelayedStart and the constructor of Worker *)

Module DelayedStart.

(** [DelayedStart::Impl::worker], the pointer that [mutex] protects; a
    worker is named by its number.  Each function returns the new value
    and the workers on which it called [start()], in order. *)
Definition Impl : Type := option nat.

(** [Worker *worker = nullptr] *)
Definition init : Impl := None.

(** [DelayedStart::startImpl] *)
Definition startImpl (d : Impl) : Impl * list nat :=
  match d with
  | Some worker => (None, [worker])
  | None => (None, [])
  end.

(** [DelayedStart::accept] *)
Definition accept (d : Impl) (worker : nat) : Impl * list nat :=
  let '(_, started) := startImpl d in
  (Some worker, started).

(** [DelayedStart::start] *)
Definition start (d : Impl) : Impl * list nat := startImpl d.

(** [DelayedStart::isEmpty] *)
Definition isEmpty (d : Impl) : bool :=
  match d with Some _ => false | None => true end.

(** [DelayedStart::~DelayedStart] *)
Definition destructor (d : Impl) : list nat := (start d).2.

(** [Worker::Worker(impl, startDelay)], for the worker numbered [this]:
    handed to the [DelayedStart] when there is one, started otherwise. *)
Definition Worker_constructor (startDelay : option Impl) (this : nat)
  : option Impl * list nat :=
  match startDelay with
  | Some d => let '(d', started) := accept d this in (Some d', started)
  | None => (None, [this])
  end.

(** What client code does with one [DelayedStart]: make a worker with it,
    or call [start()]. *)
Inductive Call : Type :=
| make_worker (this : nat)
| call_start.

Definition do_call (acc : Impl * list nat) (c : Call) : Impl * list nat :=
  match c with
  | make_worker this =>
      let '(d', started) := accept acc.1 this in (d', acc.2 ++ started)
  | call_start =>
      let '(d', started) := start acc.1 in (d', acc.2 ++ started)
  end.

(** The calls [cs] on a new [DelayedStart]: its value afterwards and the
    workers started so far. *)
Definition run (cs : list Call) : Impl * list nat :=
  foldl do_call (init, []) cs.

(** The workers made with the [DelayedStart], in order. *)
Definition made (cs : list Call) : list nat :=
  omap (λ c, match c with make_worker this => Some this | _ => None end) cs.

End DelayedStart.

(** ** More of what holds in every state of a program *)

Module More.
Section More.

Import System.
Context {R Args E : Type}.

(** What [getState()] says, by the place of the worker's thread. *)
Definition lifecycle_ok (w : Worker.SyncedWorker) (pc : PC R Args E) : Prop :=
  (Worker.currentState w = Worker.TERMINATE ↔ pc = terminated)
  ∧ (pc = waiting → Worker.currentState w = Worker.WAIT)
  ∧ (pc = unstarted → Worker.currentState w = Worker.WAIT).

Definition LifecycleInv (sys : System R Args E) : Prop :=
  ∀ i w pc, threads sys !! i = Some (w, pc) → lifecycle_ok w pc.

(** [Worker::~Worker]: its assertion, on the state of the worker's
    [impl]. *)
Definition Worker_destructor (debug : bool) (w : Worker.SyncedWorker)
  : Res unit :=
  assert debug (bool_decide (Worker.getState w = Worker.TERMINATE)).

(** The tasks called, about to be called and waiting are pairwise
    different, and all of them were submitted. *)
Record OnceInv (tr : list Label) (sys : System R Args E) : Prop := mkOnceInv {
  once_nodup :
    NoDup (launched tr ++ held (threads sys)
           ++ Task.promises (TaskQueue.queue (scheduler sys)));
  once_submitted :
    ∀ p, p ∈ launched tr ++ held (threads sys)
             ++ Task.promises (TaskQueue.queue (scheduler sys)) →
      p ∈ submitted tr
}.

(** What the [try] block of [launch] and its handlers put in the
    promise, by what the callable did. *)
Definition outcome (c : Task.Call R E) : Task.TypedTaskResult R E :=
  match c with
  | Task.Returns r => Task.ReturnValue r
  | Task.Throws Task.TaskCancellation => Task.Cancellation
  | Task.Throws e => Task.ExceptionPtr e
  end.

(** [TaskSchedulerBase::wait]: the test of its loop, [while (!completed)];
    the call returns once this is true. *)
Definition TaskSchedulerBase_wait_returns (sys : System R Args E) : bool :=
  TaskQueue.completed (scheduler sys).

(** [SyncedWorker::wait] for worker [i]: [scheduler->wait()], then the
    loop [while (currentState != State::TERMINATE)]. *)
Definition SyncedWorker_wait_returns (i : nat) (sys : System R Args E)
  : bool :=
  TaskSchedulerBase_wait_returns sys
  && match threads sys !! i with
     | Some (w, _) => bool_decide (Worker.currentState w = Worker.TERMINATE)
     | None => false
     end.

(** The steps of worker [i]'s own thread. *)
Definition own (i : nat) (l : Label) : bool :=
  match l with
  | l_start j | l_runLoop j | l_wake j | l_iter j | l_launch j _ | l_rest j =>
      bool_decide (j = i)
  | _ => false
  end.

(** Worker [i] has left the scheduler for good or for a wait: its thread
    has finished [start], or sits in [waitVariable.wait]. *)
Definition at_rest (i : nat) (sys : System R Args E) : Prop :=
  ∃ w, (threads sys !! i = Some (w, terminated)
        ∧ Worker.getState w = Worker.TERMINATE)
       ∨ (threads sys !! i = Some (w, waiting)
          ∧ Worker.getState w = Worker.WAIT
          ∧ Worker.getRequestedState w = Worker.WAIT).

(** One round of the loop of [startScheduledWork] by thread [i] on the
    task with future [fut]. *)
Definition round (i fut : nat) : list Label :=
  [l_iter i; l_launch i fut; l_rest i].

(** Thread [i] alone running the tasks with the futures [futs], one round
    each. *)
Definition rounds (i : nat) (futs : list nat) : list Label :=
  futs ≫= round i.

End More.
End More.

Module Example2.

Import Task TaskQueue System Example.

(** The steps of [run] after the first task has returned. *)
Definition rest_of_run : list Label :=
  [ l_rest 0; l_iter 0; l_launch 0 1; l_rest 0 ].

(** The program of [run] once the worker has entered
    [startScheduledWork]: the queue is closed with both tasks in it. *)
Definition ready_to_drain : System nat nat nat :=
  {| store := two_promises;
     scheduler := {| completed := false;
                     queue := [mkTask (Some task0); mkTask (Some task1)];
                     queueActive := false; working := 0 |};
     frontend := true;
     threads := [(Worker.mkWorker Worker.WORK Worker.WORK, in_scheduler)] |}.



(** The same program before its last step, and when the worker that has
    ended is asked to wait. *)
Definition before_end : System nat nat nat :=
  set_thread 0 (Worker.mkWorker Worker.WAIT Worker.WORK, at_top)
    after_wait_and_work.

Definition asked_to_wait_after_end : System nat nat nat :=
  set_thread 0 (Worker.mkWorker Worker.TERMINATE Worker.WAIT, terminated)
    after_wait_and_work.

(** The program of [wait_and_work] when the worker, blocked in the
    scheduler, has been asked to wait. *)
Definition asked_to_wait : System nat nat nat :=
  {| store := ∅; scheduler := TaskQueue.init; frontend := true;
     threads := [(Worker.mkWorker Worker.WORK Worker.WAIT, blocked)] |}.

(** The program that calls [cancel()] when the worker has parked. *)
Definition parked_cancelled : System nat nat nat :=
  {| store := <[0 := Some Cancellation]> ∅;
     scheduler := {| completed := false; queue := [];
                     queueActive := true; working := 0 |};
     frontend := true;
     threads := [(Worker.mkWorker Worker.WAIT Worker.WAIT, waiting)] |}.

(** The same program when it has closed the queue as well: the scheduler
    is completed and the worker still parked. *)
Definition parked_completed : System nat nat nat :=
  {| store := <[0 := Some Cancellation]> ∅;
     scheduler := {| completed := true; queue := [];
                     queueActive := false; working := 0 |};
     frontend := true;
     threads := [(Worker.mkWorker Worker.WAIT Worker.WAIT, waiting)] |}.

(** The steps to that state. *)
Definition park_and_complete : list Label :=
  take 8 wait_and_work ++ [l_cancel; l_close].

(** Messages of user exceptions: the number 7 stands for a
    [std::runtime_error("boom")], every other number for an object that is
    not a [std::exception]. *)
Definition what (u : nat) : option string :=
  if bool_decide (u = 7) then Some "boom"%string else None.

End Example2.

(** * Properties *)

(** ** The worker's requested state *)

Section WorkerFacts.
Import Worker.

(** C1.  The request that the claim says is rejected is carried out: with
    the requested state at TERMINATE, [requestState] given WORK (or WAIT)
    passes its assertion in a debug build as in a release build, returns
    normally, wakes nobody, and leaves the requested state at WORK
    (or WAIT), no longer TERMINATE. *)
Theorem requestState_leaves_TERMINATE (debug : bool) (cur : State) :
  requestState debug (mkWorker cur TERMINATE) WORK
    = Ret (mkWorker cur WORK, [])
  ∧ requestState debug (mkWorker cur TERMINATE) WAIT
    = Ret (mkWorker cur WAIT, []).
Proof. by destruct debug. Qed.

(** The same assertion stops a debug build on the request it should
    allow: asking a working or waiting worker to terminate. *)
Lemma requestState_TERMINATE_asserts (cur req : State) :
  req ≠ TERMINATE →
  requestState true (mkWorker cur req) TERMINATE = Abort AssertionFailed.
Proof. by destruct req. Qed.

(** In a release build every request is carried out. *)
Lemma requestState_release (w : SyncedWorker) (state : State) :
  ∃ ev, requestState false w state
        = Ret (mkWorker (currentState w) state, ev).
Proof.
  destruct w as [cur req]; destruct req, state; eexists; reflexivity.
Qed.

(** C2, as amended.  A request that leaves WAIT and passes the assertion
    stores the new requested state and notifies the worker's own
    condition variable, and nothing else: the scheduler is not called. *)
Theorem requestState_leaving_WAIT (debug : bool) (w : SyncedWorker)
    (state : State) :
  requestedState w = WAIT →
  state ≠ WAIT →
  debug = false ∨ state ≠ TERMINATE →
  requestState debug w state
    = Ret (mkWorker (currentState w) state, [notify_all waitVariable]).
Proof.
  destruct w as [cur req]; simpl; intros -> Hne Hok.
  destruct state; try done.
  - destruct Hok as [-> | ?]; done.
  - by destruct debug.
Qed.

Lemma requestState_leaving_WAIT_witness :
  requestState true (mkWorker WAIT WAIT) WORK
    = Ret (mkWorker WAIT WORK, [notify_all waitVariable]).
Proof.
  apply (requestState_leaving_WAIT true (mkWorker WAIT WAIT) WORK);
    [reflexivity | discriminate | right; discriminate].
Defined.

(** C2, as stated, fails: the notifications of a request that takes a
    waiting worker to WORK do not include what
    [checkWaitingPredicates] does. *)
Lemma requestState_leaving_WAIT_counterexample :
  requestState false (mkWorker WAIT WAIT) WORK
    = Ret (mkWorker WAIT WORK, [notify_all waitVariable])
  ∧ ¬ (TaskQueue.checkWaitingPredicates ⊆ [notify_all waitVariable]).
Proof.
  split; [reflexivity |].
  intros Hsub.
  assert (Hin : notify_all impl_variable ∈ [notify_all waitVariable])
    by (apply Hsub; left).
  by apply list_elem_of_singleton in Hin.
Qed.

(** A request for the state already requested changes nothing and wakes
    nobody. *)
Lemma requestState_same (w : SyncedWorker) :
  requestState false w (requestedState w) = Ret (w, []).
Proof. by destruct w as [cur []]. Qed.

(** A request that takes a working worker to WAIT (or, in a release
    build, to TERMINATE) notifies nobody at all. *)
Lemma requestState_leaving_WORK (cur : State) :
  requestState true (mkWorker cur WORK) WAIT = Ret (mkWorker cur WAIT, [])
  ∧ requestState false (mkWorker cur WORK) TERMINATE
    = Ret (mkWorker cur TERMINATE, []).
Proof. done. Qed.

(** C10.  The predicate a worker gives to [startScheduledWork] does not
    look at its argument; it is true exactly when the requested state is
    WORK. *)
Theorem predicate_ignores_workAvailable (w : SyncedWorker) (b : bool) :
  predicate w b = predicate w (negb b)
  ∧ (predicate w b = true ↔ requestedState w = WORK).
Proof.
  split; [reflexivity |]. unfold predicate. apply bool_decide_eq_true.
Qed.

End WorkerFacts.

(** ** Tasks and their futures *)

Section TaskFacts.
Import Task.
Context {R Args E : Type}.
Implicit Types (t : PackagedTask R Args E) (task : Task R Args E)
  (st : Store R E).

Lemma set_value_empty st p (v : TypedTaskResult R E) :
  st !! p = Some None → set_value st p v = inl (<[p := Some v]> st).
Proof. unfold set_value. by intros ->. Qed.

Lemma future_get_insert st p (v : TypedTaskResult R E) :
  future_get (<[p := Some v]> st) p = Some v.
Proof. unfold future_get. by rewrite lookup_insert_eq. Qed.

Lemma create_untouched (f : Args → Call R E) a st :
  ∃ t, create f a st = (mkTask (Some t), promise t, <[promise t := None]> st)
       ∧ st !! promise t = None
       ∧ untouched t (<[promise t := None]> st).
Proof.
  exists (mkPackagedTask (fresh (dom st)) f a false false).
  split; [reflexivity |]. simpl.
  assert (st !! fresh (dom st) = None) as Hfresh
    by (apply not_elem_of_dom, is_fresh).
  split; [done |]. repeat split. apply lookup_insert_eq.
Qed.

Lemma launch_untouched debug t st :
  started t = false → st !! promise t = Some None →
  ∃ v, launch debug t st
       = Ret (let t' := set_started t in if debug then set_ended t' else t',
              <[promise t := Some v]> st)
     ∧ match function t (args t) with
       | Returns r => v = ReturnValue r
       | Throws TaskCancellation => v = Cancellation
       | Throws e => v = ExceptionPtr e
       end.
Proof.
  intros Hs Hp. unfold launch. rewrite Hs. simpl.
  replace (assert debug true) with (Ret (A := unit) tt)
    by (by destruct debug).
  simpl. destruct (function t (args t)) as [r | [| | e]];
    rewrite !(set_value_empty _ _ _ Hp); eauto.
Qed.

Lemma cancel_untouched t st :
  started t = false → st !! promise t = Some None →
  cancel t st = Ret (set_started t, <[promise t := Some Cancellation]> st).
Proof.
  intros Hs Hp. unfold cancel. rewrite Hs. simpl.
  by rewrite (set_value_empty _ _ _ Hp).
Qed.

Lemma cancel_started t st : started t = true → cancel t st = Ret (t, st).
Proof. unfold cancel. by intros ->. Qed.

Lemma destroy_untouched debug task t st :
  base task = Some t → untouched t st →
  destroy debug task st = Ret (<[promise t := Some Cancellation]> st).
Proof.
  intros Hb (Hs & He & Hp). unfold destroy. rewrite Hb.
  rewrite (cancel_untouched _ _ Hs Hp).
  destruct debug; [| done].
  unfold assertInactive. by rewrite Hs, He.
Qed.

(** No operation on a task removes a shared state. *)
Lemma set_value_dom st p (v : TypedTaskResult R E) st' :
  set_value st p v = inl st' → dom st ⊆ dom st'.
Proof.
  unfold set_value. destruct (st !! p) as [[v0 |] |]; try done.
  intros [= <-]. apply dom_insert_subseteq.
Qed.

Lemma cancel_dom t st t' st' :
  cancel t st = Ret (t', st') → dom st ⊆ dom st'.
Proof.
  unfold cancel. destruct (started t); simpl.
  - by intros [= _ <-].
  - destruct (set_value _ _ _) eqn:Hsv; [| done].
    intros [= _ <-]. by eapply set_value_dom.
Qed.

Lemma destroy_dom debug task st st' :
  destroy debug task st = Ret st' → dom st ⊆ dom st'.
Proof.
  unfold destroy. destruct (base task) as [t |]; [| by intros [= <-]].
  destruct (if debug then _ else _); [| done]. simpl.
  destruct (cancel t st) as [[t' st1] |] eqn:Hc; [| done]. simpl.
  intros [= <-]. by eapply cancel_dom.
Qed.

Lemma destroy_all_dom debug (ts : list (Task R Args E)) st st' :
  destroy_all debug ts st = Ret st' → dom st ⊆ dom st'.
Proof.
  revert st. induction ts as [| task ts IH]; intros st; simpl.
  - by intros [= <-].
  - destruct (destroy debug task st) as [st1 |] eqn:Hd; [| done]. simpl.
    intros Hrest. etrans; [by eapply destroy_dom | by apply IH].
Qed.

Lemma launch_Ret debug t st t' st' :
  launch debug t st = Ret (t', st') →
  ∃ v, set_value st (promise t) v = inl st'.
Proof.
  unfold launch. destruct (assert debug _); [| done]. simpl.
  repeat case_match; intros Heq; simplify_eq; eauto.
Qed.

Lemma call_dom debug task st task' st' :
  call debug task st = Ret (task', st') → dom st ⊆ dom st'.
Proof.
  unfold call. destruct (base task) as [t |]; [| done].
  destruct (launch debug t st) as [[t1 st1] |] eqn:Hl; [| done].
  simpl. intros [= _ <-].
  apply launch_Ret in Hl as [v Hv]. by eapply set_value_dom.
Qed.

Lemma getFuture_Ret debug task fut :
  getFuture debug task = Ret fut →
  ∃ t, base task = Some t ∧ fut = promise t.
Proof.
  unfold getFuture. destruct (base task) as [t |]; [| done].
  intros [= <-]. eauto.
Qed.

Lemma call_untouched debug task t st :
  base task = Some t → started t = false → st !! promise t = Some None →
  ∃ t' v, call debug task st
          = Ret (mkTask (Some t'), <[promise t := Some v]> st).
Proof.
  intros Hb Hs Hp.
  destruct (launch_untouched debug t st Hs Hp) as (v & Hl & _).
  eexists _, v. unfold call. by rewrite Hb, Hl.
Qed.

(** C5.  Launching a task that is not moved from and not started returns
    normally, with [started] set and exactly one value put in the
    promise's shared state: the returned value, the cancellation when
    the callable threw [TaskCancellation], the exception otherwise. *)
Theorem launch_publishes_outcome debug task t st :
  base task = Some t →
  started t = false →
  st !! promise t = Some None →
  ∃ t' v,
    call debug task st = Ret (mkTask (Some t'), <[promise t := Some v]> st)
    ∧ started t' = true
    ∧ promise t' = promise t
    ∧ future_get (<[promise t := Some v]> st) (promise t) = Some v
    ∧ match function t (args t) with
      | Returns r => v = ReturnValue r
      | Throws TaskCancellation => v = Cancellation
      | Throws e => v = ExceptionPtr e
      end.
Proof.
  intros Hb Hs Hp.
  destruct (launch_untouched debug t st Hs Hp) as (v & Hl & Hv).
  eexists _, v. unfold call. rewrite Hb, Hl. simpl.
  split; [reflexivity |].
  split; [by destruct debug |].
  split; [by destruct debug |].
  split; [apply future_get_insert | done].
Qed.

(** C6.  [cancel] on a task that is not started sets [started] and puts
    the cancellation in the promise's shared state; on a started task it
    changes nothing; destroying a task that is not started puts the
    cancellation there as well. *)
Theorem cancel_before_and_after_start debug task t st :
  base task = Some t →
  (untouched t st →
     cancel t st = Ret (set_started t, <[promise t := Some Cancellation]> st)
     ∧ started (set_started t) = true
     ∧ future_get (<[promise t := Some Cancellation]> st) (promise t)
       = Some Cancellation)
  ∧ (started t = true → cancel t st = Ret (t, st))
  ∧ (untouched t st →
     ∃ st', destroy debug task st = Ret st'
            ∧ future_get st' (promise t) = Some Cancellation).
Proof.
  intros Hb. split; [| split].
  - intros (Hs & He & Hp). split; [by apply cancel_untouched |].
    split; [done | apply future_get_insert].
  - apply cancel_started.
  - intros Hu. eexists. split; [by eapply destroy_untouched |].
    apply future_get_insert.
Qed.

End TaskFacts.

(** ** The operations of the TaskQueue *)

Section TaskQueueFacts.
Import Task TaskQueue.
Context {R Args E : Type}.
Implicit Types (t : PackagedTask R Args E) (task : Task R Args E)
  (st : Store R E) (s : Scheduler R Args E).

Lemma pending_insert_ne task st p (v : option (TypedTaskResult R E)) :
  pending task st → p ∉ promises [task] → pending task (<[p := v]> st).
Proof.
  intros (t & Hb & Hs & He & Hp) Hnot. exists t. split; [done |].
  repeat split; try done. rewrite lookup_insert_ne; [done |].
  intros ->. apply Hnot. unfold promises. simpl. rewrite Hb. simpl. by left.
Qed.

Lemma promises_cons task (ts : list (Task R Args E)) :
  promises (task :: ts) = promises [task] ++ promises ts.
Proof. unfold promises. simpl. by destruct (promise <$> base task). Qed.

Lemma promises_app (ts1 ts2 : list (Task R Args E)) :
  promises (ts1 ++ ts2) = promises ts1 ++ promises ts2.
Proof. apply omap_app. Qed.

Lemma promises_pending task t :
  base task = Some t → promises [task] = [promise t].
Proof. unfold promises. simpl. by intros ->. Qed.

Lemma promises_elem task t (ts : list (Task R Args E)) :
  task ∈ ts → base task = Some t → promise t ∈ promises ts.
Proof.
  intros Hel Hb. unfold promises. apply list_elem_of_omap.
  exists task. split; [done |]. by rewrite Hb.
Qed.

Lemma all_pending_tail task t (ts : list (Task R Args E)) st v :
  base task = Some t →
  all_pending (task :: ts) st →
  (promise t ∉ promises ts) ∧ all_pending ts (<[promise t := v]> st).
Proof.
  intros Hb [Hall Hnd].
  rewrite promises_cons, (promises_pending _ _ Hb) in Hnd.
  simpl in Hnd.
  pose proof (NoDup_cons_1_1 _ _ Hnd) as Hnotin.
  apply NoDup_cons_1_2 in Hnd.
  split; [done |]. split; [| done].
  apply Forall_cons in Hall as [_ Hall].
  rewrite Forall_forall in Hall. apply Forall_forall.
  intros task' Hel. apply pending_insert_ne; [by apply Hall |].
  destruct (Hall _ Hel) as (t' & Hb' & _).
  rewrite (promises_pending _ _ Hb'). intros Heq.
  apply list_elem_of_singleton in Heq.
  apply Hnotin. rewrite Heq. by apply (promises_elem task').
Qed.

(** Destroying a container of waiting tasks: every promise in it gets
    the cancellation, nothing else changes. *)
Lemma destroy_all_pending debug (ts : list (Task R Args E)) st :
  all_pending ts st →
  ∃ st', destroy_all debug ts st = Ret st'
         ∧ (∀ p, p ∈ promises ts → st' !! p = Some (Some Cancellation))
         ∧ (∀ p, p ∉ promises ts → st' !! p = st !! p).
Proof.
  revert st. induction ts as [| task ts IH]; intros st Hok.
  - exists st. split; [done |]. split; [| done].
    intros p Hp. by apply elem_of_nil in Hp.
  - pose proof Hok as [Hall _].
    apply Forall_cons in Hall as [(t & Hb & Hu) _].
    destruct (all_pending_tail _ _ _ _ (Some Cancellation) Hb Hok)
      as [Hnotin Hok'].
    destruct (IH _ Hok') as (st' & Hd & Hin & Hout).
    exists st'. split.
    { simpl. by rewrite (destroy_untouched _ _ _ _ Hb Hu). }
    rewrite promises_cons, (promises_pending _ _ Hb). simpl.
    split; intros p Hp.
    + destruct (decide (p ∈ promises ts)) as [Hel | Hnel]; [by apply Hin |].
      apply elem_of_cons in Hp as [-> | Hp]; [| done].
      rewrite (Hout _ Hnel). apply lookup_insert_eq.
    + apply not_elem_of_cons in Hp as [Hne Hp].
      rewrite (Hout _ Hp). by apply lookup_insert_ne.
Qed.

Lemma checkCompleted_spec s :
  checkCompleted s
  = if bool_decide (working s = 0%N) && empty (queue s)
       && negb (queueActive s)
    then (set_completed true s, [notify_all base_variable;
                                 notify_all impl_variable])
    else (s, []).
Proof. unfold checkCompleted. by case_match. Qed.

Lemma checkCompleted_fields s :
  queue (checkCompleted s).1 = queue s
  ∧ queueActive (checkCompleted s).1 = queueActive s
  ∧ working (checkCompleted s).1 = working s.
Proof. rewrite checkCompleted_spec. by case_match. Qed.

Lemma checkCompleted_working s :
  working (checkCompleted s).1 = working s.
Proof. apply checkCompleted_fields. Qed.

Lemma checkCompleted_queueActive s :
  queueActive (checkCompleted s).1 = queueActive s.
Proof. apply checkCompleted_fields. Qed.

Lemma checkCompleted_completed s :
  completed s = true → completed (checkCompleted s).1 = true.
Proof. rewrite checkCompleted_spec. by case_match. Qed.

Lemma checkCompleted_drained s :
  drained s →
  checkCompleted s
  = (set_completed true s,
     [notify_all base_variable; notify_all impl_variable]).
Proof.
  intros (Ha & Hq & Hw). rewrite checkCompleted_spec, Ha, Hq, Hw. done.
Qed.

Lemma checkCompleted_not_drained s :
  ¬ drained s → checkCompleted s = (s, []).
Proof.
  intros Hn. rewrite checkCompleted_spec.
  destruct s as [c [| task q] [] w]; simpl in *; try done;
    try by rewrite andb_false_r.
  case_bool_decide as Hw; [| done].
  exfalso. apply Hn. by repeat split.
Qed.

Lemma drained_dec s : drained s ∨ ¬ drained s.
Proof.
  unfold drained. destruct s as [c [| task q] [] w]; simpl;
    try (right; by intros (? & ? & ?)).
  destruct (decide (w = 0%N)) as [-> | Hne]; [by left | right].
  by intros (_ & _ & ?).
Qed.

(** After [checkCompleted], [completed] says exactly whether the
    scheduler is drained, provided it did not say so wrongly before. *)
Lemma checkCompleted_latch s :
  (completed s = true → drained s) →
  completed (checkCompleted s).1 = true ↔ drained (checkCompleted s).1.
Proof.
  intros Hc. destruct (drained_dec s) as [Hd | Hn].
  - rewrite (checkCompleted_drained _ Hd). simpl. split; [| done].
    intros _. apply Hd.
  - rewrite (checkCompleted_not_drained _ Hn). simpl. split; [done |].
    intros Hd. by destruct Hn.
Qed.

Lemma unsigned_incr_small (k : N) :
  (k + 1 < 2 ^ UINT_WIDTH)%N → unsigned_incr k = (k + 1)%N.
Proof. intros H. unfold unsigned_incr. by apply N.mod_small. Qed.

Lemma unsigned_decr_small (k : N) :
  (0 < k < 2 ^ UINT_WIDTH)%N → unsigned_decr k = (k - 1)%N.
Proof.
  intros H. unfold unsigned_decr.
  replace (k + 2 ^ UINT_WIDTH - 1)%N
    with ((k - 1) + 1 * 2 ^ UINT_WIDTH)%N by lia.
  rewrite N.Div0.mod_add. apply N.mod_small. lia.
Qed.

Lemma startScheduledWork_iter_cases (predicate : bool → bool) s :
  (startScheduledWork_iter predicate s = Some Break
   ∧ (completed s = true ∨ predicate (negb (empty (queue s))) = false))
  ∨ (startScheduledWork_iter predicate s = Some Block
     ∧ completed s = false ∧ queue s = [])
  ∨ (∃ task rest,
       startScheduledWork_iter predicate s
       = Some (RunTask task
                 (set_queue rest
                    (set_working (unsigned_incr (working s)) s)))
       ∧ completed s = false ∧ queue s = task :: rest
       ∧ predicate true = true).
Proof.
  unfold startScheduledWork_iter, isCompleted, front_pop.
  destruct s as [[] [| task q] a w]; simpl; try (left; by eauto).
  - destruct (predicate false); simpl; [right; left | left]; by eauto.
  - destruct (predicate true) eqn:Hp; simpl; [right; right | left];
      by eauto 10.
Qed.

Lemma destroy_started debug task t st :
  base task = Some t → started t = true →
  (debug = true → ended t = true) →
  destroy debug task st = Ret st.
Proof.
  intros Hb Hs He. unfold destroy. rewrite Hb.
  rewrite (cancel_started _ _ Hs).
  destruct debug; [| done].
  unfold assertInactive. by rewrite Hs, He.
Qed.

Lemma call_Ret debug task st task' st' :
  call debug task st = Ret (task', st') →
  ∃ t t', base task = Some t ∧ base task' = Some t'
          ∧ promise t' = promise t ∧ started t' = true
          ∧ (debug = true → ended t' = true).
Proof.
  unfold call. destruct (base task) as [t |]; [| done].
  unfold launch. destruct (assert debug _); [| done]. simpl.
  match goal with |- context [match ?h with inl _ => _ | inr _ => _ end] =>
    destruct h; [| done] end.
  simpl. intros [= <- <-]. eexists _, _. split; [done |].
  split; [done |]. by destruct debug.
Qed.

(** With a worker counted in [working], the [checkCompleted] at the end
    of [runNextTask] finds nothing to do. *)
Lemma startScheduledWork_rest_counted debug task t s st :
  base task = Some t → started t = true →
  (debug = true → ended t = true) →
  working s ≠ 0%N →
  startScheduledWork_rest debug task s st
  = Ret ((checkCompleted (set_working (unsigned_decr (working s)) s)).1,
         st,
         (checkCompleted (set_working (unsigned_decr (working s)) s)).2).
Proof.
  intros Hb Hs He Hw. unfold startScheduledWork_rest, runNextTask_rest.
  rewrite (checkCompleted_not_drained s) by (by intros (_ & _ & ?)).
  rewrite (destroy_started _ _ _ _ Hb Hs He). simpl.
  by destruct (checkCompleted _).
Qed.

Lemma addTask_open debug s task st :
  queueActive s = true →
  addTask debug s task st
  = Ret (set_queue (queue s ++ [task]) s, st, [notify_one impl_variable]).
Proof. unfold addTask. by intros ->. Qed.

Lemma addTask_closed debug s task t st :
  queueActive s = false → base task = Some t → untouched t st →
  addTask debug s task st
  = Ret (s, <[promise t := Some Cancellation]> st, []).
Proof.
  intros Hq Hb Hu. unfold addTask. rewrite Hq.
  by rewrite (destroy_untouched _ _ _ _ Hb Hu).
Qed.

Lemma cancel_pending_returns debug s st :
  all_pending (queue s) st →
  ∃ s' st' ev, cancel debug s st = Ret (s', st', ev).
Proof.
  intros Hok.
  destruct (destroy_all_pending debug _ _ Hok) as (st' & Hd & _).
  unfold cancel. rewrite Hd. simpl. destruct (checkCompleted _). eauto.
Qed.

(** C8, as amended.  [cancel] empties the queue, the future of every
    task that waited in it gets the cancellation, the open flag keeps its
    value; completion is set, and the two condition variables of the
    scheduler notified, exactly when the queue is closed and no worker
    is running a task; on an open queue nothing is notified and
    [completed] keeps its value. *)
Theorem cancel_clears_queue debug s st :
  all_pending (queue s) st →
  ∃ s' st' ev,
    cancel debug s st = Ret (s', st', ev)
    ∧ queue s' = []
    ∧ queueActive s' = queueActive s
    ∧ working s' = working s
    ∧ (∀ p, p ∈ promises (queue s) → future_get st' p = Some Cancellation)
    ∧ (∀ p, p ∉ promises (queue s) → st' !! p = st !! p)
    ∧ (if negb (queueActive s) && bool_decide (working s = 0%N)
       then completed s' = true
            ∧ ev = [notify_all base_variable; notify_all impl_variable]
       else completed s' = completed s ∧ ev = [])
    ∧ (queueActive s = true → completed s' = completed s ∧ ev = []).
Proof.
  intros Hok.
  destruct (destroy_all_pending debug _ _ Hok) as (st' & Hd & Hin & Hout).
  unfold cancel. rewrite Hd. simpl. rewrite checkCompleted_spec. simpl.
  destruct s as [c q a w]; simpl in *.
  destruct a, (bool_decide (w = 0%N)); simpl;
    eexists _, st', _; (split; [reflexivity |]); simpl;
    repeat split; try done;
    intros p Hp; unfold future_get; by rewrite (Hin p Hp).
Qed.

End TaskQueueFacts.

(** ** Executions of the program *)

Section SystemFacts.
Import Task TaskQueue System.
Context {R Args E : Type}.
Implicit Types (sys : System R Args E) (pc : PC R Args E)
  (ths : list (Worker.SyncedWorker * PC R Args E))
  (t : PackagedTask R Args E) (task : Task R Args E) (st : Store R E).

Lemma exec_app debug sys tr1 sys' tr2 sys'' :
  exec debug sys tr1 sys' → exec debug sys' tr2 sys'' →
  exec debug sys (tr1 ++ tr2) sys''.
Proof.
  intros H1 H2. induction H2 as [| ? ? ? ? ? _ IH Hstep].
  - by rewrite app_nil_r.
  - rewrite app_assoc. eapply exec_snoc; [by apply IH | done].
Qed.

Lemma exec_snoc_inv debug sys tr l sys'' :
  exec debug sys (tr ++ [l]) sys'' →
  ∃ sys', exec debug sys tr sys' ∧ step debug sys' l sys''.
Proof.
  intros H. remember (tr ++ [l]) as tr' eqn:Htr.
  destruct H as [| ? tr0 sys' l0 ? Hex Hstep].
  - by destruct tr.
  - apply app_inj_tail in Htr as [-> ->]. eauto.
Qed.

Lemma exec_split debug sys tr1 l tr2 sys'' :
  exec debug sys (tr1 ++ l :: tr2) sys'' →
  ∃ sys1 sys2, exec debug sys tr1 sys1 ∧ step debug sys1 l sys2
               ∧ exec debug sys2 tr2 sys''.
Proof.
  revert sys''. induction tr2 as [| l2 tr2 IH] using rev_ind; intros sys'' H.
  - apply exec_snoc_inv in H as (sys' & Hex & Hstep).
    eexists _, _. split; [done |]. split; [done | constructor].
  - replace (tr1 ++ l :: tr2 ++ [l2]) with ((tr1 ++ l :: tr2) ++ [l2])
      in H by (by rewrite <- app_assoc).
    apply exec_snoc_inv in H as (sys' & Hex & Hstep).
    destruct (IH _ Hex) as (sys1 & sys2 & H1 & H2 & H3).
    eexists _, _. split; [done |]. split; [done |].
    by eapply exec_snoc.
Qed.

Lemma count_running_le ths : count_running ths ≤ length ths.
Proof.
  induction ths as [| [w pc] ths IH]; simpl; [lia |].
  destruct (running pc); lia.
Qed.

Lemma count_running_insert ths i w pc w' pc' :
  ths !! i = Some (w, pc) →
  count_running (<[i := (w', pc')]> ths) + (if running pc then 1 else 0)
  = count_running ths + (if running pc' then 1 else 0).
Proof.
  revert i.
  induction ths as [| th ths IH]; intros [| i] Hl; simpl in *; try done.
  - injection Hl as ->. simpl. lia.
  - specialize (IH _ Hl). lia.
Qed.

Lemma count_running_idle ths i w pc :
  ths !! i = Some (w, pc) → running pc = false →
  count_running ths < length ths.
Proof.
  revert i.
  induction ths as [| [w0 pc0] ths IH]; intros [| i] Hl Hr;
    simpl in *; try done.
  - injection Hl as -> ->. rewrite Hr.
    pose proof (count_running_le ths). lia.
  - specialize (IH _ Hl Hr). destruct (running pc0); lia.
Qed.

Lemma count_running_busy ths i w pc :
  ths !! i = Some (w, pc) → running pc = true → 0 < count_running ths.
Proof.
  revert i.
  induction ths as [| [w0 pc0] ths IH]; intros [| i] Hl Hr;
    simpl in *; try done.
  - injection Hl as -> ->. rewrite Hr. lia.
  - specialize (IH _ Hl Hr). lia.
Qed.

Lemma Inv_init debug n : Inv debug n (init (R := R) (Args := Args) (E := E) n).
Proof.
  split; simpl.
  - apply length_replicate.
  - induction n as [| n IH]; [done | by simpl].
  - split; [done | by intros (? & _)].
  - intros i w task Hl. apply lookup_replicate in Hl as [? _]. done.
Qed.

(** A step that leaves the scheduler alone and moves one thread without
    taking it into or out of the counted part of [startScheduledWork]. *)
Lemma Inv_set_thread debug n sys i w pc w' pc' st :
  Inv debug n sys →
  threads sys !! i = Some (w, pc) →
  running pc' = running pc →
  (∀ task, pc' = executed task →
     ∃ t, base task = Some t ∧ started t = true
          ∧ (debug = true → ended t = true)) →
  Inv debug n {| store := st; scheduler := scheduler sys;
                 frontend := frontend sys;
                 threads := <[i := (w', pc')]> (threads sys) |}.
Proof.
  intros [Hlen Hw Hc Hex] Hl Hr Hpc. split; simpl.
  - by rewrite length_insert.
  - pose proof (count_running_insert _ _ _ _ w' pc' Hl) as Hcnt.
    rewrite Hr in Hcnt. rewrite Hw. f_equal. lia.
  - done.
  - intros j w0 task Hj.
    apply list_lookup_insert_Some in Hj as [(-> & Heq & _) | [_ Hj]].
    + injection Heq as -> ->. by apply Hpc.
    + by eapply Hex.
Qed.

Lemma running_after_block w (nx : Worker.Next) :
  running (R := R) (Args := Args) (E := E) (after_block w nx).2 = false.
Proof. by destruct nx. Qed.

Lemma executed_after_block w (nx : Worker.Next) (task : Task R Args E) :
  (after_block w nx).2 ≠ executed task.
Proof. by destruct nx. Qed.

(** A step on the scheduler alone that keeps [working]. *)
Lemma Inv_set_scheduler debug n sys s' st fe :
  Inv debug n sys →
  working s' = working (scheduler sys) →
  (completed s' = true ↔ drained s') →
  Inv debug n {| store := st; scheduler := s'; frontend := fe;
                 threads := threads sys |}.
Proof. intros [Hlen Hw Hc Hex] Hw' Hc'. split; simpl; congruence || done. Qed.

Lemma step_Inv debug n sys l sys' :
  (N.of_nat n < 2 ^ UINT_WIDTH)%N →
  Inv debug n sys → step debug sys l sys' → Inv debug n sys'.
Proof.
  intros Hn HI Hstep. pose proof HI as [Hlen Hw Hc Hex].
  destruct Hstep as
    [ sys f a s' fut st' ev Hfe Hadd
    | sys Hfe
    | sys s' st' ev Hfe Hcan
    | sys Hfe
    | sys i w pc state w' ev Hl Hreq
    | sys i w Hl
    | sys i w w' nx Hl Hrun
    | sys i w Hl
    | sys i w Hl
    | sys i w it Hl Hit
    | sys i w task fut task' st' Hl Hfut Hcall
    | sys i w task s' st' ev Hl Hrest ].
  - (* addTask *)
    unfold addTask_functor, create, addTask in Hadd. simpl in Hadd.
    destruct (queueActive (scheduler sys)) eqn:Ha; simpl in Hadd.
    + injection Hadd as <- <- <- <-.
      apply Inv_set_scheduler; [done | done |]. simpl.
      split.
      * intros Hcomp. apply Hc in Hcomp as (Ha' & _). congruence.
      * intros (Ha' & _). simpl in Ha'. congruence.
    + destruct (destroy _ _ _) as [st1 |]; [| done]. simpl in Hadd.
      injection Hadd as <- <- <- <-. by apply Inv_set_scheduler.
  - (* close *)
    apply Inv_set_scheduler;
      [done | unfold close; by rewrite checkCompleted_working |].
    apply checkCompleted_latch. simpl. intros Hcomp.
    apply Hc in Hcomp as (_ & ? & ?). by repeat split.
  - (* cancel *)
    unfold cancel in Hcan.
    destruct (destroy_all _ _ _) as [st1 |]; [| done]. simpl in Hcan.
    destruct (checkCompleted _) as [s2 ev2] eqn:Hchk.
    injection Hcan as <- <- <-.
    replace s2 with (checkCompleted (set_queue [] (scheduler sys))).1
      by (by rewrite Hchk).
    apply Inv_set_scheduler; [done | by rewrite checkCompleted_working |].
    apply checkCompleted_latch. simpl. intros Hcomp.
    apply Hc in Hcomp as (? & _ & ?). by repeat split.
  - (* ~TaskQueue *)
    apply Inv_set_scheduler;
      [done | unfold destructor; by rewrite checkCompleted_working |].
    apply checkCompleted_latch. simpl. intros Hcomp.
    apply Hc in Hcomp as (_ & ? & ?). by repeat split.
  - (* requestState *)
    eapply Inv_set_thread; [done .. |].
    intros task ->. by eapply Hex.
  - (* start *)
    by eapply Inv_set_thread.
  - (* runLoop *)
    destruct (after_block w' nx) as [w2 pc2] eqn:Hab.
    eapply Inv_set_thread; [done | done | |].
    + apply (f_equal snd) in Hab. simpl in Hab. rewrite <- Hab.
      apply running_after_block.
    + intros task ->. apply (f_equal snd) in Hab.
      by apply executed_after_block in Hab.
  - (* wake, waiting *)
    destruct (after_block w _) as [w2 pc2] eqn:Hab.
    eapply Inv_set_thread; [done | done | |].
    + apply (f_equal snd) in Hab. simpl in Hab. rewrite <- Hab.
      apply running_after_block.
    + intros task ->. apply (f_equal snd) in Hab.
      by apply executed_after_block in Hab.
  - (* wake, blocked *)
    by eapply Inv_set_thread.
  - (* startScheduledWork, top of the loop *)
    destruct (startScheduledWork_iter_cases (Worker.predicate w)
                (scheduler sys))
      as [[Heq _] | [(Heq & _) | (task & rest & Heq & Hcf & Hq & _)]];
      rewrite Heq in Hit; injection Hit as <-; simpl.
    + by eapply Inv_set_thread.
    + by eapply Inv_set_thread.
    + pose proof (count_running_idle _ _ _ _ Hl eq_refl) as Hidle.
      pose proof (count_running_insert _ _ _ _ w (unlocked task) Hl)
        as Hcnt. simpl in Hcnt.
      assert (unsigned_incr (working (scheduler sys))
              = N.of_nat (count_running
                            (<[i := (w, unlocked task)]> (threads sys))))
        as Hinc.
      { rewrite Hw, unsigned_incr_small by lia. lia. }
      split; simpl.
      * by rewrite length_insert.
      * done.
      * rewrite Hcf. split; [done |]. intros (_ & _ & Hz).
        simpl in Hz. rewrite Hinc in Hz. lia.
      * intros j w0 task0 Hj.
        apply list_lookup_insert_Some in Hj as [(-> & Heq' & _) | [_ Hj]];
          [done | by eapply Hex].
  - (* task() *)
    eapply Inv_set_thread; [done | done | done |].
    intros task0 [= <-].
    apply call_Ret in Hcall as (t & t' & _ & Hb & _ & Hs & He). eauto.
  - (* the rest of the loop body *)
    destruct (Hex _ _ _ Hl) as (t & Hb & Hs & He).
    pose proof (count_running_busy _ _ _ _ Hl eq_refl) as Hbusy.
    pose proof (count_running_le (threads sys)) as Hle.
    pose proof (count_running_insert _ _ _ _ w in_scheduler Hl)
      as Hcnt. simpl in Hcnt.
    rewrite (startScheduledWork_rest_counted _ _ _ _ _ Hb Hs He)
      in Hrest by lia.
    injection Hrest as <- <- <-.
    destruct (checkCompleted_fields
                (set_working (unsigned_decr (working (scheduler sys)))
                   (scheduler sys))) as (_ & _ & Hw').
    simpl in Hw'. rewrite unsigned_decr_small in Hw' by lia.
    split; simpl.
    + by rewrite length_insert.
    + rewrite unsigned_decr_small by lia. rewrite Hw'. lia.
    + rewrite unsigned_decr_small by lia.
      apply checkCompleted_latch. simpl. intros Hcomp.
      apply Hc in Hcomp as (_ & _ & Hz). lia.
    + intros j w0 task0 Hj.
      apply list_lookup_insert_Some in Hj as [(-> & Heq' & _) | [_ Hj]];
        [done | by eapply Hex].
Qed.

Lemma exec_Inv debug n sys tr sys' :
  (N.of_nat n < 2 ^ UINT_WIDTH)%N →
  Inv debug n sys → exec debug sys tr sys' → Inv debug n sys'.
Proof.
  intros Hn HI Hex. induction Hex as [| ? ? ? ? ? _ IH Hstep]; [done |].
  eapply step_Inv; [done | by apply IH | done].
Qed.

Lemma launched_snoc (tr : list Label) l :
  launched (tr ++ [l])
  = launched tr ++ match l with l_launch _ fut => [fut] | _ => [] end.
Proof. unfold launched. rewrite omap_app. by destruct l. Qed.

Lemma submitted_snoc (tr : list Label) l :
  submitted (tr ++ [l])
  = submitted tr ++ match l with l_addTask fut => [fut] | _ => [] end.
Proof. unfold submitted. rewrite omap_app. by destruct l. Qed.

(** Once [completed] is set, a step keeps it set and is not the call of
    a task. *)
Lemma step_completed debug n sys l sys' :
  Inv debug n sys →
  completed (scheduler sys) = true →
  step debug sys l sys' →
  completed (scheduler sys') = true
  ∧ match l with l_launch _ _ => False | _ => True end.
Proof.
  intros [Hlen Hw Hc Hex] Hcomp Hstep.
  pose proof (proj1 Hc Hcomp) as (Ha & Hq & Hz).
  destruct Hstep as
    [ sys f a s' fut st' ev Hfe Hadd
    | sys Hfe
    | sys s' st' ev Hfe Hcan
    | sys Hfe
    | sys i w pc state w' ev Hl Hreq
    | sys i w Hl
    | sys i w w' nx Hl Hrun
    | sys i w Hl
    | sys i w Hl
    | sys i w it Hl Hit
    | sys i w task fut task' st' Hl Hfut Hcall
    | sys i w task s' st' ev Hl Hrest ]; simpl; try done.
  - unfold addTask_functor, create, addTask in Hadd. simpl in Hadd.
    rewrite Ha in Hadd.
    destruct (destroy _ _ _) as [st1 |]; [| done]. simpl in Hadd.
    by injection Hadd as <- <- <- <-.
  - split; [| done]. by apply checkCompleted_completed.
  - unfold cancel in Hcan.
    destruct (destroy_all _ _ _) as [st1 |]; [| done]. simpl in Hcan.
    destruct (checkCompleted _) as [s2 ev2] eqn:Hchk.
    injection Hcan as <- <- <-. split; [| done].
    replace s2 with (checkCompleted (set_queue [] (scheduler sys))).1
      by (by rewrite Hchk).
    by apply checkCompleted_completed.
  - split; [| done]. by apply checkCompleted_completed.
  - destruct (startScheduledWork_iter_cases (Worker.predicate w)
                (scheduler sys))
      as [[Heq _] | [(Heq & Hcf & _) | (task & rest & Heq & Hcf & _)]];
      [| congruence ..].
    rewrite Heq in Hit. by injection Hit as <-.
  - pose proof (count_running_busy _ _ _ _ Hl eq_refl). lia.
  - pose proof (count_running_busy _ _ _ _ Hl eq_refl). lia.
Qed.

(** C3.  In every state of a program with fewer than 2^32 workers,
    [completed] is set exactly when the queue is closed and empty and
    [working] is zero; once it is set it stays set through every further
    execution, and no task is called in any of them. *)
Theorem completed_iff_drained_and_latched debug n tr sys :
  (N.of_nat n < 2 ^ UINT_WIDTH)%N →
  exec debug (init n) tr sys →
  (completed (scheduler sys) = true
   ↔ queueActive (scheduler sys) = false
     ∧ queue (scheduler sys) = []
     ∧ working (scheduler sys) = 0%N)
  ∧ (completed (scheduler sys) = true →
     ∀ tr' sys', exec debug sys tr' sys' →
       completed (scheduler sys') = true ∧ launched tr' = []).
Proof.
  intros Hn Hex.
  pose proof (exec_Inv _ _ _ _ _ Hn (Inv_init debug n) Hex) as HI.
  split; [apply HI |].
  intros Hcomp tr' sys' Hex'.
  induction Hex' as [| sys tr' sys' l sys'' Hex' IH Hstep]; [done |].
  destruct (IH Hex HI Hcomp) as [Hcomp' Hl].
  pose proof (exec_Inv _ _ _ _ _ Hn HI Hex') as HI'.
  destruct (step_completed _ _ _ _ _ HI' Hcomp' Hstep) as [Hcomp'' Hlab].
  split; [done |].
  rewrite launched_snoc, Hl. by destruct l.
Qed.

Lemma evaluate_completion_checkCompleted (s : Scheduler R Args E) :
  Protocol.evaluate_completion s = checkCompleted s.
Proof.
  rewrite checkCompleted_spec. unfold Protocol.evaluate_completion.
  by destruct (queueActive s), (empty (queue s)),
    (bool_decide (working s = 0%N)).
Qed.

Lemma startScheduledWork_iter_protocol (predicate : bool → bool)
    (s : Scheduler R Args E) :
  (working s + 1 < 2 ^ UINT_WIDTH)%N →
  startScheduledWork_iter predicate s
  = Some (Protocol.iteration predicate s).
Proof.
  intros Hw.
  unfold startScheduledWork_iter, Protocol.iteration, isCompleted, front_pop.
  rewrite (unsigned_incr_small _ Hw).
  destruct s as [[] [| task q] a w]; simpl; try done.
  - by destruct (predicate false).
  - by destruct (predicate true).
Qed.

(** A worker asked to work takes the task at the front of the queue of a
    scheduler that is not completed. *)
Lemma working_worker_takes_front (w : Worker.SyncedWorker)
    (s : Scheduler R Args E) task rest :
  Worker.requestedState w = Worker.WORK →
  completed s = false →
  queue s = task :: rest →
  startScheduledWork_iter (Worker.predicate w) s
  = Some (RunTask task
            (set_queue rest (set_working (unsigned_incr (working s)) s))).
Proof.
  intros Hw Hc Hq.
  destruct (startScheduledWork_iter_cases (Worker.predicate w) s)
    as [[_ [Hc' | Hp]] | [(_ & _ & Hq') | (task' & rest' & Heq & _ & Hq' & _)]].
  - congruence.
  - unfold Worker.predicate in Hp. rewrite Hw in Hp. done.
  - congruence.
  - rewrite Heq. congruence.
Qed.

(** *** Order of submission and order of execution *)

Lemma before_sublist x y (l1 l2 : list nat) :
  sublist l1 l2 → before x y l1 → before x y l2.
Proof.
  intros Hsub (a & b & c & ->).
  apply sublist_app_l in Hsub as (k1 & k2 & -> & _ & Hsub).
  apply sublist_cons_l in Hsub as (k3 & k4 & -> & Hsub).
  apply sublist_app_l in Hsub as (k5 & k6 & -> & _ & Hsub).
  apply sublist_cons_l in Hsub as (k7 & k8 & -> & _).
  exists (k1 ++ k3), (k5 ++ k7), k8. by rewrite <- !app_assoc.
Qed.

Lemma before_asym x y (l : list nat) :
  NoDup l → before x y l → before y x l → False.
Proof.
  intros Hnd (a & b & c & Hxy) (a' & b' & c' & Hyx).
  assert (l !! length a = Some x) as Hx1
    by (rewrite Hxy; by apply list_lookup_middle).
  assert (l !! (length a + S (length b)) = Some y) as Hy1.
  { rewrite Hxy, lookup_app_r by lia.
    replace (length a + S (length b) - length a) with (S (length b)) by lia.
    simpl. by apply list_lookup_middle. }
  assert (l !! length a' = Some y) as Hy2
    by (rewrite Hyx; by apply list_lookup_middle).
  assert (l !! (length a' + S (length b')) = Some x) as Hx2.
  { rewrite Hyx, lookup_app_r by lia.
    replace (length a' + S (length b') - length a')
      with (S (length b')) by lia.
    simpl. by apply list_lookup_middle. }
  pose proof (NoDup_lookup _ _ _ _ Hnd Hx1 Hx2).
  pose proof (NoDup_lookup _ _ _ _ Hnd Hy1 Hy2). lia.
Qed.

Lemma before_ne x y (l : list nat) : NoDup l → before x y l → x ≠ y.
Proof.
  intros Hnd Hb ->. by eapply before_asym.
Qed.

Lemma before_total x y (l : list nat) :
  x ∈ l → y ∈ l → x ≠ y → before x y l ∨ before y x l.
Proof.
  intros Hx Hy Hne.
  apply list_elem_of_split in Hx as (l1 & l2 & ->).
  apply elem_of_app in Hy as [Hy | Hy].
  - right. apply list_elem_of_split in Hy as (k1 & k2 & ->).
    exists k1, k2, l2. by rewrite <- app_assoc.
  - apply elem_of_cons in Hy as [-> | Hy]; [done |].
    left. apply list_elem_of_split in Hy as (k1 & k2 & ->).
    by exists l1, k1, k2.
Qed.

Lemma held_replicate k w :
  held (R := R) (Args := Args) (E := E) (replicate k (w, unstarted)) = [].
Proof. induction k as [| k IH]; [done | by simpl]. Qed.

Lemma held_insert ths i w pc w' pc' :
  ths !! i = Some (w, pc) →
  held_of pc' = held_of pc →
  held (<[i := (w', pc')]> ths) = held ths.
Proof.
  revert i.
  induction ths as [| th ths IH]; intros [| i] Hl Hh; simpl in *; try done.
  - injection Hl as ->. simpl. by rewrite Hh.
  - by rewrite (IH _ Hl Hh).
Qed.

Lemma held_single ths i w pc w' pc' :
  length ths = 1 →
  ths !! i = Some (w, pc) →
  held ths = option_list (held_of pc)
  ∧ held (<[i := (w', pc')]> ths) = option_list (held_of pc').
Proof.
  destruct ths as [| th [| th' ths]]; try done. intros _.
  destruct i as [| i]; [| done]. simpl. intros [= ->]. simpl.
  by rewrite !app_nil_r.
Qed.

Lemma TraceInv_init n :
  TraceInv [] (init (R := R) (Args := Args) (E := E) n).
Proof.
  split; simpl.
  - intros p Hp. by apply elem_of_nil in Hp.
  - constructor.
  - intros _. rewrite held_replicate. constructor.
Qed.

(** A step that submits nothing and calls no task. *)
Lemma TraceInv_quiet tr sys l sys' :
  TraceInv tr sys →
  submitted (tr ++ [l]) = submitted tr →
  launched (tr ++ [l]) = launched tr →
  dom (store sys) ⊆ dom (store sys') →
  length (threads sys') = length (threads sys) →
  (length (threads sys) = 1 →
   sublist (held (threads sys') ++ promises (queue (scheduler sys')))
           (held (threads sys) ++ promises (queue (scheduler sys)))) →
  TraceInv (tr ++ [l]) sys'.
Proof.
  intros [Hdom Hnd Hord] Hsub Hlau Hst Hlen Hsl. split.
  - rewrite Hsub. intros p Hp. apply Hst. by apply Hdom.
  - by rewrite Hsub.
  - rewrite Hsub, Hlau, Hlen. intros H1.
    etrans; [| by apply Hord].
    apply sublist_app; [done | by apply Hsl].
Qed.

Lemma addTask_functor_Ret debug (s : Scheduler R Args E) f a st
    s' fut st' ev :
  addTask_functor debug s f a st = Ret (s', fut, st', ev) →
  fut = fresh (dom st)
  ∧ dom (<[fut := None]> st) ⊆ dom st'
  ∧ promises (queue s')
    = promises (queue s) ++ (if queueActive s then [fut] else []).
Proof.
  unfold addTask_functor, create, addTask. simpl.
  destruct (queueActive s); simpl.
  - intros [= <- <- <- <-]. split; [done |]. split; [done |].
    simpl. by rewrite promises_app.
  - destruct (destroy _ _ _) as [st1 |] eqn:Hd; [| done]. simpl.
    intros [= <- <- <- <-]. split; [done |].
    split; [by eapply destroy_dom | by rewrite app_nil_r].
Qed.

Lemma cancel_Ret debug (s : Scheduler R Args E) st s' st' ev :
  cancel debug s st = Ret (s', st', ev) →
  queue s' = [] ∧ dom st ⊆ dom st'.
Proof.
  unfold cancel. destruct (destroy_all _ _ _) as [st1 |] eqn:Hd; [| done].
  simpl. destruct (checkCompleted _) as [s2 ev2] eqn:Hchk.
  intros [= <- <- <-]. split; [| by eapply destroy_all_dom].
  replace s2 with (checkCompleted (set_queue [] s)).1 by (by rewrite Hchk).
  apply checkCompleted_fields.
Qed.

Lemma startScheduledWork_rest_Ret debug task (s : Scheduler R Args E)
    st s' st' ev :
  startScheduledWork_rest debug task s st = Ret (s', st', ev) →
  queue s' = queue s ∧ dom st ⊆ dom st'.
Proof.
  unfold startScheduledWork_rest, runNextTask_rest.
  destruct (checkCompleted s) as [s1 ev1] eqn:Hchk1.
  destruct (destroy _ _ _) as [st1 |] eqn:Hd; [| done]. simpl.
  destruct (checkCompleted (set_working _ _)) as [s3 ev3] eqn:Hchk3.
  intros [= <- <- <-]. split; [| by eapply destroy_dom].
  replace s3
    with (checkCompleted (set_working (unsigned_decr (working s1)) s1)).1
    by (by rewrite Hchk3).
  destruct (checkCompleted_fields
              (set_working (unsigned_decr (working s1)) s1)) as (-> & _).
  simpl. replace s1 with (checkCompleted s).1 by (by rewrite Hchk1).
  apply checkCompleted_fields.
Qed.

Lemma step_TraceInv debug tr sys l sys' :
  TraceInv tr sys → step debug sys l sys' → TraceInv (tr ++ [l]) sys'.
Proof.
  intros HT Hstep. pose proof HT as [Hdom Hnd Hord].
  destruct Hstep as
    [ sys f a s' fut st' ev Hfe Hadd
    | sys Hfe
    | sys s' st' ev Hfe Hcan
    | sys Hfe
    | sys i w pc state w' ev Hl Hreq
    | sys i w Hl
    | sys i w w' nx Hl Hrun
    | sys i w Hl
    | sys i w Hl
    | sys i w it Hl Hit
    | sys i w task fut task' st' Hl Hfut Hcall
    | sys i w task s' st' ev Hl Hrest ].
  - (* addTask *)
    apply addTask_functor_Ret in Hadd as (-> & Hst & Hq).
    assert (fresh (dom (store sys)) ∉ submitted tr) as Hfresh.
    { intros Hin. apply Hdom in Hin. by apply is_fresh in Hin. }
    split; simpl; rewrite submitted_snoc.
    + intros p Hp. apply Hst. rewrite dom_insert.
      apply elem_of_app in Hp as [Hp | Hp].
      * apply elem_of_union_r. by apply Hdom.
      * apply list_elem_of_singleton in Hp as ->.
        apply elem_of_union_l. by apply elem_of_singleton.
    + apply NoDup_app. split; [done |]. split; [| apply NoDup_singleton].
      intros p Hp Hp'. by apply list_elem_of_singleton in Hp' as ->.
    + intros H1. rewrite launched_snoc, app_nil_r, Hq.
      specialize (Hord H1).
      destruct (queueActive (scheduler sys)).
      * rewrite !app_assoc. apply sublist_app; [| done].
        by rewrite <- app_assoc.
      * rewrite app_nil_r. by apply sublist_inserts_r.
  - (* close *)
    eapply TraceInv_quiet; try done;
      [by rewrite submitted_snoc, app_nil_r
      | by rewrite launched_snoc, app_nil_r |].
    intros _. simpl. unfold close.
    by destruct (checkCompleted_fields
                   (set_queueActive false (scheduler sys))) as (-> & _).
  - (* cancel *)
    apply cancel_Ret in Hcan as [Hq Hst].
    eapply TraceInv_quiet; try done;
      [by rewrite submitted_snoc, app_nil_r
      | by rewrite launched_snoc, app_nil_r |].
    intros _. simpl. rewrite Hq. apply sublist_app; [done |].
    apply sublist_nil_l.
  - (* ~TaskQueue *)
    eapply TraceInv_quiet; try done;
      [by rewrite submitted_snoc, app_nil_r
      | by rewrite launched_snoc, app_nil_r |].
    intros _. simpl. unfold destructor.
    by destruct (checkCompleted_fields
                   (set_queueActive false (scheduler sys))) as (-> & _).
  - (* requestState *)
    eapply TraceInv_quiet; try done;
      [by rewrite submitted_snoc, app_nil_r
      | by rewrite launched_snoc, app_nil_r
      | apply length_insert |].
    intros _. simpl. by rewrite (held_insert _ _ _ _ _ _ Hl eq_refl).
  - (* start *)
    eapply TraceInv_quiet; try done;
      [by rewrite submitted_snoc, app_nil_r
      | by rewrite launched_snoc, app_nil_r
      | apply length_insert |].
    intros _. simpl. by rewrite (held_insert _ _ _ _ w at_top Hl eq_refl).
  - (* runLoop *)
    eapply TraceInv_quiet; try done;
      [by rewrite submitted_snoc, app_nil_r
      | by rewrite launched_snoc, app_nil_r
      | apply length_insert |].
    intros _. simpl. destruct (after_block w' nx) as [w2 pc2] eqn:Hab.
    rewrite (held_insert _ _ _ _ _ _ Hl); [done |].
    apply (f_equal snd) in Hab. simpl in Hab. subst pc2. by destruct nx.
  - (* wake, waiting *)
    eapply TraceInv_quiet; try done;
      [by rewrite submitted_snoc, app_nil_r
      | by rewrite launched_snoc, app_nil_r
      | apply length_insert |].
    intros _. simpl. destruct (after_block w _) as [w2 pc2] eqn:Hab.
    rewrite (held_insert _ _ _ _ _ _ Hl); [done |].
    apply (f_equal snd) in Hab. simpl in Hab. subst pc2.
    by destruct (Worker.runLoop_inner _ _).
  - (* wake, blocked *)
    eapply TraceInv_quiet; try done;
      [by rewrite submitted_snoc, app_nil_r
      | by rewrite launched_snoc, app_nil_r
      | apply length_insert |].
    intros _. simpl.
    by rewrite (held_insert _ _ _ _ w in_scheduler Hl eq_refl).
  - (* startScheduledWork, top of the loop *)
    eapply TraceInv_quiet; try done;
      [by rewrite submitted_snoc, app_nil_r
      | by rewrite launched_snoc, app_nil_r
      | apply length_insert |].
    intros H1. simpl.
    destruct (startScheduledWork_iter_cases (Worker.predicate w)
                (scheduler sys))
      as [[Heq _] | [(Heq & _) | (task & rest & Heq & _ & Hq & _)]];
      rewrite Heq in Hit; injection Hit as <-; simpl.
    + by rewrite (held_insert _ _ _ _ w at_top Hl eq_refl).
    + by rewrite (held_insert _ _ _ _ w blocked Hl eq_refl).
    + destruct (held_single _ _ _ _ w (unlocked task) H1 Hl) as [-> ->].
      rewrite Hq, promises_cons. simpl. unfold promises. simpl.
      by destruct (promise <$> base task).
  - (* task() *)
    apply getFuture_Ret in Hfut as (t & Hb & ->).
    split; simpl; rewrite submitted_snoc, app_nil_r.
    + intros p Hp. eapply call_dom; [done |]. by apply Hdom.
    + done.
    + rewrite length_insert. intros H1. specialize (Hord H1).
      destruct (held_single _ _ _ _ w (executed task') H1 Hl) as [Hh ->].
      rewrite Hh in Hord. simpl in Hord. rewrite Hb in Hord.
      simpl in Hord. rewrite launched_snoc. simpl.
      by rewrite <- app_assoc.
  - (* the rest of the loop body *)
    apply startScheduledWork_rest_Ret in Hrest as [Hq Hst].
    eapply TraceInv_quiet; try done;
      [by rewrite submitted_snoc, app_nil_r
      | by rewrite launched_snoc, app_nil_r
      | apply length_insert |].
    intros _. simpl.
    by rewrite Hq, (held_insert _ _ _ _ w in_scheduler Hl eq_refl).
Qed.

Lemma exec_TraceInv debug n tr sys :
  exec debug (init n) tr sys → TraceInv tr sys.
Proof.
  remember (init n) as sys0 eqn:H0. intros Hex.
  induction Hex as [| sys tr sys' l sys'' Hex IH Hstep].
  - subst. apply TraceInv_init.
  - eapply step_TraceInv; [by apply IH | done].
Qed.

(** *** No task overtakes another *)

Lemma still_open_snoc (tr : list Label) l :
  still_open (tr ++ [l])
  = match l with
    | l_close | l_destructor => false
    | _ => still_open tr
    end.
Proof. unfold still_open. rewrite foldl_snoc. by destruct l. Qed.

Lemma admitted_snoc (tr : list Label) l :
  admitted (tr ++ [l])
  = admitted tr
    ++ match l with
       | l_addTask fut => if still_open tr then [fut] else []
       | _ => []
       end.
Proof.
  unfold admitted, still_open. rewrite foldl_snoc.
  destruct l; simpl; rewrite ?app_nil_r; try done.
  destruct (foldl intake (true, []) tr).1; by rewrite ?app_nil_r.
Qed.

Lemma step_queueActive_eq debug sys l sys' :
  step debug sys l sys' →
  queueActive (scheduler sys')
  = match l with
    | l_close | l_destructor => false
    | _ => queueActive (scheduler sys)
    end.
Proof.
  intros Hstep.
  destruct Hstep as
    [ sys f a s' fut st' ev Hfe Hadd
    | sys Hfe
    | sys s' st' ev Hfe Hcan
    | sys Hfe
    | sys i w pc state w' ev Hl Hreq
    | sys i w Hl
    | sys i w w' nx Hl Hrun
    | sys i w Hl
    | sys i w Hl
    | sys i w it Hl Hit
    | sys i w task fut task' st' Hl Hfut Hcall
    | sys i w task s' st' ev Hl Hrest ]; simpl; try done.
  - unfold addTask_functor, create, addTask in Hadd. simpl in Hadd.
    destruct (queueActive (scheduler sys)) eqn:Ha; simpl in Hadd.
    + by injection Hadd as <- <- <- <-.
    + destruct (destroy _ _ _) as [st1 |]; [| done]. simpl in Hadd.
      by injection Hadd as <- <- <- <-.
  - unfold close. by rewrite checkCompleted_queueActive.
  - unfold cancel in Hcan.
    destruct (destroy_all _ _ _) as [st1 |]; [| done]. simpl in Hcan.
    destruct (checkCompleted _) as [s2 ev2] eqn:Hchk.
    injection Hcan as <- <- <-.
    replace s2 with (checkCompleted (set_queue [] (scheduler sys))).1
      by (by rewrite Hchk).
    by rewrite checkCompleted_queueActive.
  - unfold destructor. by rewrite checkCompleted_queueActive.
  - destruct (startScheduledWork_iter_cases (Worker.predicate w)
                (scheduler sys))
      as [[Heq _] | [(Heq & _) | (task & rest & Heq & _)]];
      rewrite Heq in Hit; by injection Hit as <-.
  - unfold startScheduledWork_rest, runNextTask_rest in Hrest.
    destruct (checkCompleted (scheduler sys)) as [s1 ev1] eqn:Hchk1.
    destruct (destroy _ _ _) as [st1 |]; [| done]. simpl in Hrest.
    destruct (checkCompleted (set_working _ _)) as [s3 ev3] eqn:Hchk3.
    injection Hrest as <- <- <-.
    replace s3
      with (checkCompleted (set_working (unsigned_decr (working s1)) s1)).1
      by (by rewrite Hchk3).
    rewrite checkCompleted_queueActive. simpl.
    replace s1 with (checkCompleted (scheduler sys)).1
      by (by rewrite Hchk1).
    by rewrite checkCompleted_queueActive.
Qed.

(** What one step other than [cancel] does to the tasks called, about to
    be called and waiting, when there is one worker. *)
Lemma step_tasks debug sys l sys' :
  length (threads sys) = 1 →
  step debug sys l sys' →
  l ≠ l_cancel →
  launched [l] ++ held (threads sys') ++ promises (queue (scheduler sys'))
  = held (threads sys) ++ promises (queue (scheduler sys))
    ++ match l with
       | l_addTask fut => if queueActive (scheduler sys) then [fut] else []
       | _ => []
       end.
Proof.
  intros H1 Hstep Hl_cancel.
  destruct Hstep as
    [ sys f a s' fut st' ev Hfe Hadd
    | sys Hfe
    | sys s' st' ev Hfe Hcan
    | sys Hfe
    | sys i w pc state w' ev Hl Hreq
    | sys i w Hl
    | sys i w w' nx Hl Hrun
    | sys i w Hl
    | sys i w Hl
    | sys i w it Hl Hit
    | sys i w task fut task' st' Hl Hfut Hcall
    | sys i w task s' st' ev Hl Hrest ]; simpl; rewrite ?app_nil_r;
    try done.
  - by apply addTask_functor_Ret in Hadd as (_ & _ & ->).
  - unfold close.
    by destruct (checkCompleted_fields
                   (set_queueActive false (scheduler sys))) as (-> & _).
  - unfold destructor.
    by destruct (checkCompleted_fields
                   (set_queueActive false (scheduler sys))) as (-> & _).
  - by rewrite (held_insert _ _ _ _ _ _ Hl eq_refl).
  - by rewrite (held_insert _ _ _ _ w at_top Hl eq_refl).
  - destruct (after_block w' nx) as [w2 pc2] eqn:Hab.
    rewrite (held_insert _ _ _ _ _ _ Hl); [done |].
    apply (f_equal snd) in Hab. simpl in Hab. subst pc2. by destruct nx.
  - destruct (after_block w _) as [w2 pc2] eqn:Hab.
    rewrite (held_insert _ _ _ _ _ _ Hl); [done |].
    apply (f_equal snd) in Hab. simpl in Hab. subst pc2.
    by destruct (Worker.runLoop_inner _ _).
  - by rewrite (held_insert _ _ _ _ w in_scheduler Hl eq_refl).
  - destruct (startScheduledWork_iter_cases (Worker.predicate w)
                (scheduler sys))
      as [[Heq _] | [(Heq & _) | (task & rest & Heq & _ & Hq & _)]];
      rewrite Heq in Hit; injection Hit as <-; simpl.
    + by rewrite (held_insert _ _ _ _ w at_top Hl eq_refl).
    + by rewrite (held_insert _ _ _ _ w blocked Hl eq_refl).
    + destruct (held_single _ _ _ _ w (unlocked task) H1 Hl) as [-> ->].
      rewrite Hq, promises_cons. simpl. unfold promises. simpl.
      by destruct (promise <$> base task).
  - apply getFuture_Ret in Hfut as (t & Hb & ->).
    destruct (held_single _ _ _ _ w (executed task') H1 Hl) as [-> ->].
    simpl. by rewrite Hb.
  - apply startScheduledWork_rest_Ret in Hrest as [-> _].
    by rewrite (held_insert _ _ _ _ w in_scheduler Hl eq_refl).
Qed.

Lemma step_length debug sys l sys' :
  step debug sys l sys' → length (threads sys') = length (threads sys).
Proof.
  intros Hstep. destruct Hstep; simpl; try done; apply length_insert.
Qed.

Lemma FifoInv_init n :
  FifoInv [] (init (R := R) (Args := Args) (E := E) n).
Proof. split; [done |]. intros _ _. simpl. by rewrite held_replicate. Qed.

Lemma step_FifoInv debug tr sys l sys' :
  FifoInv tr sys → step debug sys l sys' → FifoInv (tr ++ [l]) sys'.
Proof.
  intros [Hopen Hexact] Hstep. split.
  - rewrite still_open_snoc, (step_queueActive_eq _ _ _ _ Hstep), Hopen.
    by destruct l.
  - rewrite (step_length _ _ _ _ Hstep). intros H1 Hnc.
    assert ((l_cancel ∉ tr) ∧ l ≠ l_cancel) as [Hnc' Hne].
    { split; [intros Hin | intros ->]; apply Hnc, elem_of_app;
        [by left | right; by left]. }
    rewrite admitted_snoc, <- (Hexact H1 Hnc'), <- Hopen.
    replace (launched (tr ++ [l])) with (launched tr ++ launched [l])
      by (unfold launched; by rewrite omap_app).
    rewrite <- !app_assoc. f_equal.
    exact (step_tasks _ _ _ _ H1 Hstep Hne).
Qed.

Lemma exec_FifoInv debug n tr sys :
  exec debug (init n) tr sys → FifoInv tr sys.
Proof.
  remember (init n) as sys0 eqn:H0. intros Hex.
  induction Hex as [| sys tr sys' l sys'' Hex IH Hstep].
  - subst. apply FifoInv_init.
  - eapply step_FifoInv; [by apply IH | done].
Qed.

Lemma NoDup_split_unique (l a b a' b' : list nat) x :
  NoDup l → l = a ++ x :: b → l = a' ++ x :: b' → a = a' ∧ b = b'.
Proof.
  intros Hnd H1 H2.
  assert (length a = length a') as Hlen.
  { eapply (NoDup_lookup l _ _ x Hnd).
    - rewrite H1. by apply list_lookup_middle.
    - rewrite H2. by apply list_lookup_middle. }
  rewrite H1 in H2. apply app_inj_1 in H2 as [-> H2]; [| done].
  by injection H2 as ->.
Qed.

(** C9.  In an execution of a program with one worker, let the task with
    future [A] be submitted before the task with future [B], and let the
    execution of [B] have begun.  If the execution of [A] began as well, it
    began before that of [B]; and if the queue took [A] and the execution
    has no [cancel] in it, the execution of [A] did begin, before that of
    [B]. *)
Theorem fifo_single_worker debug tr sys (A B : nat) :
  exec debug (init 1) tr sys →
  before A B (submitted tr) →
  B ∈ launched tr →
  (A ∈ launched tr → before A B (launched tr))
  ∧ (l_cancel ∉ tr → A ∈ admitted tr → before A B (launched tr)).
Proof.
  intros Hex Hsub HB.
  pose proof (exec_TraceInv _ _ _ _ Hex) as [_ Hnd Hord].
  pose proof (exec_FifoInv _ _ _ _ Hex) as [_ Hexact].
  assert (length (threads sys) = 1) as H1.
  { pose proof (exec_Inv debug 1 _ _ _ eq_refl (Inv_init debug 1) Hex)
      as [Hlen _ _ _]. done. }
  specialize (Hord H1). specialize (Hexact H1).
  assert (sublist (launched tr) (submitted tr)) as Hsl.
  { etrans; [| done]. by apply sublist_inserts_r. }
  split.
  - intros HA.
    destruct (before_total A B (launched tr) HA HB) as [Hab | Hba];
      [exact (before_ne _ _ _ Hnd Hsub) | done |].
    exfalso. apply (before_asym A B (submitted tr) Hnd Hsub).
    exact (before_sublist _ _ _ _ Hsl Hba).
  - intros Hnc HA. specialize (Hexact Hnc). rewrite Hexact in Hord.
    assert (NoDup (admitted tr)) as Hnda by (by eapply sublist_NoDup).
    assert (before A B (admitted tr)) as (l1 & l2 & l3 & Hadm).
    { assert (B ∈ admitted tr) as HB'.
      { rewrite <- Hexact. apply elem_of_app. by left. }
      destruct (before_total A B (admitted tr) HA HB') as [Hab | Hba];
        [exact (before_ne _ _ _ Hnd Hsub) | done |].
      exfalso. apply (before_asym A B (submitted tr) Hnd Hsub).
      exact (before_sublist _ _ _ _ Hord Hba). }
    apply list_elem_of_split in HB as (m1 & m2 & Hl).
    pose proof Hexact as Hsplit. rewrite Hl, <- app_assoc in Hsplit.
    simpl in Hsplit. symmetry in Hsplit.
    replace (l1 ++ A :: l2 ++ B :: l3) with ((l1 ++ A :: l2) ++ B :: l3)
      in Hadm by (by rewrite <- app_assoc).
    destruct (NoDup_split_unique _ _ _ _ _ _ Hnda Hsplit Hadm) as [-> _].
    exists l1, l2, m2. by rewrite Hl, <- app_assoc.
Qed.

(** *** A closed queue stays closed *)

Lemma step_queueActive debug sys l sys' :
  step debug sys l sys' →
  queueActive (scheduler sys) = false →
  queueActive (scheduler sys') = false.
Proof.
  intros Hstep Ha. rewrite (step_queueActive_eq _ _ _ _ Hstep).
  by destruct l.
Qed.

Lemma exec_queueActive debug sys tr sys' :
  exec debug sys tr sys' →
  queueActive (scheduler sys) = false →
  queueActive (scheduler sys') = false.
Proof.
  intros Hex Ha. induction Hex as [| ? ? ? ? ? _ IH Hstep]; [done |].
  eapply step_queueActive; [done | by apply IH].
Qed.

Lemma closed_after_close debug sys tr1 tr2 sys' :
  exec debug sys (tr1 ++ l_close :: tr2) sys' →
  queueActive (scheduler sys') = false.
Proof.
  intros Hex. apply exec_split in Hex as (sys1 & sys2 & _ & Hstep & Hex).
  eapply exec_queueActive; [done |].
  inversion Hstep; subst. simpl. unfold close.
  by rewrite checkCompleted_queueActive.
Qed.

(** The same for [addTask(functor, args...)], which makes the task: the
    future it returns gets the cancellation. *)
Lemma addTask_functor_closed debug (s : Scheduler R Args E) f a st :
  queueActive s = false →
  ∃ fut st', addTask_functor debug s f a st = Ret (s, fut, st', [])
             ∧ st !! fut = None
             ∧ future_get st' fut = Some Cancellation.
Proof.
  intros Ha.
  destruct (create_untouched f a st) as (t & Hc & Hfresh & Hu).
  unfold addTask_functor. rewrite Hc.
  rewrite (addTask_closed debug s (mkTask (Some t)) t _ Ha eq_refl Hu).
  simpl. eexists _, _. split; [done |]. split; [done |].
  apply future_get_insert.
Qed.

(** C7.  After [close], at any later time, [addTask] leaves the
    scheduler as it is, notifies nobody, and the future of the task gets
    the cancellation, for a task made beforehand and not started as for
    one that [addTask(functor, args...)] makes; on an open queue
    [addTask] puts the task at the tail and notifies one waiter. *)
Theorem addTask_closed_drops_open_pushes debug n tr1 tr2 sys :
  exec debug (init n) (tr1 ++ l_close :: tr2) sys →
  (∀ task t st,
     base task = Some t → untouched t st →
     ∃ st', addTask debug (scheduler sys) task st
            = Ret (scheduler sys, st', [])
            ∧ future_get st' (promise t) = Some Cancellation)
  ∧ (∀ f a,
       ∃ fut st', addTask_functor debug (scheduler sys) f a (store sys)
                  = Ret (scheduler sys, fut, st', [])
                  ∧ store sys !! fut = None
                  ∧ future_get st' fut = Some Cancellation)
  ∧ (∀ (s : Scheduler R Args E) task st,
       queueActive s = true →
       addTask debug s task st
       = Ret (set_queue (queue s ++ [task]) s, st,
              [notify_one impl_variable])).
Proof.
  intros Hex. apply closed_after_close in Hex. split; [| split].
  - intros task t st Hb Hu. eexists. split; [| apply future_get_insert].
    by apply addTask_closed.
  - intros f a. by apply addTask_functor_closed.
  - intros s task st. apply addTask_open.
Qed.

(** *** The tasks in the queue are untouched *)

Lemma held_insert_None ths i w pc w' pc' :
  ths !! i = Some (w, pc) → held_of pc' = None →
  sublist (held (<[i := (w', pc')]> ths)) (held ths).
Proof.
  revert i.
  induction ths as [| th ths IH]; intros [| i] Hl Hh; simpl in *; try done.
  - rewrite Hh. simpl. by apply sublist_inserts_l.
  - apply sublist_app; [done | by eapply IH].
Qed.

Lemma held_insert_Some ths i w pc w' pc' :
  ths !! i = Some (w, pc) → held_of pc = None →
  held (<[i := (w', pc')]> ths) ≡ₚ option_list (held_of pc') ++ held ths.
Proof.
  revert i.
  induction ths as [| th ths IH]; intros [| i] Hl Hh; simpl in *; try done.
  - injection Hl as ->. simpl. by rewrite Hh.
  - rewrite (IH _ Hl Hh).
    by rewrite !app_assoc, (Permutation_app_comm (option_list (held_of th.2))).
Qed.

Lemma held_elem ths i w task t :
  ths !! i = Some (w, unlocked task) → base task = Some t →
  promise t ∈ held ths.
Proof.
  revert i.
  induction ths as [| th ths IH]; intros [| i] Hl Hb; simpl in *; try done.
  - injection Hl as ->. simpl. rewrite Hb. simpl. by left.
  - apply elem_of_app. right. by eapply IH.
Qed.

Lemma pending_dom task st p :
  pending task st → p ∈ promises [task] → p ∈ dom st.
Proof.
  intros (t & Hb & _ & _ & Hp). rewrite (promises_pending _ _ Hb).
  intros ->%list_elem_of_singleton. by apply elem_of_dom.
Qed.

Lemma Forall_pending_dom (q : list (Task R Args E)) st p :
  Forall (λ task, pending task st) q → p ∈ promises q → p ∈ dom st.
Proof.
  intros Hall Hp. apply list_elem_of_omap in Hp as (task & Hel & Hpt).
  rewrite Forall_forall in Hall.
  destruct (Hall _ Hel) as (t & Hb & _ & _ & Hlk).
  rewrite Hb in Hpt. injection Hpt as <-. by apply elem_of_dom.
Qed.

Lemma Forall_pending_insert (q : list (Task R Args E)) st p v :
  Forall (λ task, pending task st) q → p ∉ promises q →
  Forall (λ task, pending task (<[p := v]> st)) q.
Proof.
  intros Hall Hp. rewrite Forall_forall in Hall. apply Forall_forall.
  intros task Hel. apply pending_insert_ne; [by apply Hall |].
  destruct (Hall _ Hel) as (t & Hb & _).
  rewrite (promises_pending _ _ Hb). intros ->%list_elem_of_singleton.
  apply Hp. by apply (promises_elem task).
Qed.

Lemma QueueInv_init n :
  QueueInv (init (R := R) (Args := Args) (E := E) n).
Proof.
  split; simpl; [constructor | |]; rewrite held_replicate;
    [constructor |].
  intros p Hp. by apply elem_of_nil in Hp.
Qed.

(** A step that leaves the futures and the queue alone and gives no
    thread a task. *)
Lemma QueueInv_thread sys i w pc w' pc' fe :
  QueueInv sys →
  threads sys !! i = Some (w, pc) →
  held_of pc' = None ∨ held_of pc' = held_of pc →
  QueueInv {| store := store sys; scheduler := scheduler sys;
              frontend := fe;
              threads := <[i := (w', pc')]> (threads sys) |}.
Proof.
  intros [Hp Hnd Hdom] Hl Hh.
  assert (sublist (held (<[i := (w', pc')]> (threads sys)))
            (held (threads sys))) as Hsub.
  { destruct Hh as [Hh | Hh]; [by eapply held_insert_None |].
    by rewrite (held_insert _ _ _ _ _ _ Hl Hh). }
  split; simpl; [done | |].
  - eapply sublist_NoDup; [done |]. by apply sublist_app.
  - intros p Hel. apply Hdom. by eapply elem_of_sublist.
Qed.

Lemma set_value_inl st p (v : TypedTaskResult R E) st' :
  set_value st p v = inl st' → st' = <[p := Some v]> st.
Proof.
  unfold set_value. destruct (st !! p) as [[v0 |] |]; try done.
  by intros [= <-].
Qed.

Lemma step_QueueInv debug n sys l sys' :
  Inv debug n sys → QueueInv sys → step debug sys l sys' → QueueInv sys'.
Proof.
  intros [_ _ _ Hexd] HQ Hstep. pose proof HQ as [Hp Hnd Hdom].
  destruct Hstep as
    [ sys f a s' fut st' ev Hfe Hadd
    | sys Hfe
    | sys s' st' ev Hfe Hcan
    | sys Hfe
    | sys i w pc state w' ev Hl Hreq
    | sys i w Hl
    | sys i w w' nx Hl Hrun
    | sys i w Hl
    | sys i w Hl
    | sys i w it Hl Hit
    | sys i w task fut task' st' Hl Hfut Hcall
    | sys i w task s' st' ev Hl Hrest ].
  - (* addTask *)
    destruct (create_untouched f a (store sys)) as (t & Hc & Hfresh & Hu).
    assert (promise t ∉ promises (queue (scheduler sys))) as Hnq.
    { intros Hin. apply (Forall_pending_dom _ _ _ Hp) in Hin.
      by apply not_elem_of_dom in Hfresh. }
    assert (promise t ∉ held (threads sys)) as Hnh.
    { intros Hin. apply Hdom in Hin. by apply not_elem_of_dom in Hfresh. }
    unfold addTask_functor in Hadd. rewrite Hc in Hadd.
    destruct (queueActive (scheduler sys)) eqn:Ha.
    + rewrite (addTask_open _ _ _ _ Ha) in Hadd.
      injection Hadd as <- <- <- <-. split; simpl.
      * apply Forall_app. split; [by apply Forall_pending_insert |].
        apply Forall_singleton. by exists t.
      * rewrite promises_app, app_assoc.
        rewrite (promises_pending (mkTask (Some t)) t eq_refl).
        apply NoDup_app. split; [done |]. split; [| apply NoDup_singleton].
        intros p Hin ->%list_elem_of_singleton.
        apply elem_of_app in Hin as [Hin | Hin]; done.
      * intros p Hin. rewrite dom_insert. apply elem_of_union_r.
        by apply Hdom.
    + rewrite (addTask_closed _ _ (mkTask (Some t)) t _ Ha eq_refl Hu)
        in Hadd.
      injection Hadd as <- <- <- <-. split; simpl.
      * apply Forall_pending_insert; [| done].
        by apply Forall_pending_insert.
      * done.
      * intros p Hin. rewrite !dom_insert.
        do 2 apply elem_of_union_r. by apply Hdom.
  - (* close *)
    split; simpl; [| | done]; unfold close;
      destruct (checkCompleted_fields
                  (set_queueActive false (scheduler sys))) as (-> & _);
      done.
  - (* cancel *)
    apply cancel_Ret in Hcan as [Hq Hst]. split; simpl.
    + rewrite Hq. constructor.
    + rewrite Hq, app_nil_r. by apply NoDup_app in Hnd as (? & _).
    + intros p Hin. apply Hst. by apply Hdom.
  - (* ~TaskQueue *)
    split; simpl; [| | done]; unfold destructor;
      destruct (checkCompleted_fields
                  (set_queueActive false (scheduler sys))) as (-> & _);
      done.
  - (* requestState *)
    eapply QueueInv_thread; [done | done | by right].
  - (* start *)
    eapply QueueInv_thread; [done | done | by left].
  - (* runLoop *)
    destruct (after_block w' nx) as [w2 pc2] eqn:Hab.
    eapply QueueInv_thread; [done | done | left].
    apply (f_equal snd) in Hab. simpl in Hab. subst pc2. by destruct nx.
  - (* wake, waiting *)
    destruct (after_block w _) as [w2 pc2] eqn:Hab.
    eapply QueueInv_thread; [done | done | left].
    apply (f_equal snd) in Hab. simpl in Hab. subst pc2.
    by destruct (Worker.runLoop_inner _ _).
  - (* wake, blocked *)
    eapply QueueInv_thread; [done | done | by left].
  - (* startScheduledWork, top of the loop *)
    destruct (startScheduledWork_iter_cases (Worker.predicate w)
                (scheduler sys))
      as [[Heq _] | [(Heq & _) | (task & rest & Heq & _ & Hq & _)]];
      rewrite Heq in Hit; injection Hit as <-; simpl.
    + eapply QueueInv_thread; [done | done | by left].
    + eapply QueueInv_thread; [done | done | by left].
    + rewrite Hq in Hp, Hnd. rewrite promises_cons in Hnd.
      pose proof (Forall_cons_1 _ _ _ Hp) as [(t & Hb & Hu) Hrest].
      rewrite (promises_pending _ _ Hb) in Hnd.
      pose proof (held_insert_Some _ _ _ _ w (unlocked task) Hl eq_refl)
        as Hperm. simpl in Hperm. rewrite Hb in Hperm. simpl in Hperm.
      split; simpl.
      * done.
      * rewrite Hperm. simpl. by rewrite Permutation_middle.
      * intros p Hin. rewrite Hperm in Hin.
        apply elem_of_cons in Hin as [-> | Hin]; [| by apply Hdom].
        destruct Hu as (_ & _ & Hlk). by apply elem_of_dom.
  - (* task() *)
    pose proof Hcall as Hcall'.
    apply call_Ret in Hcall' as (t & t' & Hb & _).
    unfold call in Hcall. rewrite Hb in Hcall.
    destruct (launch debug t (store sys)) as [[t1 st1] |] eqn:Hlaunch;
      [| done].
    simpl in Hcall. injection Hcall as _ <-.
    apply launch_Ret in Hlaunch as [v Hv]. apply set_value_inl in Hv as ->.
    pose proof (held_elem _ _ _ _ _ Hl Hb) as Hheld.
    assert (sublist (held (<[i := (w, executed task')]> (threads sys)))
              (held (threads sys))) as Hsub
      by (by eapply held_insert_None).
    split; simpl.
    * apply Forall_pending_insert; [done |].
      apply NoDup_app in Hnd as (_ & Hdisj & _). by apply Hdisj.
    * eapply sublist_NoDup; [done |]. by apply sublist_app.
    * intros p Hin. rewrite dom_insert. apply elem_of_union_r.
      apply Hdom. by eapply elem_of_sublist.
  - (* the rest of the loop body *)
    destruct (Hexd _ _ _ Hl) as (t & Hb & Hs & He).
    pose proof (startScheduledWork_rest_Ret _ _ _ _ _ _ _ Hrest)
      as [Hq _].
    unfold startScheduledWork_rest, runNextTask_rest in Hrest.
    destruct (checkCompleted (scheduler sys)) as [s1 ev1].
    rewrite (destroy_started _ _ _ _ Hb Hs He) in Hrest. simpl in Hrest.
    destruct (checkCompleted (set_working _ _)) as [s3 ev3].
    injection Hrest as <- <- <-.
    assert (sublist (held (<[i := (w, in_scheduler)]> (threads sys)))
              (held (threads sys))) as Hsub
      by (by eapply held_insert_None).
    split; simpl; rewrite ?Hq.
    * done.
    * eapply sublist_NoDup; [done |]. by apply sublist_app.
    * intros p Hin. apply Hdom. by eapply elem_of_sublist.
Qed.

Lemma exec_QueueInv debug n tr sys :
  (N.of_nat n < 2 ^ UINT_WIDTH)%N →
  exec debug (init n) tr sys → QueueInv sys.
Proof.
  intros Hn Hex. remember (init n) as sys0 eqn:H0.
  induction Hex as [| sys tr sys' l sys'' Hex IH Hstep].
  - subst. apply QueueInv_init.
  - eapply step_QueueInv; [| by apply IH | done].
    subst. by eapply exec_Inv; [| apply Inv_init |].
Qed.

(** The tasks that wait in the queue of a running program are untouched
    and have promises of their own, which is what [cancel] needs to
    return. *)
Lemma exec_all_pending debug n tr sys :
  (N.of_nat n < 2 ^ UINT_WIDTH)%N →
  exec debug (init n) tr sys →
  all_pending (queue (scheduler sys)) (store sys).
Proof.
  intros Hn Hex. destruct (exec_QueueInv _ _ _ _ Hn Hex) as [Hp Hnd _].
  split; [done |]. by apply NoDup_app in Hnd as (_ & _ & ?).
Qed.

End SystemFacts.

(** ** The program does not crash

    In a program with fewer than 2^32 workers no step of a worker and no
    call to the queue aborts: the assertions hold and no exception leaves a
    [noexcept] function. *)

Section Progress.
Import Task TaskQueue System.
Context {R Args E : Type}.
Implicit Types (sys : System R Args E) (pc : PC R Args E)
  (ths : list (Worker.SyncedWorker * PC R Args E))
  (t : PackagedTask R Args E) (task : Task R Args E) (st : Store R E).

Lemma held_distinct ths i j w w' task task' t t' :
  NoDup (held ths) → i ≠ j →
  ths !! i = Some (w, unlocked task) → ths !! j = Some (w', unlocked task') →
  base task = Some t → base task' = Some t' →
  promise t ≠ promise t'.
Proof.
  revert i j.
  induction ths as [| th ths IH]; intros [| i] [| j] Hnd Hij Hi Hj Hb Hb';
    simpl in *; try done.
  - injection Hi as ->. simpl in Hnd. rewrite Hb in Hnd. simpl in Hnd.
    apply NoDup_cons_1_1 in Hnd. intros Heq. apply Hnd. rewrite Heq.
    by eapply held_elem.
  - injection Hj as ->. simpl in Hnd. rewrite Hb' in Hnd. simpl in Hnd.
    apply NoDup_cons_1_1 in Hnd. intros Heq. apply Hnd. rewrite <- Heq.
    by eapply held_elem.
  - apply NoDup_app in Hnd as (_ & _ & Hnd).
    eapply (IH i j); [done | lia | done ..].
Qed.

Lemma pending_lookup task st st' :
  pending task st →
  (∀ t, base task = Some t → st' !! promise t = st !! promise t) →
  pending task st'.
Proof.
  intros (t & Hb & Hs & He & Hp) Hsame. exists t. split; [done |].
  repeat split; try done. by rewrite (Hsame _ Hb).
Qed.

Lemma HeldInv_init n : HeldInv (init (R := R) (Args := Args) (E := E) n).
Proof. intros i w task Hl. apply lookup_replicate in Hl as [? _]. done. Qed.

Lemma HeldInv_update sys i w' pc' st' s' fe :
  (∀ task, pc' = unlocked task → pending task st') →
  (∀ j w task, j ≠ i → threads sys !! j = Some (w, unlocked task) →
     pending task st') →
  HeldInv {| store := st'; scheduler := s'; frontend := fe;
             threads := <[i := (w', pc')]> (threads sys) |}.
Proof.
  intros Hnew Hold j w task Hj. simpl in *.
  apply list_lookup_insert_Some in Hj as [(-> & Heq & _) | [Hne Hj]].
  - injection Heq as -> ->. by apply Hnew.
  - by eapply Hold.
Qed.

Lemma step_HeldInv debug n sys l sys' :
  Inv debug n sys → QueueInv sys → HeldInv sys →
  step debug sys l sys' → HeldInv sys'.
Proof.
  intros [_ _ _ Hexd] [Hp Hnd Hdom] HH Hstep.
  destruct Hstep as
    [ sys f a s' fut st' ev Hfe Hadd
    | sys Hfe
    | sys s' st' ev Hfe Hcan
    | sys Hfe
    | sys i w pc state w' ev Hl Hreq
    | sys i w Hl
    | sys i w w' nx Hl Hrun
    | sys i w Hl
    | sys i w Hl
    | sys i w it Hl Hit
    | sys i w task fut task' st' Hl Hfut Hcall
    | sys i w task s' st' ev Hl Hrest ].
  - (* addTask *)
    destruct (create_untouched f a (store sys)) as (t & Hc & Hfresh & Hu).
    assert (∀ j w task v, threads sys !! j = Some (w, unlocked task) →
              pending task (<[promise t := v]> (store sys))) as Hins.
    { intros j w task v Hj. apply pending_insert_ne; [by eapply HH |].
      intros Hin. apply (pending_dom _ _ _ (HH _ _ _ Hj)) in Hin.
      by apply not_elem_of_dom in Hfresh. }
    unfold addTask_functor in Hadd. rewrite Hc in Hadd.
    destruct (queueActive (scheduler sys)) eqn:Ha.
    + rewrite (addTask_open _ _ _ _ Ha) in Hadd.
      injection Hadd as <- <- <- <-. intros j w task Hj. by eapply Hins.
    + rewrite (addTask_closed _ _ (mkTask (Some t)) t _ Ha eq_refl Hu)
        in Hadd.
      injection Hadd as <- <- <- <-. intros j w task Hj. simpl in *.
      eapply pending_lookup; [by eapply (Hins _ _ _ None) |].
      intros t0 Hb0.
      destruct (decide (promise t = promise t0)) as [Heq | Hne].
      * exfalso. pose proof (HH _ _ _ Hj) as (t1 & Hb1 & _ & _ & Hlk).
        assert (t1 = t0) as -> by congruence.
        rewrite <- Heq in Hlk. congruence.
      * by rewrite !lookup_insert_ne.
  - (* close *)
    done.
  - (* cancel *)
    assert (all_pending (queue (scheduler sys)) (store sys)) as Hall.
    { split; [done |]. by apply NoDup_app in Hnd as (_ & _ & ?). }
    destruct (destroy_all_pending debug _ _ Hall) as (st1 & Hd & _ & Hout).
    unfold cancel in Hcan. rewrite Hd in Hcan. simpl in Hcan.
    destruct (checkCompleted _) as [s2 ev2].
    injection Hcan as <- <- <-. intros j w task Hj. simpl in *.
    eapply pending_lookup; [by eapply HH |].
    intros t Hb. apply Hout.
    apply NoDup_app in Hnd as (_ & Hdisj & _). apply Hdisj.
    by eapply held_elem.
  - (* ~TaskQueue *)
    done.
  - (* requestState *)
    apply HeldInv_update.
    + intros task ->. by eapply HH.
    + intros j w0 task _ Hj. by eapply HH.
  - (* start *)
    apply HeldInv_update; [done |].
    intros j w0 task _ Hj. by eapply HH.
  - (* runLoop *)
    destruct (after_block w' nx) as [w2 pc2] eqn:Hab.
    apply HeldInv_update.
    + intros task ->. apply (f_equal snd) in Hab. by destruct nx.
    + intros j w0 task _ Hj. by eapply HH.
  - (* wake, waiting *)
    destruct (after_block w _) as [w2 pc2] eqn:Hab.
    apply HeldInv_update.
    + intros task ->. apply (f_equal snd) in Hab.
      by destruct (Worker.runLoop_inner _ _).
    + intros j w0 task _ Hj. by eapply HH.
  - (* wake, blocked *)
    apply HeldInv_update; [done |].
    intros j w0 task _ Hj. by eapply HH.
  - (* startScheduledWork, top of the loop *)
    apply HeldInv_update.
    + intros task Hpc.
      destruct (startScheduledWork_iter_cases (Worker.predicate w)
                  (scheduler sys))
        as [[Heq _] | [(Heq & _) | (task0 & rest & Heq & _ & Hq & _)]];
        rewrite Heq in Hit; injection Hit as <-; try done.
      simpl in Hpc. injection Hpc as ->.
      rewrite Hq in Hp. by apply Forall_cons_1 in Hp as [? _].
    + intros j w0 task _ Hj. by eapply HH.
  - (* task() *)
    pose proof Hcall as Hcall'.
    apply call_Ret in Hcall' as (t & t' & Hb & _).
    unfold call in Hcall. rewrite Hb in Hcall.
    destruct (launch debug t (store sys)) as [[t1 st1] |] eqn:Hlaunch;
      [| done].
    simpl in Hcall. injection Hcall as _ <-.
    apply launch_Ret in Hlaunch as [v Hv]. apply set_value_inl in Hv as ->.
    apply HeldInv_update; [done |].
    intros j w0 task0 Hne Hj.
    pose proof (HH _ _ _ Hj) as Hpend. pose proof Hpend as (t0 & Hb0 & _).
    apply pending_insert_ne; [done |].
    rewrite (promises_pending _ _ Hb0). intros Heq%list_elem_of_singleton.
    apply NoDup_app in Hnd as (Hndh & _).
    by apply (held_distinct _ _ _ _ _ _ _ _ _ Hndh Hne Hj Hl Hb0 Hb).
  - (* the rest of the loop body *)
    destruct (Hexd _ _ _ Hl) as (t & Hb & Hs & He).
    unfold startScheduledWork_rest, runNextTask_rest in Hrest.
    destruct (checkCompleted (scheduler sys)) as [s1 ev1].
    rewrite (destroy_started _ _ _ _ Hb Hs He) in Hrest. simpl in Hrest.
    destruct (checkCompleted (set_working _ _)) as [s3 ev3].
    injection Hrest as <- <- <-.
    apply HeldInv_update; [done |].
    intros j w0 task0 _ Hj. by eapply HH.
Qed.

Lemma exec_HeldInv debug n tr sys :
  (N.of_nat n < 2 ^ UINT_WIDTH)%N →
  exec debug (init n) tr sys → HeldInv sys.
Proof.
  intros Hn Hex. remember (init n) as sys0 eqn:H0.
  induction Hex as [| sys tr sys' l sys'' Hex IH Hstep].
  - subst. apply HeldInv_init.
  - subst. eapply step_HeldInv; [| | by apply IH | done].
    + by eapply exec_Inv; [| apply Inv_init |].
    + by eapply exec_QueueInv.
Qed.

(** Whatever a worker's thread is about to do in [startScheduledWork], it
    can do: the top of the loop never reads the front of an empty queue,
    the call of the task returns, and so does the rest of the loop body. *)
Lemma worker_step_exists debug n tr sys i w :
  (N.of_nat n < 2 ^ UINT_WIDTH)%N →
  exec debug (init n) tr sys →
  (threads sys !! i = Some (w, in_scheduler) →
   ∃ sys', step debug sys (l_iter i) sys')
  ∧ (∀ task, threads sys !! i = Some (w, unlocked task) →
     ∃ fut sys', step debug sys (l_launch i fut) sys')
  ∧ (∀ task, threads sys !! i = Some (w, executed task) →
     ∃ sys', step debug sys (l_rest i) sys').
Proof.
  intros Hn Hex.
  pose proof (exec_Inv _ _ _ _ _ Hn (Inv_init debug n) Hex)
    as [Hlen Hw Hc Hexd].
  pose proof (exec_HeldInv _ _ _ _ Hn Hex) as HH.
  split; [| split].
  - intros Hl.
    destruct (startScheduledWork_iter_cases (Worker.predicate w)
                (scheduler sys))
      as [[Heq _] | [(Heq & _) | (task & rest & Heq & _)]];
      eexists; by eapply step_iter.
  - intros task Hl. destruct (HH _ _ _ Hl) as (t & Hb & Hs & _ & Hp).
    destruct (call_untouched debug task t (store sys) Hb Hs Hp)
      as (t' & v & Hcall).
    eexists _, _. eapply step_launch; [done | | done].
    unfold getFuture. by rewrite Hb.
  - intros task Hl. destruct (Hexd _ _ _ Hl) as (t & Hb & Hs & He).
    pose proof (count_running_busy _ _ _ _ Hl eq_refl) as Hbusy.
    eexists. eapply step_rest; [done |].
    apply (startScheduledWork_rest_counted _ _ _ _ _ Hb Hs He). lia.
Qed.

(** Nor does a call to the queue abort. *)
Lemma queue_call_exists debug n tr sys (f : Args → Call R E) (a : Args) :
  (N.of_nat n < 2 ^ UINT_WIDTH)%N →
  exec debug (init n) tr sys →
  frontend sys = true →
  (∃ fut sys', step debug sys (l_addTask fut) sys')
  ∧ (∃ sys', step debug sys l_cancel sys').
Proof.
  intros Hn Hex Hfe. split.
  - destruct (create_untouched f a (store sys)) as (t & Hc & Hfresh & Hu).
    destruct (queueActive (scheduler sys)) eqn:Ha.
    + eexists _, _. eapply (step_addTask _ _ f a); [done |].
      unfold addTask_functor. rewrite Hc.
      by rewrite (addTask_open _ _ _ _ Ha).
    + eexists _, _. eapply (step_addTask _ _ f a); [done |].
      unfold addTask_functor. rewrite Hc.
      by rewrite (addTask_closed _ _ (mkTask (Some t)) t _ Ha eq_refl Hu).
  - pose proof (exec_all_pending _ _ _ _ Hn Hex) as Hall.
    destruct (cancel_pending_returns debug (scheduler sys) (store sys) Hall)
      as (s' & st' & ev & Hcan).
    eexists. by eapply step_cancel.
Qed.

End Progress.

(** ** The loop of [startScheduledWork] *)

Section ProtocolFacts.
Import Task TaskQueue System.
Context {R Args E : Type}.
Implicit Types (sys : System R Args E).

(** C4.  In every state of a program with fewer than 2^32 workers a thread
    inside [startScheduledWork] does what the protocol says, block by
    block.

    At the top of the loop its one block, which runs under the lock, is an
    iteration of the protocol (for every predicate); it leaves the futures
    alone, and then the thread has returned to [runLoop] (completed, or the
    predicate said no), or sits in the wait on the scheduler's condition
    variable with the scheduler as it was (no work), or has counted itself
    in, has taken the front task and is about to call it.

    A thread that is blocked does nothing but wake up, and when it does it
    is at the top of the loop again.

    The call of the task taken is a block of its own between the two locked
    ones: it is a call of that very task, it does not touch the scheduler,
    and the lock is free before it (another worker at the top of the loop
    can run its block under the lock, client code can call [close]).

    After the call the thread's block, under the lock again, counts the
    thread out and evaluates completion on the scheduler as it is by then,
    leaves the futures alone, and the thread is at the top of the loop
    again. *)
Theorem startScheduledWork_follows_protocol debug n tr sys i w
    (predicate : bool → bool) :
  (N.of_nat n < 2 ^ UINT_WIDTH)%N →
  exec debug (init n) tr sys →
  (threads sys !! i = Some (w, in_scheduler) →
     startScheduledWork_iter predicate (scheduler sys)
     = Some (Protocol.iteration predicate (scheduler sys))
     ∧ (∃ sys', step debug sys (l_iter i) sys')
     ∧ ∀ l sys', step debug sys l sys' → own_label i l = true →
         l = l_iter i
         ∧ store sys' = store sys
         ∧ match Protocol.iteration (Worker.predicate w) (scheduler sys) with
           | Break =>
               scheduler sys' = scheduler sys
               ∧ threads sys' = <[i := (w, at_top)]> (threads sys)
           | Block =>
               scheduler sys' = scheduler sys
               ∧ threads sys' = <[i := (w, blocked)]> (threads sys)
           | RunTask task s' =>
               scheduler sys' = s'
               ∧ threads sys' = <[i := (w, unlocked task)]> (threads sys)
           end)
  ∧ (threads sys !! i = Some (w, blocked) →
     ∀ l sys', step debug sys l sys' → own_label i l = true →
       l = l_wake i
       ∧ store sys' = store sys
       ∧ scheduler sys' = scheduler sys
       ∧ threads sys' = <[i := (w, in_scheduler)]> (threads sys))
  ∧ (∀ task, threads sys !! i = Some (w, unlocked task) →
     (∃ fut sys', step debug sys (l_launch i fut) sys')
     ∧ (∀ j w', threads sys !! j = Some (w', in_scheduler) →
        ∃ sys', step debug sys (l_iter j) sys')
     ∧ (frontend sys = true → ∃ sys', step debug sys l_close sys')
     ∧ ∀ l sys', step debug sys l sys' → own_label i l = true →
         scheduler sys' = scheduler sys
         ∧ ∃ fut task',
             l = l_launch i fut
             ∧ getFuture debug task = Ret fut
             ∧ call debug task (store sys) = Ret (task', store sys')
             ∧ threads sys' = <[i := (w, executed task')]> (threads sys))
  ∧ (∀ task, threads sys !! i = Some (w, executed task) →
     startScheduledWork_rest debug task (scheduler sys) (store sys)
     = Ret ((Protocol.after_task (scheduler sys)).1, store sys,
            (Protocol.after_task (scheduler sys)).2)
     ∧ (∃ sys', step debug sys (l_rest i) sys')
     ∧ ∀ l sys', step debug sys l sys' → own_label i l = true →
         l = l_rest i
         ∧ store sys' = store sys
         ∧ scheduler sys' = (Protocol.after_task (scheduler sys)).1
         ∧ threads sys' = <[i := (w, in_scheduler)]> (threads sys)).
Proof.
  intros Hn Hex.
  pose proof (exec_Inv _ _ _ _ _ Hn (Inv_init debug n) Hex)
    as [Hlen Hw Hc Hexd].
  pose proof (count_running_le (threads sys)) as Hle.
  destruct (worker_step_exists debug n tr sys i w Hn Hex)
    as (Hiter & Hcall & Hback).
  split; [| split; [| split]].
  - intros Hl.
    assert (∀ p, startScheduledWork_iter p (scheduler sys)
                 = Some (Protocol.iteration p (scheduler sys))) as Hprot.
    { intros p. apply startScheduledWork_iter_protocol.
      pose proof (count_running_idle _ _ _ _ Hl eq_refl). lia. }
    split; [apply Hprot |]. split; [by apply Hiter |].
    intros l sys' Hstep Hown.
    destruct Hstep; simpl in Hown;
      try done; apply bool_decide_eq_true in Hown; subst;
      simplify_eq.
    rewrite Hprot in *. simplify_eq.
    split; [done |]. split; [done |].
    by destruct (Protocol.iteration _ _).
  - intros Hl l sys' Hstep Hown.
    destruct Hstep; simpl in Hown;
      try done; apply bool_decide_eq_true in Hown; subst;
      simplify_eq.
    done.
  - intros task Hl. split; [by eapply Hcall |].
    split.
    { intros j w' Hj.
      destruct (worker_step_exists debug _ tr sys j w' Hn Hex)
        as (Hj' & _).
      by apply Hj'. }
    split; [intros Hfe; eexists; by apply step_close |].
    intros l sys' Hstep Hown.
    destruct Hstep; simpl in Hown;
      try done; apply bool_decide_eq_true in Hown; subst;
      simplify_eq.
    split; [done |]. eexists _, _. by repeat split.
  - intros task Hl.
    destruct (Hexd _ _ _ Hl) as (t & Hb & Hs & He).
    pose proof (count_running_busy _ _ _ _ Hl eq_refl) as Hbusy.
    assert (startScheduledWork_rest debug task (scheduler sys) (store sys)
            = Ret ((Protocol.after_task (scheduler sys)).1, store sys,
                   (Protocol.after_task (scheduler sys)).2)) as Hrest.
    { rewrite (startScheduledWork_rest_counted _ _ _ _ _ Hb Hs He) by lia.
      unfold Protocol.after_task.
      rewrite evaluate_completion_checkCompleted.
      by rewrite unsigned_decr_small by lia. }
    split; [done |]. split; [by eapply Hback |].
    intros l sys' Hstep Hown.
    destruct Hstep as
      [ | | | | | | | | | | | sys j w0 task0 s' st' ev Hl0 Hrest0 ];
      simpl in Hown;
      try done; apply bool_decide_eq_true in Hown; subst;
      simplify_eq.
    rewrite Hrest in Hrest0. by simplify_eq.
Qed.

End ProtocolFacts.

(** ** The small program *)

Section ExampleFacts.
Import Task TaskQueue System Example.

Lemma exec_cons {R Args E : Type} debug (sys sys1 sys' : System R Args E)
    l tr :
  step debug sys l sys1 → exec debug sys1 tr sys' →
  exec debug sys (l :: tr) sys'.
Proof.
  intros Hstep Hex. apply (exec_app debug sys [l] sys1 tr sys'); [| done].
  apply (exec_snoc debug sys [] sys); [constructor | done].
Qed.

(** One step of a program whose states are given in full: take the step,
    then evaluate the state it leads to. *)
Local Tactic Notation "take" uconstr(step_rule) :=
  eapply exec_cons; [eapply step_rule; reflexivity | vm_compute].

Lemma exec_run : exec true (init 1) run after_run.
Proof.
  unfold run.
  take (step_addTask _ _ increment 41).
  take (step_addTask _ _ boom 7).
  take step_close.
  take step_start.
  take step_runLoop.
  take step_iter.
  take step_launch.
  take step_rest.
  take step_iter.
  take step_launch.
  take step_rest.
  apply exec_nil.
Qed.

Lemma exec_run_to_first_return :
  exec true (init 1) run_to_first_return after_first_return.
Proof.
  unfold run_to_first_return.
  take (step_addTask _ _ increment 41).
  take (step_addTask _ _ boom 7).
  take step_close.
  take step_start.
  take step_runLoop.
  take step_iter.
  take step_launch.
  apply exec_nil.
Qed.

Lemma exec_parked : exec true (init 1) (take 8 wait_and_work) parked.
Proof.
  unfold wait_and_work. simpl.
  take step_start.
  take step_runLoop.
  take step_iter.
  take step_requestState.
  take (step_addTask _ _ increment 41).
  take step_wake_blocked.
  take step_iter.
  take step_runLoop.
  apply exec_nil.
Qed.

Lemma exec_wait_and_work :
  exec true (init 1) wait_and_work after_wait_and_work.
Proof.
  change wait_and_work with (take 8 wait_and_work ++ drop 8 wait_and_work).
  eapply exec_app; [exact exec_parked |].
  unfold wait_and_work. simpl.
  take step_requestState.
  take step_wake_waiting.
  take step_iter.
  take step_launch.
  take step_rest.
  take step_close.
  take step_iter.
  take step_runLoop.
  apply exec_nil.
Qed.

Lemma exec_closed_at_once :
  exec true (init 1) ([] ++ l_close :: []) closed_at_once.
Proof.
  simpl. take step_close.
  apply exec_nil.
Qed.

(** After [run] the scheduler is completed, and stays so. *)
Lemma completed_iff_drained_and_latched_witness :
  (completed (scheduler after_run) = true
   ↔ queueActive (scheduler after_run) = false
     ∧ queue (scheduler after_run) = []
     ∧ working (scheduler after_run) = 0%N)
  ∧ (∀ tr' sys', exec true after_run tr' sys' →
       completed (scheduler sys') = true ∧ launched tr' = []).
Proof.
  destruct (completed_iff_drained_and_latched true 1 run after_run)
    as [Hiff Hlatch]; [reflexivity | exact exec_run |].
  split; [exact Hiff | exact (Hlatch eq_refl)].
Defined.

(** The worker at the top of the loop after [run], and the worker whose
    first task has returned. *)
Lemma startScheduledWork_follows_protocol_witness :
  (startScheduledWork_iter
     (Worker.predicate (Worker.mkWorker Worker.WORK Worker.WORK))
     (scheduler after_run)
   = Some (Protocol.iteration
             (Worker.predicate (Worker.mkWorker Worker.WORK Worker.WORK))
             (scheduler after_run))
   ∧ (∃ sys', step true after_run (l_iter 0) sys')
   ∧ ∀ l sys', step true after_run l sys' → own_label 0 l = true →
       l = l_iter 0
       ∧ store sys' = store after_run
       ∧ match Protocol.iteration
                 (Worker.predicate (Worker.mkWorker Worker.WORK Worker.WORK))
                 (scheduler after_run) with
         | Break =>
             scheduler sys' = scheduler after_run
             ∧ threads sys'
               = <[0 := (Worker.mkWorker Worker.WORK Worker.WORK, at_top)]>
                   (threads after_run)
         | Block =>
             scheduler sys' = scheduler after_run
             ∧ threads sys'
               = <[0 := (Worker.mkWorker Worker.WORK Worker.WORK, blocked)]>
                   (threads after_run)
         | RunTask task s' =>
             scheduler sys' = s'
             ∧ threads sys'
               = <[0 := (Worker.mkWorker Worker.WORK Worker.WORK,
                         unlocked task)]> (threads after_run)
         end)
  ∧ (startScheduledWork_rest true
       (mkTask (Some (set_ended (set_started task0))))
       (scheduler after_first_return) (store after_first_return)
     = Ret ((Protocol.after_task (scheduler after_first_return)).1,
            store after_first_return,
            (Protocol.after_task (scheduler after_first_return)).2)
     ∧ (∃ sys', step true after_first_return (l_rest 0) sys')
     ∧ ∀ l sys', step true after_first_return l sys' →
         own_label 0 l = true →
         l = l_rest 0
         ∧ store sys' = store after_first_return
         ∧ scheduler sys'
           = (Protocol.after_task (scheduler after_first_return)).1
         ∧ threads sys'
           = <[0 := (Worker.mkWorker Worker.WORK Worker.WORK, in_scheduler)]>
               (threads after_first_return)).
Proof.
  split.
  - destruct (startScheduledWork_follows_protocol true 1 run after_run 0
                (Worker.mkWorker Worker.WORK Worker.WORK)
                (Worker.predicate (Worker.mkWorker Worker.WORK Worker.WORK)))
      as (Htop & _); [reflexivity | exact exec_run |].
    apply Htop. reflexivity.
  - destruct (startScheduledWork_follows_protocol true 1 run_to_first_return
                after_first_return 0
                (Worker.mkWorker Worker.WORK Worker.WORK)
                (Worker.predicate (Worker.mkWorker Worker.WORK Worker.WORK)))
      as (_ & _ & _ & Hback);
      [reflexivity | exact exec_run_to_first_return |].
    apply (Hback (mkTask (Some (set_ended (set_started task0))))).
    reflexivity.
Defined.

Lemma launch_publishes_outcome_witness :
  ∃ t' v,
    call true (mkTask (Some task0)) two_promises
    = Ret (mkTask (Some t'), <[promise task0 := Some v]> two_promises)
    ∧ started t' = true
    ∧ promise t' = promise task0
    ∧ future_get (<[promise task0 := Some v]> two_promises) (promise task0)
      = Some v
    ∧ match function task0 (args task0) with
      | Returns r => v = ReturnValue r
      | Throws TaskCancellation => v = Cancellation
      | Throws e => v = ExceptionPtr e
      end.
Proof.
  apply (launch_publishes_outcome true (mkTask (Some task0)) task0
           two_promises); reflexivity.
Defined.

(** [cancel] and the destructor on a task that is not started, [cancel] on
    the same task once started. *)
Lemma cancel_before_and_after_start_witness :
  (Task.cancel task1 two_promises
   = Ret (set_started task1,
          <[promise task1 := Some Cancellation]> two_promises)
   ∧ started (set_started task1) = true
   ∧ future_get (<[promise task1 := Some Cancellation]> two_promises)
       (promise task1)
     = Some Cancellation)
  ∧ Task.cancel (set_started task1) two_promises
    = Ret (set_started task1, two_promises)
  ∧ (∃ st', destroy true (mkTask (Some task1)) two_promises = Ret st'
            ∧ future_get st' (promise task1) = Some Cancellation).
Proof.
  destruct (cancel_before_and_after_start true (mkTask (Some task1)) task1
              two_promises eq_refl) as (Hcancel & _ & Hdrop).
  destruct (cancel_before_and_after_start true
              (mkTask (Some (set_started task1))) (set_started task1)
              two_promises eq_refl) as (_ & Hnoop & _).
  split; [apply Hcancel; by repeat split |].
  split; [apply Hnoop; reflexivity | apply Hdrop; by repeat split].
Defined.

Lemma addTask_closed_drops_open_pushes_witness :
  (∀ (task : Task nat nat nat) t (st : Store nat nat),
     base task = Some t → untouched t st →
     ∃ st', addTask true (scheduler closed_at_once) task st
            = Ret (scheduler closed_at_once, st', [])
            ∧ future_get st' (promise t) = Some Cancellation)
  ∧ (∀ f a,
       ∃ fut st',
         addTask_functor true (scheduler closed_at_once) f a
           (store closed_at_once)
         = Ret (scheduler closed_at_once, fut, st', [])
         ∧ store closed_at_once !! fut = None
         ∧ future_get st' fut = Some Cancellation)
  ∧ (∀ (s : Scheduler nat nat nat) task st,
       queueActive s = true →
       addTask true s task st
       = Ret (set_queue (queue s ++ [task]) s, st,
              [notify_one impl_variable])).
Proof.
  apply (addTask_closed_drops_open_pushes true 1 [] [] closed_at_once).
  exact exec_closed_at_once.
Defined.

(** What [launch] stores for a callable that throws, and what a second
    [launch] does. *)
Example launch_boom :
  launch true task1 two_promises
  = Ret (set_ended (set_started task1),
         <[1 := Some (ExceptionPtr (user_exception 7))]> two_promises).
Proof. reflexivity. Qed.

Example launch_self_cancel :
  launch false task2 three_promises
  = Ret (set_started task2, <[2 := Some Cancellation]> three_promises).
Proof. reflexivity. Qed.

Example launch_twice :
  (launch true (set_ended (set_started task0))
     (<[0 := Some (ReturnValue 42)]> two_promises)
   = Abort AssertionFailed)
  ∧ (launch false (set_started task0)
       (<[0 := Some (ReturnValue 42)]> two_promises)
     = Abort StdTerminate).
Proof. split; reflexivity. Qed.

(** Cancelling the open queue leaves it not completed; closing it then
    completes it. *)
Example cancel_then_close :
  ∃ s' st' ev,
    TaskQueue.cancel true open_queue two_promises = Ret (s', st', ev)
    ∧ completed s' = false
    ∧ completed (close s').1 = true
    ∧ (close s').2 = [notify_all base_variable; notify_all impl_variable].
Proof. eexists _, _, _. split; [reflexivity |]. by repeat split. Qed.

Lemma all_pending_open_queue : all_pending (queue open_queue) two_promises.
Proof.
  split.
  - repeat constructor; eexists; (split; [reflexivity |]); by repeat split.
  - apply (bool_decide_unpack _). by vm_compute.
Qed.

Lemma cancel_clears_queue_witness :
  ∃ s' st' ev,
    TaskQueue.cancel true open_queue two_promises = Ret (s', st', ev)
    ∧ queue s' = []
    ∧ queueActive s' = queueActive open_queue
    ∧ working s' = working open_queue
    ∧ (∀ p, p ∈ promises (queue open_queue) →
         future_get st' p = Some Cancellation)
    ∧ (∀ p, p ∉ promises (queue open_queue) →
         st' !! p = two_promises !! p)
    ∧ (if negb (queueActive open_queue)
          && bool_decide (working open_queue = 0%N)
       then completed s' = true
            ∧ ev = [notify_all base_variable; notify_all impl_variable]
       else completed s' = completed open_queue ∧ ev = [])
    ∧ (queueActive open_queue = true →
       completed s' = completed open_queue ∧ ev = []).
Proof.
  apply (cancel_clears_queue true open_queue two_promises).
  exact all_pending_open_queue.
Defined.

(** C8, as stated, fails: [cancel] on an open queue in which two tasks
    wait returns without a single notification, so no waiter is woken. *)
Lemma cancel_wakes_all_counterexample :
  TaskQueue.cancel true open_queue two_promises
  = Ret (set_queue [] open_queue,
         <[1 := Some Cancellation]> (<[0 := Some Cancellation]> two_promises),
         [])
  ∧ ¬ (notify_all impl_variable ∈ ([] : list Event)).
Proof. split; [reflexivity | apply not_elem_of_nil]. Qed.

(** In [run] the first task submitted is the first task called. *)
Lemma fifo_single_worker_witness : before 0 1 (launched run).
Proof.
  destruct (fifo_single_worker true run after_run 0 1) as [_ Hstrong].
  - exact exec_run.
  - exists [], [], []. reflexivity.
  - vm_compute. right. left.
  - apply Hstrong.
    + apply (bool_decide_unpack _). by vm_compute.
    + vm_compute. left.
Defined.

End ExampleFacts.

(** * More of the code *)

(** ** Requests to a worker *)

Section MoreWorkerFacts.
Import Worker.

(** X1.  [requestState] ends the program in exactly one case: a debug
    build, a request for TERMINATE, and a requested state that is not
    TERMINATE yet; what fails is the assertion. *)
Theorem requestState_aborts_iff (debug : bool) (w : SyncedWorker)
    (state : State) (c : Crash) :
  requestState debug w state = Abort c
  ↔ debug = true ∧ requestedState w ≠ TERMINATE ∧ state = TERMINATE
    ∧ c = AssertionFailed.
Proof.
  destruct debug, w as [cur []], state, c; simpl; split;
    first [ done | by intros (? & ? & ? & ?) | by repeat split ].
Qed.

(** X2.  A request that returns has stored the state asked for and has left
    [currentState] alone; making the same request again changes nothing and
    notifies nobody. *)
Theorem requestState_repeated (debug : bool) (w w' : SyncedWorker)
    (state : State) (ev : list Event) :
  requestState debug w state = Ret (w', ev) →
  requestedState w' = state
  ∧ currentState w' = currentState w
  ∧ requestState debug w' state = Ret (w', []).
Proof.
  destruct debug, w as [cur []], state; simpl; intros [= <- <-]; done.
Qed.

Lemma requestState_currentState (debug : bool) (w w' : SyncedWorker)
    (state : State) (ev : list Event) :
  requestState debug w state = Ret (w', ev) →
  currentState w' = currentState w.
Proof.
  destruct debug, w as [cur []], state; simpl; intros [= <- <-]; done.
Qed.

Lemma requestState_repeated_witness :
  requestedState (mkWorker WAIT WAIT) = WAIT
  ∧ currentState (mkWorker WAIT WAIT) = currentState init
  ∧ requestState true (mkWorker WAIT WAIT) WAIT
    = Ret (mkWorker WAIT WAIT, []).
Proof. apply (requestState_repeated true init _ WAIT []). reflexivity. Defined.

End MoreWorkerFacts.

(** ** Tasks run once *)

Section MoreTaskFacts.
Import Task More.
Context {R Args E : Type}.
Implicit Types (t : PackagedTask R Args E) (task : Task R Args E)
  (st : Store R E).

Lemma set_value_full st p (v v0 : TypedTaskResult R E) :
  st !! p = Some (Some v0) → set_value st p v = inr future_error.
Proof. unfold set_value. by intros ->. Qed.

Lemma launch_full t st (v0 : TypedTaskResult R E) :
  st !! promise t = Some (Some v0) →
  launch false t st = Abort StdTerminate.
Proof.
  intros Hp. unfold launch. simpl.
  destruct (function _ _) as [r | [| | e]];
    by rewrite !(set_value_full _ _ _ _ Hp).
Qed.

(** A value in a shared state stays: [set_value] writes to an empty slot
    or not at all. *)
Lemma set_value_keeps st p (v : TypedTaskResult R E) st' q v0 :
  set_value st p v = inl st' → st !! q = Some (Some v0) →
  st' !! q = Some (Some v0).
Proof.
  unfold set_value. destruct (st !! p) as [[v1 |] |] eqn:Hp; try done.
  intros [= <-] Hq. rewrite lookup_insert_ne; [done | congruence].
Qed.

Lemma cancel_keeps t st t' st' q (v0 : TypedTaskResult R E) :
  cancel t st = Ret (t', st') → st !! q = Some (Some v0) →
  st' !! q = Some (Some v0).
Proof.
  unfold cancel. destruct (started t); simpl.
  - by intros [= _ <-].
  - destruct (set_value _ _ _) eqn:Hsv; [| done].
    intros [= _ <-]. by eapply set_value_keeps.
Qed.

Lemma destroy_keeps debug task st st' q (v0 : TypedTaskResult R E) :
  destroy debug task st = Ret st' → st !! q = Some (Some v0) →
  st' !! q = Some (Some v0).
Proof.
  unfold destroy. destruct (base task) as [t |]; [| by intros [= <-]].
  destruct (if debug then _ else _); [| done]. simpl.
  destruct (cancel t st) as [[t' st1] |] eqn:Hc; [| done]. simpl.
  intros [= <-]. by eapply cancel_keeps.
Qed.

Lemma destroy_all_keeps debug (ts : list (Task R Args E)) st st' q
    (v0 : TypedTaskResult R E) :
  destroy_all debug ts st = Ret st' → st !! q = Some (Some v0) →
  st' !! q = Some (Some v0).
Proof.
  revert st. induction ts as [| task ts IH]; intros st; simpl.
  - by intros [= <-].
  - destruct (destroy debug task st) as [st1 |] eqn:Hd; [| done]. simpl.
    intros Hrest Hq. eapply IH; [done |]. by eapply destroy_keeps.
Qed.

Lemma call_keeps debug task st task' st' q (v0 : TypedTaskResult R E) :
  call debug task st = Ret (task', st') → st !! q = Some (Some v0) →
  st' !! q = Some (Some v0).
Proof.
  unfold call. destruct (base task) as [t |]; [| done].
  destruct (launch debug t st) as [[t1 st1] |] eqn:Hl; [| done].
  simpl. intros [= _ <-].
  apply launch_Ret in Hl as [v Hv]. by eapply set_value_keeps.
Qed.

(** X3.  A task runs once.  After a call of the task has returned, a second
    call ends the program (the assertion in a debug build; in a release
    build the exception of the promise, which leaves a handler of the
    [noexcept] function), and destroying the task leaves the shared states
    as they are. *)
Theorem task_runs_once debug task st task' st' :
  call debug task st = Ret (task', st') →
  call debug task' st'
  = Abort (if debug then AssertionFailed else StdTerminate)
  ∧ destroy debug task' st' = Ret st'.
Proof.
  intros Hcall.
  destruct (call_Ret _ _ _ _ _ Hcall) as (t & t' & Hb & Hb' & Hp & Hs & He).
  split; [| by eapply destroy_started].
  unfold call in Hcall |- *. rewrite Hb in Hcall. rewrite Hb'.
  destruct (launch debug t st) as [[t1 st1] |] eqn:Hl; [| done].
  simpl in Hcall. injection Hcall as _ <-.
  apply launch_Ret in Hl as [v Hv]. apply set_value_inl in Hv as ->.
  destruct debug.
  - unfold launch. by rewrite Hs.
  - erewrite launch_full; [done |]. rewrite Hp. apply lookup_insert_eq.
Qed.

End MoreTaskFacts.

(** ** What a task created with [Task::create] does *)

Section ForwardingFacts.
Import Task More Forwarding.
Context {R A E Mem : Type}.
Variable bad_function_call : E.
Implicit Types (st : Store R E) (args : Tuple A Mem) (m : Mem).

Lemma call_packaged debug p (functor : Function R A E) args m st :
  st !! p = None →
  call debug (mkTask (Some (packaged bad_function_call p functor args m)))
    (<[p := None]> st)
  = Ret (mkTask (Some (let t := set_started
                                  (packaged bad_function_call p functor
                                     args m) in
                       if debug then set_ended t else t)),
         <[p := Some (outcome (apply bad_function_call functor args m))]> st).
Proof.
  intros Hp.
  destruct (launch_untouched debug
              (packaged bad_function_call p functor args m)
              (<[p := None]> st) eq_refl (lookup_insert_eq _ _ _))
    as (v & Hl & Hv).
  unfold call. simpl. rewrite Hl. simpl. rewrite insert_insert_eq.
  simpl in Hv. unfold apply, outcome.
  destruct functor as [f |]; simpl in *.
  - by destruct (f (contents args m)) as [r | [| | e]]; subst v.
  - by subst v.
Qed.

(** X4.  What the future that [Task::create] returns gets.  The shared
    state of the future is new.  For a functor that can be called, a call of
    the new task returns and puts in that future, and in no other, the
    outcome of the functor on the arguments as the tuple gives them at the
    time of the call: the value given at creation for an argument passed as
    an rvalue, the value the caller's variable has at the call for an
    argument passed as an lvalue, which the tuple holds by reference.  For
    an empty functor a debug build stops at the assertion of the
    constructor; a release build makes a task whose call puts the
    [std::bad_function_call] in the future. *)
Theorem create_call_publishes debug args st m :
  (∀ f, ∃ task fut task',
     create bad_function_call debug (Some f) args st
     = Ret (task, fut, <[fut := None]> st)
     ∧ st !! fut = None
     ∧ call debug (task m) (<[fut := None]> st)
       = Ret (task', <[fut := Some (outcome (f (contents args m)))]> st)
     ∧ getFuture debug task' = Ret fut)
  ∧ create bad_function_call true None args st = Abort AssertionFailed
  ∧ ∃ task fut task',
      create bad_function_call false None args st
      = Ret (task, fut, <[fut := None]> st)
      ∧ st !! fut = None
      ∧ call false (task m) (<[fut := None]> st)
        = Ret (task',
               <[fut := Some (ExceptionPtr
                                (user_exception bad_function_call))]> st)
      ∧ getFuture false task' = Ret fut.
Proof.
  assert (st !! fresh (dom st) = None) as Hfresh
    by (apply not_elem_of_dom, is_fresh).
  split; [| split; [done |]].
  - intros f. eexists _, _, _. split; [by destruct debug |].
    split; [done |]. split.
    + by rewrite (call_packaged debug _ (Some f) args m st Hfresh).
    + by destruct debug.
  - eexists _, _, _. split; [done |]. split; [done |]. split.
    + by rewrite (call_packaged false _ None args m st Hfresh).
    + done.
Qed.

End ForwardingFacts.

(** ** Results without their type, and the message of a failure *)

Section UntypedFacts.
Import Task More Untyped.
Context {R Args E : Type}.
Variable what : E → option string.
Variable future_error_what : string.

(** X5.  The untyped view of a result agrees with the result: [success()]
    is [success()] of the result, also for a [void] task, whose pointer is
    the address of [SUCCESS]; and exactly one of the three pointers is
    not null. *)
Theorem untyped_view_agrees (u : TaskResult R E) :
  success u = typed_success u
  ∧ (getReturnValue u = None ↔ success u = false)
  ∧ (is_Some (getReturnValue u) ∨ is_Some (getCancellation u)
     ∨ is_Some (getException u))
  ∧ ¬ (is_Some (getReturnValue u) ∧ is_Some (getCancellation u))
  ∧ ¬ (is_Some (getReturnValue u) ∧ is_Some (getException u))
  ∧ ¬ (is_Some (getCancellation u) ∧ is_Some (getException u)).
Proof.
  destruct u as [[r | | e] | [[] | | e]]; simpl;
    repeat split; try done; eauto;
    intros [[? ?] [? ?]]; done.
Qed.

(** X6.  What a caller reads from the future of a task that was called:
    no message when the callable returned or threw [TaskCancellation];
    else the [what()] of the exception, or "unknown exception" when that
    is not a [std::exception]. *)
Theorem call_exception_message debug (task : Task R Args E)
    (t : PackagedTask R Args E) (st : Store R E) :
  base task = Some t →
  untouched t st →
  ∃ task' st',
    call debug task st = Ret (task', st')
    ∧ getExceptionMessage what future_error_what
        <$> future_get st' (future t)
      = Some match function t (args t) with
             | Returns _ | Throws TaskCancellation => None
             | Throws future_error => Some future_error_what
             | Throws (user_exception u) =>
                 Some (default "unknown exception"%string (what u))
             end.
Proof.
  intros Hb (Hs & _ & Hp).
  destruct (launch_untouched debug t st Hs Hp) as (v & Hl & Hv).
  eexists _, _. unfold call. rewrite Hb, Hl. simpl.
  split; [done |]. unfold future. rewrite future_get_insert. simpl.
  f_equal. destruct (function t (args t)) as [r | [| | u]]; subst v;
    try done.
  unfold getExceptionMessage. simpl. by destruct (what u).
Qed.

(** X7.  A result has a message exactly when it holds an exception. *)
Theorem getExceptionMessage_iff (r : TypedTaskResult R E) :
  is_Some (getExceptionMessage what future_error_what r)
  ↔ is_Some (Task.getException r).
Proof.
  destruct r as [v | | [| | u]]; simpl; unfold getExceptionMessage; simpl;
    split; intros [? ?]; try done; eauto.
  destruct (what u); eauto.
Qed.

End UntypedFacts.

(** ** DelayedStart *)

Section DelayedStartFacts.
Import DelayedStart.

Lemma run_snoc (cs : list Call) (c : Call) :
  run (cs ++ [c]) = do_call (run cs) c.
Proof. unfold run. by rewrite foldl_snoc. Qed.

Lemma made_snoc (cs : list Call) (c : Call) :
  made (cs ++ [c])
  = made cs ++ match c with make_worker this => [this] | _ => [] end.
Proof. unfold made. rewrite omap_app. by destruct c. Qed.

(** The workers started so far and the worker held are the workers made,
    in order. *)
Lemma run_made (cs : list Call) :
  (run cs).2 ++ option_list (run cs).1 = made cs.
Proof.
  induction cs as [| c cs IH] using rev_ind; [done |].
  rewrite run_snoc, made_snoc, <- IH.
  destruct (run cs) as [[held |] started], c as [this |]; simpl;
    by rewrite <- ?app_assoc, ?app_nil_r.
Qed.

(** X8.  When a [DelayedStart] is destroyed, [start()] has been called on
    every worker made with it, once on each, in the order in which they
    were made, whatever calls of [start()] came in between. *)
Theorem DelayedStart_starts_each_once (cs : list Call) :
  (run cs).2 ++ destructor (run cs).1 = made cs.
Proof.
  rewrite <- run_made. f_equal. by destruct (run cs).1.
Qed.

(** X9.  Making a worker with a [DelayedStart] starts the worker made
    before it, if that one still waits, and holds the new one back: right
    afterwards all earlier workers have been started and the new one has
    not; a call of [start()] leaves the [DelayedStart] empty.  Without a
    [DelayedStart] the constructor starts the worker at once. *)
Theorem DelayedStart_holds_last (cs : list Call) (this : nat) :
  run (cs ++ [make_worker this]) = (Some this, made cs)
  ∧ isEmpty (run (cs ++ [make_worker this])).1 = false
  ∧ run (cs ++ [call_start]) = (None, made cs)
  ∧ isEmpty (run (cs ++ [call_start])).1 = true
  ∧ Worker_constructor (Some (run cs).1) this
    = (Some (Some this), option_list (run cs).1)
  ∧ Worker_constructor None this = (None, [this]).
Proof.
  rewrite !run_snoc, <- run_made.
  destruct (run cs) as [[held |] started]; simpl;
    by rewrite ?app_nil_r.
Qed.

End DelayedStartFacts.

(** ** Closing the queue *)

Section MoreTaskQueueFacts.
Import Task TaskQueue.
Context {R Args E : Type}.
Implicit Types (s : Scheduler R Args E).

(** X10.  [close] closes the queue and touches nothing but [queueActive]
    and [completed]; the scheduler is completed afterwards exactly when it
    was before or no task waits and no worker runs one; and a second
    [close] leaves the state as the first one left it. *)
Theorem close_idempotent s :
  isClosed (close s).1 = true
  ∧ queue (close s).1 = queue s
  ∧ working (close s).1 = working s
  ∧ completed (close s).1
    = completed s || (bool_decide (working s = 0%N) && empty (queue s))
  ∧ (close (close s).1).1 = (close s).1.
Proof.
  unfold isClosed, close. rewrite !checkCompleted_spec.
  destruct s as [c q a wk]; simpl.
  destruct (bool_decide (wk = 0%N)) eqn:Hw, q as [| task q]; simpl;
    rewrite ?Hw; simpl; rewrite ?orb_true_r, ?orb_false_r; done.
Qed.

End MoreTaskQueueFacts.

(** ** The life of a worker *)

Section LifecycleFacts.
Import Task TaskQueue System More.
Context {R Args E : Type}.
Implicit Types (sys : System R Args E) (pc : PC R Args E).

Lemma LifecycleInv_init n :
  LifecycleInv (init (R := R) (Args := Args) (E := E) n).
Proof.
  intros i w pc Hl. apply lookup_replicate in Hl as [Heq _].
  simplify_eq. by repeat split.
Qed.

Lemma LifecycleInv_insert (ths : list (Worker.SyncedWorker * PC R Args E))
    i w pc w' pc' :
  (∀ j w0 pc0, ths !! j = Some (w0, pc0) → lifecycle_ok w0 pc0) →
  ths !! i = Some (w, pc) →
  (lifecycle_ok w pc → lifecycle_ok w' pc') →
  ∀ j w0 pc0, <[i := (w', pc')]> ths !! j = Some (w0, pc0) →
    lifecycle_ok w0 pc0.
Proof.
  intros Hall Hl Hok j w0 pc0 Hj.
  apply list_lookup_insert_Some in Hj as [(-> & [= <- <-] & _) | [_ Hj]].
  - apply Hok. by eapply Hall.
  - by eapply Hall.
Qed.

Lemma step_LifecycleInv debug sys l sys' :
  LifecycleInv sys → step debug sys l sys' → LifecycleInv sys'.
Proof.
  unfold LifecycleInv. intros HI Hstep.
  destruct Hstep as
    [ sys f a s' fut st' ev Hfe Hadd
    | sys Hfe
    | sys s' st' ev Hfe Hcan
    | sys Hfe
    | sys i w pc state w' ev Hl Hreq
    | sys i w Hl
    | sys i w w' nx Hl Hrun
    | sys i w Hl
    | sys i w Hl
    | sys i w it Hl Hit
    | sys i w task fut task' st' Hl Hfut Hcall
    | sys i w task s' st' ev Hl Hrest ]; simpl; try done.
  - eapply LifecycleInv_insert; [done | done |].
    apply requestState_currentState in Hreq. unfold lifecycle_ok.
    by rewrite Hreq.
  - eapply LifecycleInv_insert; [done | done |].
    intros (H1 & _ & H3). specialize (H3 eq_refl).
    unfold lifecycle_ok. rewrite H3. by repeat split.
  - destruct (after_block w' nx) as [w2 pc2] eqn:Hab.
    eapply LifecycleInv_insert; [done | done |]. intros _.
    unfold Worker.runLoop_top in Hrun. simpl in Hrun.
    destruct w as [cur []], (isCompleted (scheduler sys)); simpl in Hrun;
      injection Hrun as <- <-; simpl in Hab; injection Hab as <- <-;
      by repeat split.
  - destruct (after_block w _) as [w2 pc2] eqn:Hab.
    eapply LifecycleInv_insert; [done | done |].
    intros (H1 & H2 & _). specialize (H2 eq_refl).
    destruct w as [cur req]. simpl in H2. subst cur.
    destruct req, (isCompleted (scheduler sys)); simpl in Hab;
      injection Hab as <- <-; by repeat split.
  - eapply LifecycleInv_insert; [done | done |].
    intros (H1 & _). repeat split; try done.
    intros Hc. by apply H1 in Hc.
  - eapply LifecycleInv_insert; [done | done |].
    intros (H1 & _). destruct it; repeat split; try done;
      intros Hc; by apply H1 in Hc.
  - eapply LifecycleInv_insert; [done | done |].
    intros (H1 & _). repeat split; try done.
    intros Hc. by apply H1 in Hc.
  - eapply LifecycleInv_insert; [done | done |].
    intros (H1 & _). repeat split; try done.
    intros Hc. by apply H1 in Hc.
Qed.

Lemma exec_LifecycleInv debug n tr sys :
  exec debug (init n) tr sys → LifecycleInv sys.
Proof.
  remember (init n) as sys0 eqn:H0. intros Hex.
  induction Hex as [| sys tr sys' l sys'' Hex IH Hstep].
  - subst. apply LifecycleInv_init.
  - eapply step_LifecycleInv; [by apply IH | done].
Qed.

(** X11.  In every state of a program, [getState()] of a worker is
    TERMINATE exactly when its thread has finished [start]; it is WAIT
    while the worker is not started and while its thread waits on the
    worker's condition variable.  So the assertion of the destructor of
    [Worker] holds exactly when the thread has finished, and [wait()]
    returns only then. *)
Theorem worker_lifecycle debug n tr sys i w pc :
  exec debug (init n) tr sys →
  threads sys !! i = Some (w, pc) →
  (Worker.getState w = Worker.TERMINATE ↔ pc = terminated)
  ∧ (pc = waiting ∨ pc = unstarted → Worker.getState w = Worker.WAIT)
  ∧ (Worker_destructor true w = Ret tt ↔ pc = terminated)
  ∧ (SyncedWorker_wait_returns i sys = true → pc = terminated).
Proof.
  intros Hex Hl.
  destruct (exec_LifecycleInv _ _ _ _ Hex _ _ _ Hl) as (H1 & H2 & H3).
  unfold Worker.getState, Worker_destructor, SyncedWorker_wait_returns.
  rewrite Hl. unfold Worker.getState. repeat split.
  - apply H1.
  - apply H1.
  - intros [-> | ->]; auto.
  - intros Ha. apply H1. by destruct (Worker.currentState w).
  - intros ->. by rewrite (proj2 H1 eq_refl).
  - intros [_ Hb]%andb_prop. apply H1.
    by apply bool_decide_eq_true in Hb.
Qed.

Lemma step_terminated debug sys l sys' i w :
  step debug sys l sys' →
  threads sys !! i = Some (w, terminated) →
  own i l = false
  ∧ ∃ w', threads sys' !! i = Some (w', terminated)
          ∧ Worker.currentState w' = Worker.currentState w.
Proof.
  intros Hstep Hi.
  assert (i < length (threads sys)) as Hlen by by eapply lookup_lt_Some.
  destruct Hstep; simpl; try (split; [done | by eauto]).
  all: destruct (decide (i0 = i)) as [-> | Hne];
    [| rewrite list_lookup_insert_ne by done;
       split; [by rewrite ?bool_decide_eq_false_2 | by eauto]].
  all: simplify_eq.
  split; [done |]. rewrite list_lookup_insert_eq by done.
  eexists. split; [done |]. by eapply requestState_currentState.
Qed.

(** X12.  A worker whose thread has finished stays finished: in whatever
    the program does next its thread takes no step, and [getState()] keeps
    saying TERMINATE, whatever state is requested of it. *)
Theorem terminated_is_final debug sys tr sys' i w :
  exec debug sys tr sys' →
  threads sys !! i = Some (w, terminated) →
  Forall (λ l, own i l = false) tr
  ∧ ∃ w', threads sys' !! i = Some (w', terminated)
          ∧ Worker.getState w' = Worker.getState w.
Proof.
  intros Hex Hi. induction Hex as [| sys tr sys' l sys'' Hex IH Hstep].
  - split; [constructor | by eauto].
  - destruct (IH Hi) as (Hown & w1 & H1 & Hc1).
    destruct (step_terminated _ _ _ _ _ _ Hstep H1) as (Ho & w2 & H2 & Hc2).
    split.
    + apply Forall_app. split; [done | by constructor].
    + exists w2. split; [done |]. unfold Worker.getState in *. congruence.
Qed.

(** X13.  A worker's thread finishes only from the top of [runLoop] or
    from its wait there, and only for one of two reasons: TERMINATE is the
    requested state, or the scheduler is completed.  [getState()] is then
    TERMINATE and the requested state is what it was. *)
Theorem termination_cause debug sys l sys' i w pc w' :
  step debug sys l sys' →
  threads sys !! i = Some (w, pc) →
  pc ≠ terminated →
  threads sys' !! i = Some (w', terminated) →
  (pc = at_top ∧ l = l_runLoop i ∨ pc = waiting ∧ l = l_wake i)
  ∧ (Worker.requestedState w = Worker.TERMINATE
     ∨ isCompleted (scheduler sys) = true)
  ∧ Worker.getState w' = Worker.TERMINATE
  ∧ Worker.requestedState w' = Worker.requestedState w.
Proof.
  intros Hstep Hi Hpc Hi'.
  assert (i < length (threads sys)) as Hlen by by eapply lookup_lt_Some.
  destruct Hstep as
    [ sys f a s' fut st' ev Hfe Hadd
    | sys Hfe
    | sys s' st' ev Hfe Hcan
    | sys Hfe
    | sys j w0 pc0 state w1 ev Hl Hreq
    | sys j w0 Hl
    | sys j w0 w1 nx Hl Hrun
    | sys j w0 Hl
    | sys j w0 Hl
    | sys j w0 it Hl Hit
    | sys j w0 task fut task' st' Hl Hfut Hcall
    | sys j w0 task s' st' ev Hl Hrest ]; simpl in *; try congruence.
  all: destruct (decide (j = i)) as [-> | Hne];
    [rewrite list_lookup_insert_eq in Hi' by done
    | rewrite list_lookup_insert_ne in Hi' by done; congruence].
  all: simplify_eq; try done.
  - unfold Worker.runLoop_top in Hrun. simpl in Hrun.
    destruct w0 as [cur []], (isCompleted (scheduler sys)); simpl in *;
      simplify_eq; unfold after_block in Hi'; simpl in Hi';
      simplify_eq; simpl; eauto 10.
  - destruct w0 as [cur []], (isCompleted (scheduler sys));
      unfold after_block in Hi'; simpl in *;
      simplify_eq; simpl; eauto 10.
  - by destruct it.
Qed.


End LifecycleFacts.

(** ** Tasks and outcomes in executions *)

Section OutcomeFacts.
Import Task TaskQueue System More.
Context {R Args E : Type}.
Implicit Types (sys : System R Args E) (st : Store R E).

Lemma future_get_Some st p (v : TypedTaskResult R E) :
  future_get st p = Some v ↔ st !! p = Some (Some v).
Proof.
  unfold future_get. destruct (st !! p) as [[v1 |] |]; simpl; split;
    intros Heq; by simplify_eq.
Qed.

Lemma step_keeps debug sys l sys' q (v0 : TypedTaskResult R E) :
  step debug sys l sys' →
  store sys !! q = Some (Some v0) → store sys' !! q = Some (Some v0).
Proof.
  intros Hstep Hq.
  destruct Hstep as
    [ sys f a s' fut st' ev Hfe Hadd
    | sys Hfe
    | sys s' st' ev Hfe Hcan
    | sys Hfe
    | sys i w pc state w' ev Hl Hreq
    | sys i w Hl
    | sys i w w' nx Hl Hrun
    | sys i w Hl
    | sys i w Hl
    | sys i w it Hl Hit
    | sys i w task fut task' st' Hl Hfut Hcall
    | sys i w task s' st' ev Hl Hrest ]; simpl; try done.
  - assert (<[fresh (dom (store sys)) := None]> (store sys) !! q
            = Some (Some v0)) as Hq1.
    { rewrite lookup_insert_ne; [done |]. intros Heq.
      apply (is_fresh (dom (store sys))). rewrite Heq.
      apply elem_of_dom. by eexists. }
    unfold addTask_functor, create, addTask in Hadd. simpl in Hadd.
    destruct (queueActive (scheduler sys)); simpl in Hadd.
    + by injection Hadd as _ _ <- _.
    + destruct (destroy _ _ _) as [st1 |] eqn:Hd; [| done]. simpl in Hadd.
      injection Hadd as _ _ <- _. by eapply destroy_keeps.
  - unfold TaskQueue.cancel in Hcan.
    destruct (destroy_all _ _ _) as [st1 |] eqn:Hd; [| done].
    simpl in Hcan. destruct (checkCompleted _) as [s2 ev2].
    injection Hcan as _ <- _. by eapply destroy_all_keeps.
  - by eapply call_keeps.
  - unfold startScheduledWork_rest, runNextTask_rest in Hrest.
    destruct (checkCompleted (scheduler sys)) as [s1 ev1].
    destruct (destroy _ _ _) as [st1 |] eqn:Hd; [| done].
    simpl in Hrest. destruct (checkCompleted _) as [s3 ev3].
    injection Hrest as _ <- _. by eapply destroy_keeps.
Qed.

Lemma exec_keeps debug sys tr sys' q (v0 : TypedTaskResult R E) :
  exec debug sys tr sys' →
  store sys !! q = Some (Some v0) → store sys' !! q = Some (Some v0).
Proof.
  intros Hex Hq. induction Hex as [| ? ? ? ? ? _ IH Hstep]; [done |].
  eapply step_keeps; [done | by apply IH].
Qed.

(** X15.  What a future holds is final: once a value is in the shared
    state of a promise, no call to the queue and no step of a worker
    changes or removes it. *)
Theorem published_outcome_is_final debug sys tr sys' p
    (v : TypedTaskResult R E) :
  exec debug sys tr sys' →
  future_get (store sys) p = Some v →
  future_get (store sys') p = Some v.
Proof.
  rewrite !future_get_Some. apply exec_keeps.
Qed.

Lemma step_launch_outcome debug sys i fut sys' :
  step debug sys (l_launch i fut) sys' →
  ∃ v, store sys' !! fut = Some (Some v).
Proof.
  inversion 1 as
    [ | | | | | | | | | | sys0 j w task fut0 task' st' Hl Hfut Hcall | ];
    subst. simpl.
  apply getFuture_Ret in Hfut as (t & Hb & ->).
  unfold call in Hcall. rewrite Hb in Hcall.
  destruct (launch debug t (store sys)) as [[t1 st1] |] eqn:Hlaunch;
    [| done].
  simpl in Hcall. injection Hcall as _ <-.
  apply launch_Ret in Hlaunch as [v Hv]. apply set_value_inl in Hv as ->.
  exists v. apply lookup_insert_eq.
Qed.

Lemma exec_launched_outcome debug sys tr sys' p :
  exec debug sys tr sys' → p ∈ launched tr →
  ∃ v, store sys' !! p = Some (Some v).
Proof.
  intros Hex. induction Hex as [| sys tr sys' l sys'' Hex IH Hstep].
  - intros Hp. by apply elem_of_nil in Hp.
  - rewrite launched_snoc. intros [Hp | Hp]%elem_of_app.
    + destruct (IH Hp) as [v Hv]. exists v. by eapply step_keeps.
    + destruct l; try by apply elem_of_nil in Hp.
      apply list_elem_of_singleton in Hp as ->.
      by eapply step_launch_outcome.
Qed.

Lemma held_perm (ths : list (Worker.SyncedWorker * PC R Args E))
    i w pc w' pc' :
  ths !! i = Some (w, pc) →
  option_list (held_of pc') ++ held ths
  ≡ₚ option_list (held_of pc) ++ held (<[i := (w', pc')]> ths).
Proof.
  revert i.
  induction ths as [| th ths IH]; intros [| i] Hl; simpl in *; try done.
  - injection Hl as ->. simpl. apply Permutation_app_swap_app.
  - rewrite (Permutation_app_swap_app (option_list (held_of pc'))).
    rewrite (Permutation_app_swap_app (option_list (held_of pc))).
    f_equiv. by apply IH.
Qed.

(** Every step but [cancel] moves promises along and loses none. *)
Lemma step_perm debug sys l sys' :
  step debug sys l sys' →
  l ≠ l_cancel →
  launched [l] ++ held (threads sys') ++ promises (queue (scheduler sys'))
  ≡ₚ held (threads sys) ++ promises (queue (scheduler sys))
     ++ match l with
        | l_addTask fut => if queueActive (scheduler sys) then [fut] else []
        | _ => []
        end.
Proof.
  intros Hstep Hl_cancel.
  destruct Hstep as
    [ sys f a s' fut st' ev Hfe Hadd
    | sys Hfe
    | sys s' st' ev Hfe Hcan
    | sys Hfe
    | sys i w pc state w' ev Hl Hreq
    | sys i w Hl
    | sys i w w' nx Hl Hrun
    | sys i w Hl
    | sys i w Hl
    | sys i w it Hl Hit
    | sys i w task fut task' st' Hl Hfut Hcall
    | sys i w task s' st' ev Hl Hrest ]; simpl; rewrite ?app_nil_r;
    try done.
  - by apply addTask_functor_Ret in Hadd as (_ & _ & ->).
  - unfold close.
    by destruct (checkCompleted_fields
                   (set_queueActive false (scheduler sys))) as (-> & _).
  - unfold destructor.
    by destruct (checkCompleted_fields
                   (set_queueActive false (scheduler sys))) as (-> & _).
  - by rewrite (held_insert _ _ _ _ _ _ Hl eq_refl).
  - by rewrite (held_insert _ _ _ _ w at_top Hl eq_refl).
  - destruct (after_block w' nx) as [w2 pc2] eqn:Hab.
    rewrite (held_insert _ _ _ _ _ _ Hl); [done |].
    apply (f_equal snd) in Hab. simpl in Hab. subst pc2. by destruct nx.
  - destruct (after_block w _) as [w2 pc2] eqn:Hab.
    rewrite (held_insert _ _ _ _ _ _ Hl); [done |].
    apply (f_equal snd) in Hab. simpl in Hab. subst pc2.
    by destruct (Worker.runLoop_inner _ _).
  - by rewrite (held_insert _ _ _ _ w in_scheduler Hl eq_refl).
  - destruct (startScheduledWork_iter_cases (Worker.predicate w)
                (scheduler sys))
      as [[Heq _] | [(Heq & _) | (task & rest & Heq & _ & Hq & _)]];
      rewrite Heq in Hit; injection Hit as <-; simpl.
    + by rewrite (held_insert _ _ _ _ w at_top Hl eq_refl).
    + by rewrite (held_insert _ _ _ _ w blocked Hl eq_refl).
    + pose proof (held_perm _ _ _ _ w (unlocked task) Hl) as Hp.
      simpl in Hp. rewrite <- Hp, Hq, promises_cons.
      replace (promises [task]) with (option_list (promise <$> base task))
        by (unfold promises; simpl; by destruct (promise <$> base task)).
      rewrite <- !app_assoc. apply Permutation_app_swap_app.
  - apply getFuture_Ret in Hfut as (t & Hb & ->).
    pose proof (held_perm _ _ _ _ w (executed task') Hl) as Hp.
    simpl in Hp. rewrite Hb in Hp. simpl in Hp. by rewrite Hp.
  - apply startScheduledWork_rest_Ret in Hrest as [-> _].
    by rewrite (held_insert _ _ _ _ w in_scheduler Hl eq_refl).
Qed.

Lemma OnceInv_init n :
  OnceInv [] (init (R := R) (Args := Args) (E := E) n).
Proof.
  split; simpl; rewrite held_replicate; simpl.
  - constructor.
  - intros p Hp. by apply elem_of_nil in Hp.
Qed.

Lemma step_OnceInv debug tr sys l sys' :
  TraceInv tr sys → OnceInv tr sys → step debug sys l sys' →
  OnceInv (tr ++ [l]) sys'.
Proof.
  intros [Hdom _ _] [Hnd Hsub] Hstep.
  destruct (decide (l = l_cancel)) as [-> | Hl].
  - inversion Hstep as [| | sys0 s' st' ev Hfe Hcan | | | | | | | | |];
      subst. apply cancel_Ret in Hcan as [Hq _].
    split; simpl; rewrite launched_snoc, ?submitted_snoc, Hq; simpl;
      rewrite !app_nil_r.
    + rewrite app_assoc in Hnd. by apply NoDup_app in Hnd as (? & _).
    + intros p Hp. apply Hsub. rewrite app_assoc.
      apply elem_of_app. by left.
  - pose proof (step_perm _ _ _ _ Hstep Hl) as Hp.
    assert (launched (tr ++ [l]) ++ held (threads sys')
              ++ promises (queue (scheduler sys'))
            ≡ₚ (launched tr ++ held (threads sys)
                  ++ promises (queue (scheduler sys)))
               ++ match l with
                  | l_addTask fut =>
                      if queueActive (scheduler sys) then [fut] else []
                  | _ => []
                  end) as Hall.
    { rewrite launched_snoc.
      replace (match l with l_launch _ fut => [fut] | _ => [] end)
        with (launched [l]) by by destruct l.
      rewrite <- !app_assoc. f_equiv. by rewrite Hp. }
    assert (∀ p, p ∈ (match l with
                      | l_addTask fut =>
                          if queueActive (scheduler sys) then [fut] else []
                      | _ => []
                      end) →
                 p ∈ submitted (tr ++ [l])
                 ∧ p ∉ launched tr ++ held (threads sys)
                       ++ promises (queue (scheduler sys))) as Hnew.
    { intros p Hin. destruct l; try by apply elem_of_nil in Hin.
      destruct (queueActive (scheduler sys));
        [| by apply elem_of_nil in Hin].
      apply list_elem_of_singleton in Hin as ->.
      split.
      - rewrite submitted_snoc. apply elem_of_app. right. by left.
      - intros Hold. apply Hsub, Hdom in Hold.
        inversion Hstep as [sys0 f a s' fut st' ev Hfe Hadd | | | | | | | | | | |];
          subst.
        apply addTask_functor_Ret in Hadd as (-> & _).
        by apply (is_fresh (dom (store sys))). }
    split.
    + rewrite Hall. apply NoDup_app. split; [done |]. split.
      * intros p Hold Hin. by apply Hnew in Hin as [_ Hnot].
      * destruct l; try constructor.
        destruct (queueActive (scheduler sys)); [| constructor].
        apply NoDup_singleton.
    + intros p Hin. rewrite Hall in Hin.
      apply elem_of_app in Hin as [Hin | Hin].
      * rewrite submitted_snoc. apply elem_of_app. left. by apply Hsub.
      * by apply Hnew in Hin as [? _].
Qed.

Lemma exec_OnceInv debug n tr sys :
  exec debug (init n) tr sys → OnceInv tr sys.
Proof.
  intros Hex. remember (init n) as sys0 eqn:H0.
  induction Hex as [| sys tr sys' l sys'' Hex IH Hstep].
  - subst. apply OnceInv_init.
  - subst. eapply step_OnceInv; [| by apply IH | done].
    by eapply exec_TraceInv.
Qed.

(** X16.  With any number of workers, no task is called twice.  In every
    execution the futures of the tasks called are pairwise different; each
    of them is the future of a task that was submitted, holds a value, and
    belongs neither to a task that waits in the queue nor to one that a
    worker is about to call. *)
Theorem no_task_called_twice debug n tr sys :
  exec debug (init n) tr sys →
  NoDup (launched tr)
  ∧ ∀ p, p ∈ launched tr →
      p ∈ submitted tr
      ∧ is_Some (future_get (store sys) p)
      ∧ p ∉ held (threads sys) ++ promises (queue (scheduler sys)).
Proof.
  intros Hex. destruct (exec_OnceInv _ _ _ _ Hex) as [Hnd Hsub].
  apply NoDup_app in Hnd as (Hnd & Hdisj & _).
  split; [done |]. intros p Hp. split; [| split].
  - apply Hsub. apply elem_of_app. by left.
  - destruct (exec_launched_outcome _ _ _ _ _ Hex Hp) as [v Hv].
    exists v. by apply future_get_Some.
  - by apply Hdisj.
Qed.

(** X17.  In every state of a program whose client code hands tasks to
    the queue with [addTask(functor, args...)] only, the tasks that wait in
    the queue and the tasks that workers have taken and not yet called are
    untouched (not started, no value in the future), each with a promise
    of its own: neither [cancel] nor another worker reaches a task once
    a worker has taken it. *)
Theorem waiting_tasks_untouched debug n tr sys :
  (N.of_nat n < 2 ^ UINT_WIDTH)%N →
  exec debug (init n) tr sys →
  Forall (λ task, pending task (store sys)) (queue (scheduler sys))
  ∧ (∀ i w task, threads sys !! i = Some (w, unlocked task) →
       pending task (store sys))
  ∧ NoDup (held (threads sys) ++ promises (queue (scheduler sys))).
Proof.
  intros Hn Hex.
  destruct (exec_QueueInv _ _ _ _ Hn Hex) as [Hp Hnd _].
  split; [done |]. split; [| done].
  by apply (exec_HeldInv _ _ _ _ Hn Hex).
Qed.

(** X18.  [working] counts the workers between [working++] and
    [working--]: in every state of a program with fewer than 2^32 workers
    it is the number of threads that have taken a task and not yet come
    back from it, so it neither wraps around nor exceeds the number of
    workers. *)
Theorem working_counts_running debug n tr sys :
  (N.of_nat n < 2 ^ UINT_WIDTH)%N →
  exec debug (init n) tr sys →
  working (scheduler sys) = N.of_nat (count_running (threads sys))
  ∧ count_running (threads sys) ≤ n
  ∧ length (threads sys) = n.
Proof.
  intros Hn Hex.
  destruct (exec_Inv _ _ _ _ _ Hn (Inv_init debug n) Hex) as [Hlen Hw _ _].
  split; [done |]. split; [| done].
  rewrite <- Hlen. apply count_running_le.
Qed.

End OutcomeFacts.

(** ** Workers come to an end, queues get empty *)

Section DrainFacts.
Import Task TaskQueue System More.
Context {R Args E : Type}.
Implicit Types (sys : System R Args E) (st : Store R E).

Lemma exec_one debug sys l sys' :
  step debug sys l sys' → exec debug sys [l] sys'.
Proof. intros Hstep. apply (exec_snoc debug sys [] sys); [constructor | done]. Qed.

Lemma exec_step_then debug sys l sys1 tr sys' :
  step debug sys l sys1 → exec debug sys1 tr sys' →
  exec debug sys (l :: tr) sys'.
Proof.
  intros Hstep Hex. apply (exec_app debug sys [l] sys1 tr sys'); [| done].
  by apply exec_one.
Qed.

Lemma finish_from_top debug sys i w :
  isCompleted (scheduler sys) = true →
  threads sys !! i = Some (w, at_top) →
  ∃ sys', exec debug sys [l_runLoop i] sys'
          ∧ scheduler sys' = scheduler sys
          ∧ SyncedWorker_wait_returns i sys' = true.
Proof.
  intros Hc Hl.
  assert (i < length (threads sys)) as Hlen by by eapply lookup_lt_Some.
  destruct (Worker.runLoop_top w true) as [w' nx] eqn:Hrun.
  eexists. split; [| split].
  - apply exec_one. eapply step_runLoop; [done |]. by rewrite Hc.
  - done.
  - unfold SyncedWorker_wait_returns, TaskSchedulerBase_wait_returns.
    simpl. rewrite list_lookup_insert_eq by done.
    unfold isCompleted in Hc. rewrite Hc. simpl.
    unfold Worker.runLoop_top in Hrun.
    by destruct w as [cur []]; simpl in Hrun; simplify_eq.
Qed.

Lemma finish_from_scheduler debug sys i w :
  isCompleted (scheduler sys) = true →
  threads sys !! i = Some (w, in_scheduler) →
  ∃ sys', exec debug sys [l_iter i; l_runLoop i] sys'
          ∧ scheduler sys' = scheduler sys
          ∧ SyncedWorker_wait_returns i sys' = true.
Proof.
  intros Hc Hl.
  assert (i < length (threads sys)) as Hlen by by eapply lookup_lt_Some.
  assert (startScheduledWork_iter (Worker.predicate w) (scheduler sys)
          = Some Break) as Hit.
  { unfold startScheduledWork_iter. by rewrite Hc. }
  pose proof (step_iter debug sys i w Break Hl Hit) as Hstep.
  simpl in Hstep.
  edestruct (finish_from_top debug
               {| store := store sys; scheduler := scheduler sys;
                  frontend := frontend sys;
                  threads := <[i := (w, at_top)]> (threads sys) |} i w)
    as (sys' & Hex & Hs & Hw); [done | | ].
  { simpl. by apply list_lookup_insert_eq. }
  exists sys'. split; [by eapply exec_step_then | done].
Qed.

(** A thread that sleeps stays where it is until it wakes up: no other
    step of the program moves it. *)
Lemma step_asleep debug sys l sys' i w pc :
  step debug sys l sys' →
  threads sys !! i = Some (w, pc) →
  pc = blocked ∨ pc = waiting →
  l ≠ l_wake i →
  ∃ w', threads sys' !! i = Some (w', pc)
        ∧ Worker.currentState w' = Worker.currentState w.
Proof.
  intros Hstep Hi Hpc Hl.
  assert (i < length (threads sys)) as Hlen by by eapply lookup_lt_Some.
  destruct Hstep; simpl; try by eauto.
  all: destruct (decide (i0 = i)) as [-> | Hne];
    [| rewrite list_lookup_insert_ne by done; by eauto].
  all: destruct Hpc; simplify_eq.
  all: rewrite list_lookup_insert_eq by done;
    eexists; (split; [done |]); by eapply requestState_currentState.
Qed.

Lemma exec_asleep debug sys tr sys' i w pc :
  exec debug sys tr sys' →
  threads sys !! i = Some (w, pc) →
  pc = blocked ∨ pc = waiting →
  l_wake i ∉ tr →
  ∃ w', threads sys' !! i = Some (w', pc)
        ∧ Worker.currentState w' = Worker.currentState w.
Proof.
  intros Hex Hi Hpc. induction Hex as [| sys tr sys' l sys'' Hex IH Hstep].
  - by eauto.
  - intros Hnot. apply not_elem_of_app in Hnot as [Hnot Hl].
    destruct (IH Hi Hnot) as (w1 & H1 & Hc1).
    destruct (step_asleep _ _ _ _ _ _ _ Hstep H1 Hpc) as (w2 & H2 & Hc2).
    { intros ->. apply Hl. by left. }
    exists w2. split; [done | congruence].
Qed.

Lemma finish_once_woken debug sys i w pc sys1 :
  isCompleted (scheduler sys) = true →
  threads sys !! i = Some (w, pc) →
  pc = blocked ∨ pc = waiting →
  step debug sys (l_wake i) sys1 →
  ∃ tr' sys', exec debug sys1 tr' sys'
              ∧ Forall (λ l, l = l_iter i ∨ l = l_runLoop i) tr'
              ∧ length tr' ≤ 2
              ∧ scheduler sys' = scheduler sys
              ∧ SyncedWorker_wait_returns i sys' = true.
Proof.
  intros Hc Hl Hpc Hstep.
  assert (i < length (threads sys)) as Hlen by by eapply lookup_lt_Some.
  inversion Hstep as
    [ | | | | | | | sys0 j w0 Hl0 | sys0 j w0 Hl0 | | | ]; subst;
    destruct Hpc; simplify_eq.
  - (* woken in runLoop *)
    rewrite Hc.
    destruct (decide (Worker.requestedState w = Worker.TERMINATE))
      as [Hreq | Hreq].
    + assert (after_block w (Worker.runLoop_inner w true)
              = (w, at_top : PC R Args E))
        as -> by (destruct w as [cur req]; simpl in Hreq; by subst req).
      edestruct (finish_from_top debug (set_thread i (w, at_top) sys) i w)
        as (sys' & Hex & Hs & Hw); [done | | ].
      { simpl. by apply list_lookup_insert_eq. }
      exists [l_runLoop i], sys'. split; [done |].
      split; [repeat constructor; by right |].
      split; [simpl; lia | done].
    + eexists [], _. split; [constructor |]. split; [constructor |].
      split; [simpl; lia |]. split; [done |].
      unfold SyncedWorker_wait_returns, TaskSchedulerBase_wait_returns.
      simpl. rewrite list_lookup_insert_eq by done.
      unfold isCompleted in Hc. rewrite Hc. simpl.
      by destruct w as [cur []].
  - (* woken in the scheduler *)
    edestruct (finish_from_scheduler debug
                 (set_thread i (w, in_scheduler) sys) i w)
      as (sys' & Hex & Hs & Hw); [done | | ].
    { simpl. by apply list_lookup_insert_eq. }
    exists [l_iter i; l_runLoop i], sys'. split; [done |].
    split; [repeat constructor; by auto |].
    split; [simpl; lia | done].
Qed.

(** X19.  Once the scheduler is completed no thread is inside a task,
    and a started worker comes to its end as follows.  A worker whose
    thread is awake, at the top of [runLoop] or at the top of the loop of
    [startScheduledWork], reaches the end of [start] in one or two steps of
    its own, after which the loops of [wait()] exit.  A worker whose thread
    sleeps, blocked in the scheduler or parked in [runLoop], stays where
    it is, with [wait()] not returning, in everything the program does
    until that thread wakes up; once it has woken up it reaches the end of
    [start] in at most two further steps.  [checkCompleted], which sets
    the completion, notifies the two condition variables of the scheduler
    and no other: not the one a parked worker waits on. *)
Theorem completed_worker_terminates debug n tr sys i w pc :
  (N.of_nat n < 2 ^ UINT_WIDTH)%N →
  exec debug (init n) tr sys →
  isCompleted (scheduler sys) = true →
  threads sys !! i = Some (w, pc) →
  running pc = false
  ∧ (pc = at_top →
     ∃ sys', exec debug sys [l_runLoop i] sys'
             ∧ scheduler sys' = scheduler sys
             ∧ SyncedWorker_wait_returns i sys' = true)
  ∧ (pc = in_scheduler →
     ∃ sys', exec debug sys [l_iter i; l_runLoop i] sys'
             ∧ scheduler sys' = scheduler sys
             ∧ SyncedWorker_wait_returns i sys' = true)
  ∧ (pc = blocked ∨ pc = waiting →
     SyncedWorker_wait_returns i sys = false
     ∧ (∀ tr' sys', exec debug sys tr' sys' → l_wake i ∉ tr' →
          (∃ w', threads sys' !! i = Some (w', pc))
          ∧ SyncedWorker_wait_returns i sys' = false)
     ∧ ∀ sys1, step debug sys (l_wake i) sys1 →
         ∃ tr' sys', exec debug sys1 tr' sys'
                     ∧ Forall (λ l, l = l_iter i ∨ l = l_runLoop i) tr'
                     ∧ length tr' ≤ 2
                     ∧ scheduler sys' = scheduler sys
                     ∧ SyncedWorker_wait_returns i sys' = true)
  ∧ (pc = terminated → SyncedWorker_wait_returns i sys = true)
  ∧ (∀ s : Scheduler R Args E,
       Forall (λ e, e = notify_all base_variable
                    ∨ e = notify_all impl_variable) (checkCompleted s).2).
Proof.
  intros Hn Hex Hc Hl.
  destruct (exec_LifecycleInv _ _ _ _ Hex _ _ _ Hl) as (Hterm & _).
  assert (∀ sys' w', threads sys' !! i = Some (w', pc) →
            Worker.currentState w' = Worker.currentState w →
            pc ≠ terminated →
            SyncedWorker_wait_returns i sys' = false) as Hno.
  { intros sys' w' Hl' Hcur Hpc. unfold SyncedWorker_wait_returns.
    rewrite Hl'. apply andb_false_intro2, bool_decide_eq_false.
    rewrite Hcur. intros Ht. by apply Hpc, Hterm. }
  split; [| split; [| split; [| split; [| split]]]].
  - destruct (running pc) eqn:Hr; [| done].
    destruct (exec_Inv _ _ _ _ _ Hn (Inv_init debug n) Hex)
      as [_ Hw Hcomp _].
    apply Hcomp in Hc as (_ & _ & Hzero).
    pose proof (count_running_busy _ _ _ _ Hl Hr). lia.
  - intros ->. by apply finish_from_top with w.
  - intros ->. by apply finish_from_scheduler with w.
  - intros Hpc. split; [| split].
    + apply (Hno sys w Hl eq_refl). by destruct Hpc as [-> | ->].
    + intros tr' sys' Hex' Hnot.
      destruct (exec_asleep _ _ _ _ _ _ _ Hex' Hl Hpc Hnot)
        as (w' & Hl' & Hcur).
      split; [by eauto |].
      apply (Hno sys' w' Hl' Hcur). by destruct Hpc as [-> | ->].
    + intros sys1 Hstep. by eapply finish_once_woken.
  - intros ->. unfold SyncedWorker_wait_returns,
      TaskSchedulerBase_wait_returns.
    rewrite Hl. unfold isCompleted in Hc. rewrite Hc. simpl.
    apply bool_decide_eq_true. by apply Hterm.
  - intros s. rewrite checkCompleted_spec.
    destruct (_ && _); repeat constructor; by auto.
Qed.

Lemma launched_rounds i (futs : list nat) :
  launched (rounds i futs) = futs.
Proof.
  induction futs as [| fut futs IH]; [done |].
  replace (rounds i (fut :: futs)) with (round i fut ++ rounds i futs)
    by reflexivity.
  unfold launched at 1. rewrite omap_app.
  fold (launched (rounds i futs)). by rewrite IH.
Qed.

(** A worker that wants to work, alone on a closed queue: one round per
    task empties the queue. *)
Lemma drain_rounds debug w fe :
  Worker.requestedState w = Worker.WORK →
  ∀ (q : list (Task R Args E)) st c,
    all_pending q st →
    (q ≠ [] → c = false) →
    ∃ st',
      exec debug
        {| store := st;
           scheduler := {| completed := c; queue := q;
                           queueActive := false; working := 0 |};
           frontend := fe; threads := [(w, in_scheduler)] |}
        (rounds 0 (promises q))
        {| store := st';
           scheduler := {| completed := c || negb (empty q); queue := [];
                           queueActive := false; working := 0 |};
           frontend := fe; threads := [(w, in_scheduler)] |}
      ∧ (∀ p (v : TypedTaskResult R E),
           st !! p = Some (Some v) → st' !! p = Some (Some v))
      ∧ Forall (λ task, ∃ t, base task = Some t
                  ∧ st' !! promise t
                    = Some (Some (outcome (function t (args t))))) q.
Proof.
  intros Hreq q. induction q as [| task rest IH]; intros st c Hall Hc.
  - exists st. simpl. rewrite orb_false_r.
    split; [constructor |]. split; [done | constructor].
  - rewrite (Hc ltac:(done)).
    destruct Hall as [Hpend Hnd].
    pose proof (Forall_inv Hpend) as (t & Hb & Hs & He & Hp).
    destruct (all_pending_tail task t rest st
                (Some (outcome (function t (args t)))) Hb
                (conj Hpend Hnd)) as [Hnotin Hrest].
    (* the worker takes the task *)
    pose proof (working_worker_takes_front w
      {| completed := false; queue := task :: rest;
         queueActive := false; working := 0 |} task rest Hreq eq_refl
      eq_refl) as Hit.
    pose proof (step_iter debug
      {| store := st;
         scheduler := {| completed := false; queue := task :: rest;
                         queueActive := false; working := 0 |};
         frontend := fe; threads := [(w, in_scheduler)] |} 0 w _ eq_refl
      Hit) as Hstep1.
    simpl in Hstep1.
    (* it calls the task *)
    destruct (launch_untouched debug t st Hs Hp) as (v & Hl & Hv).
    assert (v = outcome (function t (args t))) as ->.
    { unfold outcome. by destruct (function t (args t)) as [r | [| | e]]. }
    set (t' := let t1 := set_started t in
               if debug then set_ended t1 else t1) in *.
    assert (started t' = true ∧ (debug = true → ended t' = true))
      as [Hs' He'] by (unfold t'; by destruct debug).
    pose proof (step_launch debug
      {| store := st;
         scheduler := {| completed := false; queue := rest;
                         queueActive := false;
                         working := unsigned_incr 0 |};
         frontend := fe; threads := [(w, unlocked task)] |}
      0 w task (promise t) (mkTask (Some t'))
      (<[promise t := Some (outcome (function t (args t)))]> st) eq_refl)
      as Hstep2.
    simpl in Hstep2. unfold getFuture, call in Hstep2.
    rewrite Hb, Hl in Hstep2. simpl in Hstep2.
    specialize (Hstep2 eq_refl eq_refl).
    (* it comes back and counts itself out *)
    assert (working {| completed := false; queue := rest;
                       queueActive := false;
                       working := unsigned_incr 0 |} ≠ 0%N) as Hbusy by done.
    pose proof (startScheduledWork_rest_counted debug (mkTask (Some t')) t'
      _ (<[promise t := Some (outcome (function t (args t)))]> st)
      eq_refl Hs' He' Hbusy) as Hback.
    pose proof (step_rest debug
      {| store := <[promise t := Some (outcome (function t (args t)))]> st;
         scheduler := {| completed := false; queue := rest;
                         queueActive := false;
                         working := unsigned_incr 0 |};
         frontend := fe; threads := [(w, executed (mkTask (Some t')))] |}
      0 w (mkTask (Some t')) _ _ _ eq_refl Hback) as Hstep3.
    simpl in Hstep3.
    assert ((checkCompleted
               (set_working (unsigned_decr (unsigned_incr 0))
                  {| completed := false; queue := rest;
                     queueActive := false;
                     working := unsigned_incr 0 |})).1
            = {| completed := empty rest; queue := rest;
                 queueActive := false; working := 0 |}) as Hcc.
    { rewrite checkCompleted_spec. by destruct rest. }
    rewrite Hcc in Hstep3.
    destruct (IH _ (empty rest) Hrest) as (st' & Hex & Hkeep & Hout).
    { by destruct rest. }
    exists st'. split; [| split].
    + replace (rounds 0 (promises (task :: rest)))
        with ([l_iter 0; l_launch 0 (promise t); l_rest 0]
                ++ rounds 0 (promises rest)).
      2:{ rewrite (promises_cons task rest), (promises_pending _ _ Hb).
          reflexivity. }
      eapply exec_step_then; [exact Hstep1 |].
      eapply exec_step_then; [exact Hstep2 |].
      eapply exec_step_then; [exact Hstep3 |].
      replace (false || negb (empty (task :: rest)))
        with (empty rest || negb (empty rest))
        by by destruct (empty rest).
      exact Hex.
    + intros p v Hv'. apply Hkeep. rewrite lookup_insert_ne; [done |].
      congruence.
    + constructor; [| done]. exists t. split; [done |].
      apply Hkeep. apply lookup_insert_eq.
Qed.

(** X20.  A worker that is in the scheduler and wants to work, alone on
    a closed queue in which untouched tasks wait, empties the queue: it
    calls the tasks one after the other in the order of the queue, each
    future gets the outcome of its task, the scheduler is completed when
    the last task is done, and the worker then leaves the scheduler and
    ends with [getState()] TERMINATE. *)
Theorem single_worker_drains debug sys w :
  threads sys = [(w, in_scheduler)] →
  Worker.requestedState w = Worker.WORK →
  completed (scheduler sys) = false →
  queueActive (scheduler sys) = false →
  working (scheduler sys) = 0%N →
  queue (scheduler sys) ≠ [] →
  all_pending (queue (scheduler sys)) (store sys) →
  ∃ tr sys',
    exec debug sys tr sys'
    ∧ tr = rounds 0 (promises (queue (scheduler sys)))
           ++ [l_iter 0; l_runLoop 0]
    ∧ launched tr = promises (queue (scheduler sys))
    ∧ isCompleted (scheduler sys') = true
    ∧ queue (scheduler sys') = []
    ∧ threads sys'
      = [(Worker.mkWorker Worker.TERMINATE Worker.WORK, terminated)]
    ∧ Forall (λ task, ∃ t, base task = Some t
                ∧ future_get (store sys') (promise t)
                  = Some (outcome (function t (args t))))
        (queue (scheduler sys)).
Proof.
  destruct sys as [st [c q a wk] fe ths]. simpl.
  intros -> Hreq -> -> -> Hq Hall.
  destruct (drain_rounds debug w fe Hreq q st false Hall ltac:(done))
    as (st' & Hex & _ & Hout).
  assert (negb (empty q) = true) as Hne by by destruct q.
  simpl in Hex. rewrite Hne in Hex.
  pose proof (step_iter (R := R) (Args := Args) (E := E) debug
    {| store := st';
       scheduler := {| completed := true; queue := [];
                       queueActive := false; working := 0 |};
       frontend := fe; threads := [(w, in_scheduler)] |} 0 w Break
    eq_refl eq_refl) as Hstep1.
  simpl in Hstep1.
  pose proof (step_runLoop (R := R) (Args := Args) (E := E) debug
    {| store := st';
       scheduler := {| completed := true; queue := [];
                       queueActive := false; working := 0 |};
       frontend := fe; threads := [(w, at_top)] |} 0 w
    (Worker.mkWorker Worker.WORK Worker.WORK) Worker.Return_ eq_refl)
    as Hstep2.
  simpl in Hstep2.
  assert (Worker.runLoop_top w true
          = (Worker.mkWorker Worker.WORK Worker.WORK, Worker.Return_))
    as Hrun by (destruct w as [cur req]; simpl in Hreq; by subst req).
  specialize (Hstep2 Hrun). unfold set_thread in Hstep2. simpl in Hstep2.
  eexists _, _. split; [| split; [reflexivity |]].
  - eapply exec_app; [exact Hex |].
    eapply exec_step_then; [exact Hstep1 |]. apply exec_one. exact Hstep2.
  - split.
    { unfold launched. rewrite omap_app. simpl. rewrite app_nil_r.
      apply launched_rounds. }
    simpl. repeat split; try done.
    eapply Forall_impl; [exact Hout |].
    intros task (t & Hb & Ht). exists t. split; [done |].
    by apply future_get_Some.
Qed.

End DrainFacts.

(** ** No block of a worker aborts *)

Section ReturnFacts.
Import Task TaskQueue System More.
Context {R Args E : Type}.
Implicit Types (sys : System R Args E).

(** X21.  In a program with fewer than 2^32 workers whose client code
    hands tasks to the queue with [addTask(functor, args...)] only, every
    block of [startScheduledWork] that a worker's thread is about to run
    returns: the top of the loop does not read the front of an empty queue,
    the call of the task it has taken trips no assertion and lets no
    exception out, and neither does the rest of the loop body, which
    destroys the task. *)
Theorem worker_blocks_return debug n tr sys i w :
  (N.of_nat n < 2 ^ UINT_WIDTH)%N →
  exec debug (init n) tr sys →
  (threads sys !! i = Some (w, in_scheduler) →
   ∃ sys', step debug sys (l_iter i) sys')
  ∧ (∀ task, threads sys !! i = Some (w, unlocked task) →
     ∃ fut sys', step debug sys (l_launch i fut) sys')
  ∧ (∀ task, threads sys !! i = Some (w, executed task) →
     ∃ sys', step debug sys (l_rest i) sys').
Proof.
  intros Hn Hex.
  destruct (worker_step_exists debug n tr sys i w Hn Hex) as (H1 & H2 & H3).
  split; [exact H1 |]. split; [exact H2 | exact H3].
Qed.

(** X22.  Nor does a call of client code to the queue abort.  In every
    state of a program with fewer than 2^32 workers whose client code hands
    tasks to the queue with [addTask(functor, args...)] only, for every
    functor [f] that can be called and all arguments [a], [addTask(f, a)]
    returns, and it returns the future of the task it made: a new future,
    which holds the cancellation at once when the queue is closed and
    belongs to the last task of the queue otherwise.  [cancel()] returns as
    well.  With the [TaskQueue] in existence these calls are steps of the
    program. *)
Theorem queue_calls_return debug n tr sys (f : Args → Call R E) (a : Args) :
  (N.of_nat n < 2 ^ UINT_WIDTH)%N →
  exec debug (init n) tr sys →
  (∃ s' fut st' ev,
     addTask_functor debug (scheduler sys) f a (store sys)
     = Ret (s', fut, st', ev)
     ∧ store sys !! fut = None
     ∧ (if queueActive (scheduler sys)
        then promises (queue s')
             = promises (queue (scheduler sys)) ++ [fut]
             ∧ st' !! fut = Some None
        else s' = scheduler sys
             ∧ future_get st' fut = Some Cancellation)
     ∧ (frontend sys = true →
        step debug sys (l_addTask fut)
          {| store := st'; scheduler := s'; frontend := true;
             threads := threads sys |}))
  ∧ (∃ s' st' ev,
       TaskQueue.cancel debug (scheduler sys) (store sys) = Ret (s', st', ev)
       ∧ (frontend sys = true →
          step debug sys l_cancel
            {| store := st'; scheduler := s'; frontend := true;
               threads := threads sys |})).
Proof.
  intros Hn Hex. split.
  - destruct (create_untouched f a (store sys)) as (t & Hc & Hfresh & Hu).
    destruct (queueActive (scheduler sys)) eqn:Ha.
    + assert (addTask_functor debug (scheduler sys) f a (store sys)
              = Ret (set_queue (queue (scheduler sys) ++ [mkTask (Some t)])
                       (scheduler sys),
                     promise t, <[promise t := None]> (store sys),
                     [notify_one impl_variable])) as Heq.
      { unfold addTask_functor. rewrite Hc.
        by rewrite (addTask_open _ _ _ _ Ha). }
      eexists _, _, _, _. split; [exact Heq |]. split; [done |]. split.
      * simpl. rewrite promises_app.
        rewrite (promises_pending (mkTask (Some t)) t eq_refl).
        split; [done |]. apply lookup_insert_eq.
      * intros Hfe. by eapply (step_addTask _ _ f a).
    + assert (addTask_functor debug (scheduler sys) f a (store sys)
              = Ret (scheduler sys, promise t,
                     <[promise t := Some Cancellation]>
                       (<[promise t := None]> (store sys)), [])) as Heq.
      { unfold addTask_functor. rewrite Hc.
        by rewrite (addTask_closed _ _ (mkTask (Some t)) t _ Ha eq_refl Hu). }
      eexists _, _, _, _. split; [exact Heq |]. split; [done |]. split.
      * split; [done |]. apply future_get_insert.
      * intros Hfe. by eapply (step_addTask _ _ f a).
  - pose proof (exec_all_pending _ _ _ _ Hn Hex) as Hall.
    destruct (cancel_pending_returns debug (scheduler sys) (store sys) Hall)
      as (s' & st' & ev & Hcan).
    exists s', st', ev. split; [done |].
    intros Hfe. by eapply step_cancel.
Qed.

End ReturnFacts.

(** ** Futures are settled once *)

Section SettledFacts.
Import Task TaskQueue System More.
Context {R Args E : Type}.
Implicit Types (sys : System R Args E) (st : Store R E).

Lemma step_launch_empty debug sys i fut sys' :
  step debug sys (l_launch i fut) sys' → store sys !! fut = Some None.
Proof.
  inversion 1 as
    [ | | | | | | | | | | sys0 j w task fut0 task' st' Hl Hfut Hcall | ];
    subst.
  apply getFuture_Ret in Hfut as (t & Hb & ->).
  unfold call in Hcall. rewrite Hb in Hcall.
  destruct (launch debug t (store sys)) as [[t1 st1] |] eqn:Hlaunch;
    [| done].
  apply launch_Ret in Hlaunch as [v Hv]. unfold set_value in Hv.
  by destruct (store sys !! promise t) as [[v0 |] |].
Qed.

Lemma exec_settled_not_launched debug sys tr sys' p
    (v : TypedTaskResult R E) :
  exec debug sys tr sys' → store sys !! p = Some (Some v) →
  p ∉ launched tr.
Proof.
  intros Hex Hv. induction Hex as [| sys tr sys' l sys'' Hex IH Hstep].
  - apply not_elem_of_nil.
  - rewrite launched_snoc. intros [Hp | Hp]%elem_of_app; [by apply IH |].
    destruct l; try by apply elem_of_nil in Hp.
    apply list_elem_of_singleton in Hp as ->.
    apply step_launch_empty in Hstep.
    pose proof (exec_keeps _ _ _ _ _ _ Hex Hv). congruence.
Qed.

Lemma held_elem_inv (ths : list (Worker.SyncedWorker * PC R Args E)) p :
  p ∈ held ths →
  ∃ i w task t, ths !! i = Some (w, unlocked task)
                ∧ base task = Some t ∧ promise t = p.
Proof.
  induction ths as [| [w pc] ths IH]; simpl.
  - intros Hp. by apply elem_of_nil in Hp.
  - intros [Hp | Hp]%elem_of_app.
    + destruct pc as [| | | | | task | task |]; simpl in Hp;
        try by apply elem_of_nil in Hp.
      destruct (base task) as [t |] eqn:Hb; simpl in Hp;
        [| by apply elem_of_nil in Hp].
      apply list_elem_of_singleton in Hp.
      by exists 0, w, task, t.
    + destruct (IH Hp) as (i & w' & task & t & Hl & Hb & Hpr).
      by exists (S i), w', task, t.
Qed.

(** In a program whose tasks come from [addTask(functor, args...)], a
    future that holds a value belongs to no task in the queue and to no
    task that a worker is about to call. *)
Lemma settled_out debug n tr sys p (v : TypedTaskResult R E) :
  (N.of_nat n < 2 ^ UINT_WIDTH)%N →
  exec debug (init n) tr sys →
  store sys !! p = Some (Some v) →
  p ∉ held (threads sys) ++ promises (queue (scheduler sys)).
Proof.
  intros Hn Hex Hv [Hin | Hin]%elem_of_app.
  - apply held_elem_inv in Hin as (i & w & task & t & Hl & Hb & <-).
    destruct (exec_HeldInv _ _ _ _ Hn Hex _ _ _ Hl)
      as (t' & Hb' & _ & _ & Hp).
    congruence.
  - apply list_elem_of_omap in Hin as (task & Hin & Hpr).
    destruct (exec_QueueInv _ _ _ _ Hn Hex) as [Hpend _ _].
    rewrite Forall_forall in Hpend.
    destruct (Hpend _ Hin) as (t' & Hb' & _ & _ & Hp).
    rewrite Hb' in Hpr. simpl in Hpr. congruence.
Qed.

Lemma call_settled debug (task : Task R Args E) t st
    (v : TypedTaskResult R E) :
  base task = Some t → st !! promise t = Some (Some v) →
  call debug task st
  = Abort (if debug && started t then AssertionFailed else StdTerminate).
Proof.
  intros Hb Hp. unfold call. rewrite Hb. unfold launch.
  destruct debug, (started t); simpl; try done;
    destruct (function _ _) as [r | [| | e]];
    by rewrite !(set_value_full _ _ _ _ Hp).
Qed.

(** X23.  A task whose future holds a value is out of the workers' reach.
    In a program whose client code hands tasks to the queue with
    [addTask(functor, args...)] only, a future that holds a value belongs
    to no task in the queue and to no task that a worker has taken, now or
    in any state that follows, keeps its value, and no call of its task
    occurs.  The call of such a task does not return, whoever makes it: it
    ends the program, by the assertion when a debug build finds the task
    started, by [std::terminate] otherwise. *)
Theorem settled_task_out_of_reach debug n tr sys p :
  (N.of_nat n < 2 ^ UINT_WIDTH)%N →
  exec debug (init n) tr sys →
  is_Some (future_get (store sys) p) →
  (p ∉ held (threads sys) ++ promises (queue (scheduler sys)))
  ∧ (∀ tr' sys', exec debug sys tr' sys' →
       (p ∉ launched tr')
       ∧ (p ∉ held (threads sys') ++ promises (queue (scheduler sys')))
       ∧ future_get (store sys') p = future_get (store sys) p)
  ∧ (∀ (task : Task R Args E) t st,
       base task = Some t → promise t = p →
       is_Some (future_get st p) →
       call debug task st
       = Abort (if debug && started t
                then AssertionFailed else StdTerminate)).
Proof.
  intros Hn Hex [v Hv]. pose proof Hv as Hv'.
  apply future_get_Some in Hv.
  split; [by eapply settled_out | split].
  - intros tr' sys' Hex'.
    pose proof (exec_keeps _ _ _ _ _ _ Hex' Hv) as Hv1.
    split; [by eapply exec_settled_not_launched |]. split.
    + eapply settled_out; [done | | done]. by eapply exec_app.
    + rewrite Hv'. by apply future_get_Some.
  - intros task t st Hb <- [v1 Hv1]. apply future_get_Some in Hv1.
    by eapply call_settled.
Qed.

Lemma step_cancel_settles debug n tr sys sys' p :
  (N.of_nat n < 2 ^ UINT_WIDTH)%N →
  exec debug (init n) tr sys →
  step debug sys l_cancel sys' →
  p ∈ promises (queue (scheduler sys)) →
  store sys' !! p = Some (Some Cancellation).
Proof.
  intros Hn Hex Hstep Hp.
  pose proof (exec_all_pending _ _ _ _ Hn Hex) as Hall.
  destruct (destroy_all_pending debug _ _ Hall) as (st1 & Hd & Hset & _).
  inversion Hstep as [| | sys0 s' st' ev Hfe Hcan | | | | | | | | |]; subst.
  unfold TaskQueue.cancel in Hcan. rewrite Hd in Hcan. simpl in Hcan.
  destruct (checkCompleted _) as [s2 ev2]. injection Hcan as _ <- _.
  simpl. by apply Hset.
Qed.

(** X24.  In a program whose client code hands tasks to the queue with
    [addTask(functor, args...)] only, [cancel()] is final for the tasks it
    finds in the queue: none of them was called before, none is called in
    whatever the program does afterwards, none is in the queue or in the
    hands of a worker afterwards, and the future of each holds the
    cancellation from then on. *)
Theorem cancelled_tasks_never_run debug n tr1 sys1 sys2 tr2 sys3 p :
  (N.of_nat n < 2 ^ UINT_WIDTH)%N →
  exec debug (init n) tr1 sys1 →
  step debug sys1 l_cancel sys2 →
  exec debug sys2 tr2 sys3 →
  p ∈ promises (queue (scheduler sys1)) →
  (p ∉ launched (tr1 ++ l_cancel :: tr2))
  ∧ (p ∉ held (threads sys3) ++ promises (queue (scheduler sys3)))
  ∧ future_get (store sys3) p = Some Cancellation.
Proof.
  intros Hn Hex1 Hstep Hex2 Hp.
  pose proof (step_cancel_settles _ _ _ _ _ _ Hn Hex1 Hstep Hp) as Hv.
  pose proof (exec_keeps _ _ _ _ _ _ Hex2 Hv) as Hv3.
  split; [| split].
  - unfold launched. rewrite omap_app. simpl.
    fold (launched tr1). fold (launched tr2).
    intros [Hin | Hin]%elem_of_app.
    + destruct (exec_OnceInv _ _ _ _ Hex1) as [Hnd _].
      apply NoDup_app in Hnd as (_ & Hdisj & _).
      apply (Hdisj _ Hin). apply elem_of_app. by right.
    + by eapply (exec_settled_not_launched _ _ _ _ _ _ Hex2 Hv).
  - eapply settled_out; [done | | done].
    eapply exec_app; [done |]. by eapply exec_step_then.
  - by apply future_get_Some.
Qed.

Lemma step_accounted debug n tr sys l sys' :
  (N.of_nat n < 2 ^ UINT_WIDTH)%N →
  exec debug (init n) tr sys →
  step debug sys l sys' →
  (∀ p, p ∈ submitted tr →
     p ∈ held (threads sys) ++ promises (queue (scheduler sys))
     ∨ is_Some (future_get (store sys) p)) →
  ∀ p, p ∈ submitted (tr ++ [l]) →
    p ∈ held (threads sys') ++ promises (queue (scheduler sys'))
    ∨ is_Some (future_get (store sys') p).
Proof.
  intros Hn Hex Hstep Hacc p. rewrite submitted_snoc.
  intros [Hold | Hnew]%elem_of_app.
  - destruct (Hacc _ Hold) as [Hin | [v Hv]].
    + destruct (decide (l = l_cancel)) as [-> | Hl].
      * apply elem_of_app in Hin as [Hin | Hin].
        -- left. apply elem_of_app. left.
           by inversion Hstep; subst.
        -- right. exists Cancellation. apply future_get_Some.
           by eapply step_cancel_settles.
      * pose proof (step_perm _ _ _ _ Hstep Hl) as Hperm.
        assert (p ∈ launched [l] ++ held (threads sys')
                      ++ promises (queue (scheduler sys'))) as Hin'.
        { rewrite Hperm. rewrite app_assoc. apply elem_of_app. by left. }
        apply elem_of_app in Hin' as [Hin' | Hin']; [| by left].
        right. destruct l; try by apply elem_of_nil in Hin'.
        apply list_elem_of_singleton in Hin' as ->.
        destruct (step_launch_outcome _ _ _ _ _ Hstep) as [v Hv].
        exists v. by apply future_get_Some.
    + right. exists v. apply future_get_Some.
      eapply step_keeps; [done |]. by apply future_get_Some.
  - destruct l; try by apply elem_of_nil in Hnew.
    apply list_elem_of_singleton in Hnew as ->.
    inversion Hstep as [sys0 f a s' fut st' ev Hfe Hadd | | | | | | | | | | |];
      subst. simpl.
    destruct (queueActive (scheduler sys)) eqn:Ha.
    + left. apply addTask_functor_Ret in Hadd as (_ & _ & ->).
      rewrite Ha. apply elem_of_app. right. apply elem_of_app. right.
      by left.
    + right.
      destruct (addTask_functor_closed debug (scheduler sys) f a
                  (store sys) Ha) as (fut' & st1 & Heq & _ & Hc).
      rewrite Heq in Hadd. injection Hadd as _ <- <- _. by eexists.
Qed.

(** X25.  No future is left behind.  In every state of a program the
    future of every task that was handed to [addTask] either belongs to a
    task that still waits (in the queue, or in the hands of a worker that is
    about to call it) or holds a value: a task that the queue refuses or
    drops leaves the cancellation in its future. *)
Theorem no_future_orphaned debug n tr sys p :
  (N.of_nat n < 2 ^ UINT_WIDTH)%N →
  exec debug (init n) tr sys →
  p ∈ submitted tr →
  p ∈ held (threads sys) ++ promises (queue (scheduler sys))
  ∨ is_Some (future_get (store sys) p).
Proof.
  intros Hn Hex. revert p. remember (init n) as sys0 eqn:H0.
  induction Hex as [| sys tr sys' l sys'' Hex IH Hstep].
  - intros p Hp. by apply elem_of_nil in Hp.
  - subst. by eapply step_accounted; [| | | apply IH].
Qed.

End SettledFacts.

(** ** A worker that is not to work leaves the scheduler *)

Section LeaveFacts.
Import Task TaskQueue System More.
Context {R Args E : Type}.
Implicit Types (sys : System R Args E) (pc : PC R Args E).

Lemma own_self i :
  own i (l_runLoop i) = true ∧ own i (l_wake i) = true
  ∧ own i (l_iter i) = true ∧ own i (l_rest i) = true
  ∧ ∀ fut, own i (l_launch i fut) = true.
Proof. simpl. rewrite bool_decide_eq_true_2 by done. by repeat split. Qed.

Lemma leave_top debug sys i w :
  Worker.requestedState w ≠ Worker.WORK →
  threads sys !! i = Some (w, at_top) →
  ∃ sys', exec debug sys [l_runLoop i] sys' ∧ at_rest i sys'.
Proof.
  intros Hreq Hl.
  assert (i < length (threads sys)) as Hlen by by eapply lookup_lt_Some.
  destruct (Worker.runLoop_top w (isCompleted (scheduler sys)))
    as [w' nx] eqn:Hrun.
  eexists. split.
  - apply exec_one. by eapply step_runLoop.
  - unfold at_rest. simpl. rewrite list_lookup_insert_eq by done.
    unfold Worker.runLoop_top in Hrun.
    destruct w as [cur []], (isCompleted (scheduler sys));
      simpl in Hrun, Hreq; simplify_eq; simpl; eexists;
      first [ by left | by right ].
Qed.

Lemma leave_scheduler debug sys i w :
  Worker.requestedState w ≠ Worker.WORK →
  threads sys !! i = Some (w, in_scheduler) →
  ∃ sys', exec debug sys [l_iter i; l_runLoop i] sys' ∧ at_rest i sys'.
Proof.
  intros Hreq Hl.
  assert (i < length (threads sys)) as Hlen by by eapply lookup_lt_Some.
  assert (startScheduledWork_iter (Worker.predicate w) (scheduler sys)
          = Some Break) as Hit.
  { unfold startScheduledWork_iter, Worker.predicate.
    rewrite (bool_decide_eq_false_2 _ Hreq). simpl.
    by rewrite orb_true_r. }
  pose proof (step_iter debug sys i w Break Hl Hit) as Hstep.
  simpl in Hstep.
  edestruct (leave_top debug
               {| store := store sys; scheduler := scheduler sys;
                  frontend := frontend sys;
                  threads := <[i := (w, at_top)]> (threads sys) |} i w)
    as (sys' & Hex & Hrest); [done | | ].
  { simpl. by apply list_lookup_insert_eq. }
  exists sys'. split; [by eapply exec_step_then | done].
Qed.

Lemma step_rest_thread debug sys i sys' w task :
  step debug sys (l_rest i) sys' →
  threads sys !! i = Some (w, executed task) →
  threads sys' !! i = Some (w, in_scheduler).
Proof.
  intros Hstep Hl.
  assert (i < length (threads sys)) as Hlen by by eapply lookup_lt_Some.
  inversion Hstep; subst. simpl. simplify_eq.
  by apply list_lookup_insert_eq.
Qed.

Lemma step_launch_thread debug sys i fut sys' w task :
  step debug sys (l_launch i fut) sys' →
  threads sys !! i = Some (w, unlocked task) →
  held_of (unlocked task) = Some fut
  ∧ ∃ task', threads sys' !! i = Some (w, executed task').
Proof.
  intros Hstep Hl.
  assert (i < length (threads sys)) as Hlen by by eapply lookup_lt_Some.
  inversion Hstep as
    [ | | | | | | | | | | sys0 j w0 task0 fut0 task' st' Hl0 Hfut Hcall | ];
    subst. simpl. simplify_eq.
  apply getFuture_Ret in Hfut as (t & Hb & ->). rewrite Hb. simpl.
  split; [done |]. eexists. by apply list_lookup_insert_eq.
Qed.

Lemma leave_once_woken debug sys i w pc sys1 :
  Worker.requestedState w ≠ Worker.WORK →
  threads sys !! i = Some (w, pc) →
  pc = blocked ∨ (pc = waiting ∧ Worker.requestedState w ≠ Worker.WAIT) →
  step debug sys (l_wake i) sys1 →
  ∃ tr' sys', exec debug sys1 tr' sys'
              ∧ tr' = match pc with
                      | blocked => [l_iter i; l_runLoop i]
                      | _ => [l_runLoop i]
                      end
              ∧ at_rest i sys'.
Proof.
  intros Hreq Hl Hpc Hstep.
  assert (i < length (threads sys)) as Hlen by by eapply lookup_lt_Some.
  inversion Hstep as
    [ | | | | | | | sys0 j w0 Hl0 | sys0 j w0 Hl0 | | | ]; subst;
    destruct Hpc as [? | [? Hw]]; simplify_eq.
  - assert (after_block w (Worker.runLoop_inner w
                             (isCompleted (scheduler sys)))
            = (w, at_top : PC R Args E)) as ->.
    { unfold Worker.runLoop_inner.
      rewrite (bool_decide_eq_false_2 _ Hw).
      by rewrite (bool_decide_eq_false_2 _ Hreq). }
    edestruct (leave_top debug (set_thread i (w, at_top) sys) i w)
      as (sys' & Hex' & Hrest); [done | | ].
    { simpl. by apply list_lookup_insert_eq. }
    by exists [l_runLoop i], sys'.
  - edestruct (leave_scheduler debug (set_thread i (w, in_scheduler) sys)
                 i w) as (sys' & Hex' & Hrest); [done | | ].
    { simpl. by apply list_lookup_insert_eq. }
    by exists [l_iter i; l_runLoop i], sys'.
Qed.

(** X26.  A worker that is not to work and the scheduler, in a program
    whose client code hands tasks to the queue with
    [addTask(functor, args...)] only.  Let the requested state of a worker
    be WAIT or TERMINATE.  If its thread is
    awake (at the top of [runLoop], at the top of the loop of
    [startScheduledWork], or in the loop body with a task it has taken),
    then within four steps of its own, none of them a wake-up, the worker is
    out of [startScheduledWork] and either has ended, with [getState()]
    TERMINATE, or waits in [runLoop], with [getState()] WAIT; on the way it
    calls the task it had taken, if any, and takes no other.  If its thread
    is blocked in the scheduler, it stays blocked in everything the program
    does until that thread wakes up, requests to the worker included, and
    leaves the scheduler in two steps once it has woken up; [requestState]
    notifies the worker's own condition variable and no other, so it does
    not wake that thread.  A worker parked in [runLoop] stays parked until
    it wakes up, and is at rest there when WAIT is requested. *)
Theorem idle_request_leaves_scheduler debug n tr sys i w pc :
  (N.of_nat n < 2 ^ UINT_WIDTH)%N →
  exec debug (init n) tr sys →
  threads sys !! i = Some (w, pc) →
  Worker.requestedState w ≠ Worker.WORK →
  (pc = at_top ∨ pc = in_scheduler ∨ running pc = true →
     ∃ tr' sys',
       exec debug sys tr' sys'
       ∧ Forall (λ l, own i l = true ∧ l ≠ l_wake i) tr'
       ∧ length tr' ≤ 4
       ∧ launched tr' = option_list (held_of pc)
       ∧ at_rest i sys')
  ∧ (pc = blocked ∨ pc = waiting →
     (∀ tr' sys', exec debug sys tr' sys' → l_wake i ∉ tr' →
        ∃ w', threads sys' !! i = Some (w', pc))
     ∧ (pc = waiting → Worker.requestedState w = Worker.WAIT →
        at_rest i sys)
     ∧ (pc = blocked
        ∨ (pc = waiting ∧ Worker.requestedState w ≠ Worker.WAIT) →
        ∀ sys1, step debug sys (l_wake i) sys1 →
          ∃ tr' sys', exec debug sys1 tr' sys'
                      ∧ tr' = match pc with
                              | blocked => [l_iter i; l_runLoop i]
                              | _ => [l_runLoop i]
                              end
                      ∧ at_rest i sys'))
  ∧ (pc = terminated → at_rest i sys)
  ∧ (∀ state w' ev, Worker.requestState debug w state = Ret (w', ev) →
       Forall (λ e, e = notify_all waitVariable) ev).
Proof.
  intros Hn Hex Hl Hreq.
  destruct (own_self i) as (Ho1 & Ho2 & Ho3 & Ho4 & Ho5).
  assert (i < length (threads sys)) as Hlen by by eapply lookup_lt_Some.
  destruct (exec_LifecycleInv _ _ _ _ Hex _ _ _ Hl) as (Hterm & Hwait & _).
  split; [| split; [| split]].
  - intros Hpc.
    destruct pc as [| | | | | task | task |];
      try (by destruct Hpc as [? | [? | ?]]).
    + (* at the top of runLoop *)
      destruct (leave_top debug sys i w Hreq Hl) as (sys' & ? & ?).
      exists [l_runLoop i], sys'. split; [done |].
      split; [by repeat constructor |]. split; [simpl; lia | done].
    + (* at the top of the loop of startScheduledWork *)
      destruct (leave_scheduler debug sys i w Hreq Hl) as (sys' & ? & ?).
      exists [l_iter i; l_runLoop i], sys'. split; [done |].
      split; [by repeat constructor |]. split; [simpl; lia | done].
    + (* about to call a task *)
      destruct (worker_step_exists debug n tr sys i w Hn Hex)
        as (_ & Hcall & _).
      destruct (Hcall _ Hl) as (fut & sys1 & Hstep1).
      destruct (step_launch_thread _ _ _ _ _ _ _ Hstep1 Hl)
        as (Hheld & task' & Hl1).
      pose proof (exec_snoc _ _ _ _ _ _ Hex Hstep1) as Hex1.
      destruct (worker_step_exists debug n _ sys1 i w Hn Hex1)
        as (_ & _ & Hback).
      destruct (Hback _ Hl1) as (sys2 & Hstep2).
      pose proof (step_rest_thread _ _ _ _ _ _ Hstep2 Hl1) as Hl2.
      destruct (leave_scheduler debug sys2 i w Hreq Hl2)
        as (sys' & Hex' & Hrest).
      exists [l_launch i fut; l_rest i; l_iter i; l_runLoop i], sys'.
      split; [eapply exec_step_then; [done |]; by eapply exec_step_then |].
      split; [by repeat constructor |]. split; [simpl; lia |].
      split; [| done]. rewrite Hheld. reflexivity.
    + (* back from a task *)
      destruct (worker_step_exists debug n tr sys i w Hn Hex)
        as (_ & _ & Hback).
      destruct (Hback _ Hl) as (sys2 & Hstep2).
      pose proof (step_rest_thread _ _ _ _ _ _ Hstep2 Hl) as Hl2.
      destruct (leave_scheduler debug sys2 i w Hreq Hl2)
        as (sys' & Hex' & Hrest).
      exists [l_rest i; l_iter i; l_runLoop i], sys'.
      split; [by eapply exec_step_then |].
      split; [by repeat constructor |]. split; [simpl; lia | done].
  - intros Hpc. split; [| split].
    + intros tr' sys' Hex' Hnot.
      destruct (exec_asleep _ _ _ _ _ _ _ Hex' Hl Hpc Hnot)
        as (w' & Hl' & _).
      by eauto.
    + intros -> Hw. exists w. right. by auto.
    + intros Hpc' sys1 Hstep. by eapply leave_once_woken.
  - intros ->. exists w. left. split; [done |]. by apply Hterm.
  - intros state w' ev Hrs.
    destruct debug, w as [cur []], state; cbv in Hrs; simplify_eq;
      by repeat constructor.
Qed.

End LeaveFacts.

(** ** The small program, again *)

Section MoreExampleFacts.
Import Task TaskQueue System More Example Example2.

Local Tactic Notation "then_step" uconstr(step_rule) :=
  eapply exec_step_then; [eapply step_rule; reflexivity | vm_compute].

Lemma exec_rest_of_run : exec true after_first_return rest_of_run after_run.
Proof.
  unfold rest_of_run.
  then_step step_rest.
  then_step step_iter.
  then_step step_launch.
  then_step step_rest.
  apply exec_nil.
Qed.



Lemma step_to_the_end :
  step true before_end (l_runLoop 0) after_wait_and_work.
Proof.
  exact (step_runLoop true before_end 0
           (Worker.mkWorker Worker.WAIT Worker.WORK)
           (Worker.mkWorker Worker.WORK Worker.WORK) Worker.Return_
           eq_refl eq_refl).
Qed.

Lemma exec_asked_to_wait_after_end :
  exec true after_wait_and_work [l_requestState 0 Worker.WAIT]
    asked_to_wait_after_end.
Proof.
  apply exec_one.
  exact (step_requestState true after_wait_and_work 0
           (Worker.mkWorker Worker.TERMINATE Worker.WORK) terminated
           Worker.WAIT (Worker.mkWorker Worker.TERMINATE Worker.WAIT) []
           eq_refl eq_refl).
Qed.

Lemma task_runs_once_witness :
  call true (mkTask (Some (set_ended (set_started task0))))
    (<[0 := Some (ReturnValue 42)]> two_promises)
  = Abort AssertionFailed
  ∧ destroy true (mkTask (Some (set_ended (set_started task0))))
      (<[0 := Some (ReturnValue 42)]> two_promises)
    = Ret (<[0 := Some (ReturnValue 42)]> two_promises).
Proof.
  apply (task_runs_once true (mkTask (Some task0)) two_promises).
  reflexivity.
Defined.

Lemma call_exception_message_witness :
  ∃ task' st',
    call true (mkTask (Some task1)) two_promises = Ret (task', st')
    ∧ Untyped.getExceptionMessage what "future error"
        <$> future_get st' (future task1)
      = Some (Some "boom"%string).
Proof.
  apply (call_exception_message what "future error" true
           (mkTask (Some task1)) task1 two_promises).
  - reflexivity.
  - by repeat split.
Defined.

Lemma worker_lifecycle_witness :
  (Worker.getState (Worker.mkWorker Worker.TERMINATE Worker.WORK)
   = Worker.TERMINATE ↔ (terminated : PC nat nat nat) = terminated)
  ∧ ((terminated : PC nat nat nat) = waiting
     ∨ (terminated : PC nat nat nat) = unstarted →
     Worker.getState (Worker.mkWorker Worker.TERMINATE Worker.WORK)
     = Worker.WAIT)
  ∧ (Worker_destructor true
       (Worker.mkWorker Worker.TERMINATE Worker.WORK) = Ret tt
     ↔ (terminated : PC nat nat nat) = terminated)
  ∧ (SyncedWorker_wait_returns 0 after_wait_and_work = true →
     (terminated : PC nat nat nat) = terminated).
Proof.
  apply (worker_lifecycle true 1 wait_and_work after_wait_and_work 0).
  - exact exec_wait_and_work.
  - reflexivity.
Defined.

Lemma terminated_is_final_witness :
  Forall (λ l, own 0 l = false) [l_requestState 0 Worker.WAIT]
  ∧ ∃ w', threads asked_to_wait_after_end !! 0 = Some (w', terminated)
          ∧ Worker.getState w'
            = Worker.getState (Worker.mkWorker Worker.TERMINATE Worker.WORK).
Proof.
  apply (terminated_is_final true after_wait_and_work _
           asked_to_wait_after_end 0).
  - exact exec_asked_to_wait_after_end.
  - reflexivity.
Defined.

Lemma termination_cause_witness :
  ((at_top : PC nat nat nat) = at_top ∧ l_runLoop 0 = l_runLoop 0
   ∨ (at_top : PC nat nat nat) = waiting ∧ l_runLoop 0 = l_wake 0)
  ∧ (Worker.requestedState (Worker.mkWorker Worker.WAIT Worker.WORK)
     = Worker.TERMINATE
     ∨ isCompleted (scheduler before_end) = true)
  ∧ Worker.getState (Worker.mkWorker Worker.TERMINATE Worker.WORK)
    = Worker.TERMINATE
  ∧ Worker.requestedState (Worker.mkWorker Worker.TERMINATE Worker.WORK)
    = Worker.requestedState (Worker.mkWorker Worker.WAIT Worker.WORK).
Proof.
  apply (termination_cause true before_end (l_runLoop 0)
           after_wait_and_work 0).
  - exact step_to_the_end.
  - reflexivity.
  - done.
  - reflexivity.
Defined.


Lemma published_outcome_is_final_witness :
  future_get (store after_run) 0 = Some (ReturnValue 42).
Proof.
  apply (published_outcome_is_final true after_first_return rest_of_run).
  - exact exec_rest_of_run.
  - reflexivity.
Defined.

Lemma no_task_called_twice_witness :
  NoDup (launched run)
  ∧ ∀ p, p ∈ launched run →
      p ∈ submitted run
      ∧ is_Some (future_get (store after_run) p)
      ∧ p ∉ held (threads after_run) ++ promises (queue (scheduler after_run)).
Proof. apply (no_task_called_twice true 1). exact exec_run. Defined.

Lemma waiting_tasks_untouched_witness :
  Forall (λ task, pending task (store parked)) (queue (scheduler parked))
  ∧ (∀ i w task, threads parked !! i = Some (w, unlocked task) →
       pending task (store parked))
  ∧ NoDup (held (threads parked) ++ promises (queue (scheduler parked))).
Proof.
  apply (waiting_tasks_untouched true 1 (take 8 wait_and_work)).
  - reflexivity.
  - exact exec_parked.
Defined.

Lemma working_counts_running_witness :
  working (scheduler after_first_return)
  = N.of_nat (count_running (threads after_first_return))
  ∧ count_running (threads after_first_return) ≤ 1
  ∧ length (threads after_first_return) = 1.
Proof.
  apply (working_counts_running true 1 run_to_first_return).
  - reflexivity.
  - exact exec_run_to_first_return.
Defined.

Lemma exec_parked_completed :
  exec true (init 1) park_and_complete parked_completed.
Proof.
  unfold park_and_complete.
  eapply exec_app; [exact exec_parked |].
  eapply exec_step_then.
  - apply (step_cancel true parked (scheduler parked_cancelled)
             (store parked_cancelled) []); reflexivity.
  - apply exec_one. exact (step_close true parked_cancelled eq_refl).
Qed.

(** The worker that has parked when the program cancels and closes the
    queue: the scheduler is completed and the worker stays parked. *)
Lemma completed_worker_terminates_witness :
  SyncedWorker_wait_returns 0 parked_completed = false
  ∧ (∀ tr' sys', exec true parked_completed tr' sys' → l_wake 0 ∉ tr' →
       (∃ w', threads sys' !! 0 = Some (w', waiting))
       ∧ SyncedWorker_wait_returns 0 sys' = false)
  ∧ ∀ sys1, step true parked_completed (l_wake 0) sys1 →
      ∃ tr' sys', exec true sys1 tr' sys'
                  ∧ Forall (λ l, l = l_iter 0 ∨ l = l_runLoop 0) tr'
                  ∧ length tr' ≤ 2
                  ∧ scheduler sys' = scheduler parked_completed
                  ∧ SyncedWorker_wait_returns 0 sys' = true.
Proof.
  destruct (completed_worker_terminates true 1 park_and_complete
              parked_completed 0 (Worker.mkWorker Worker.WAIT Worker.WAIT)
              waiting) as (_ & _ & _ & Hsleep & _).
  - reflexivity.
  - exact exec_parked_completed.
  - reflexivity.
  - reflexivity.
  - apply Hsleep. by right.
Defined.

Lemma single_worker_drains_witness :
  ∃ tr sys',
    exec true ready_to_drain tr sys'
    ∧ tr = rounds 0 (promises (queue (scheduler ready_to_drain)))
           ++ [l_iter 0; l_runLoop 0]
    ∧ launched tr = promises (queue (scheduler ready_to_drain))
    ∧ isCompleted (scheduler sys') = true
    ∧ queue (scheduler sys') = []
    ∧ threads sys'
      = [(Worker.mkWorker Worker.TERMINATE Worker.WORK, terminated)]
    ∧ Forall (λ task, ∃ t, base task = Some t
                ∧ future_get (store sys') (promise t)
                  = Some (outcome (function t (args t))))
        (queue (scheduler ready_to_drain)).
Proof.
  apply (single_worker_drains true ready_to_drain
           (Worker.mkWorker Worker.WORK Worker.WORK)).
  - reflexivity.
  - reflexivity.
  - reflexivity.
  - reflexivity.
  - reflexivity.
  - done.
  - exact all_pending_open_queue.
Defined.

Lemma worker_blocks_return_witness :
  ∃ sys', step true after_first_return (l_rest 0) sys'.
Proof.
  destruct (worker_blocks_return true 1 run_to_first_return
              after_first_return 0 (Worker.mkWorker Worker.WORK Worker.WORK))
    as (_ & _ & Hrest).
  - reflexivity.
  - exact exec_run_to_first_return.
  - apply (Hrest (mkTask (Some (set_ended (set_started task0))))).
    reflexivity.
Defined.

Lemma queue_calls_return_witness :
  (∃ s' fut st' ev,
     addTask_functor true (scheduler parked) increment 1 (store parked)
     = Ret (s', fut, st', ev)
     ∧ store parked !! fut = None
     ∧ (if queueActive (scheduler parked)
        then promises (queue s')
             = promises (queue (scheduler parked)) ++ [fut]
             ∧ st' !! fut = Some None
        else s' = scheduler parked
             ∧ future_get st' fut = Some Cancellation)
     ∧ (frontend parked = true →
        step true parked (l_addTask fut)
          {| store := st'; scheduler := s'; frontend := true;
             threads := threads parked |}))
  ∧ (∃ s' st' ev,
       TaskQueue.cancel true (scheduler parked) (store parked)
       = Ret (s', st', ev)
       ∧ (frontend parked = true →
          step true parked l_cancel
            {| store := st'; scheduler := s'; frontend := true;
               threads := threads parked |})).
Proof.
  apply (queue_calls_return true 1 (take 8 wait_and_work) parked
           increment 1).
  - reflexivity.
  - exact exec_parked.
Defined.

Lemma exec_asked_to_wait :
  exec true (init 1) (take 4 wait_and_work) asked_to_wait.
Proof.
  unfold wait_and_work. simpl.
  then_step step_start.
  then_step step_runLoop.
  then_step step_iter.
  then_step step_requestState.
  apply exec_nil.
Qed.

Lemma step_parked_cancelled : step true parked l_cancel parked_cancelled.
Proof.
  apply (step_cancel true parked (scheduler parked_cancelled)
           (store parked_cancelled) []); reflexivity.
Qed.

(** The future of the first task of [run] once that task has returned. *)
Lemma settled_task_out_of_reach_witness :
  (0 ∉ held (threads after_first_return)
       ++ promises (queue (scheduler after_first_return)))
  ∧ (∀ tr' sys', exec true after_first_return tr' sys' →
       (0 ∉ launched tr')
       ∧ (0 ∉ held (threads sys') ++ promises (queue (scheduler sys')))
       ∧ future_get (store sys') 0
         = future_get (store after_first_return) 0)
  ∧ (∀ (task : Task nat nat nat) t st,
       base task = Some t → promise t = 0 →
       is_Some (future_get st 0) →
       call true task st
       = Abort (if true && started t
                then AssertionFailed else StdTerminate)).
Proof.
  apply (settled_task_out_of_reach true 1 run_to_first_return
           after_first_return 0).
  - reflexivity.
  - exact exec_run_to_first_return.
  - by eexists.
Defined.

Lemma cancelled_tasks_never_run_witness :
  (0 ∉ launched (take 8 wait_and_work ++ l_cancel :: []))
  ∧ (0 ∉ held (threads parked_cancelled)
         ++ promises (queue (scheduler parked_cancelled)))
  ∧ future_get (store parked_cancelled) 0 = Some Cancellation.
Proof.
  apply (cancelled_tasks_never_run true 1 (take 8 wait_and_work) parked
           parked_cancelled [] parked_cancelled 0).
  - reflexivity.
  - exact exec_parked.
  - exact step_parked_cancelled.
  - apply exec_nil.
  - vm_compute. left.
Defined.

Lemma no_future_orphaned_witness :
  1 ∈ held (threads after_run) ++ promises (queue (scheduler after_run))
  ∨ is_Some (future_get (store after_run) 1).
Proof.
  apply (no_future_orphaned true 1 run after_run 1).
  - reflexivity.
  - exact exec_run.
  - vm_compute. right. left.
Defined.

(** The worker of [wait_and_work] that is asked to wait while it is
    blocked in the scheduler. *)
Lemma idle_request_leaves_scheduler_witness :
  (∀ tr' sys', exec true asked_to_wait tr' sys' → l_wake 0 ∉ tr' →
     ∃ w', threads sys' !! 0 = Some (w', blocked))
  ∧ ∀ sys1, step true asked_to_wait (l_wake 0) sys1 →
      ∃ tr' sys', exec true sys1 tr' sys'
                  ∧ tr' = [l_iter 0; l_runLoop 0]
                  ∧ at_rest 0 sys'.
Proof.
  destruct (idle_request_leaves_scheduler true 1 (take 4 wait_and_work)
              asked_to_wait 0 (Worker.mkWorker Worker.WORK Worker.WAIT)
              blocked) as (_ & Hsleep & _).
  - reflexivity.
  - exact exec_asked_to_wait.
  - reflexivity.
  - done.
  - destruct Hsleep as (Hstay & _ & Hwoken); [by left |].
    split; [exact Hstay |]. apply Hwoken. by left.
Defined.

(** A task created with a reference to a variable of its caller: called
    when the variable holds 100, it returns 101, whatever the variable held
    when the task was created. *)
Lemma create_call_publishes_witness :
  ∃ task fut task',
    Forwarding.create (Mem := nat) 0 true (Some increment)
      (Forwarding.by_reference (λ x, x)) ∅
    = Ret (task, fut, <[fut := None]> ∅)
    ∧ (∅ : Store nat nat) !! fut = None
    ∧ call true (task 100) (<[fut := None]> ∅)
      = Ret (task', <[fut := Some (ReturnValue 101)]> ∅)
    ∧ getFuture true task' = Ret fut.
Proof.
  destruct (create_call_publishes (R := nat) (A := nat) (E := nat)
              (Mem := nat) 0 true (Forwarding.by_reference (λ x, x)) ∅ 100)
    as (Hcall & _).
  apply (Hcall increment).
Defined.

End MoreExampleFacts.
